(** * Layout subsystem of the SmartArt diagram library

    A shallow embedding of
      - [lib/utils/geometry.ts]            (GeometryUtils),
      - [lib/layouts/engines/dagre]        (DagreLayoutEngine),
      - [lib/layouts/engines/elkjs]        (ElkJSLayoutEngine),
      - the layout manager                 (LayoutManager),
      - [lib/layouts/engines/custom.ts]    (CustomLayoutEngine),
      - the auto-layout manager            (AutoLayoutManager),
      - the two pure functions of [PerformanceUtils]
        ([optimizeDiagramRendering] and [createVirtualList]),
    followed by the properties of the layout specification and further
    properties of the same code.

    Conventions of the embedding.
      - A JavaScript [number] is a real number ([R]); NaN and the two
        infinities are not represented, so every statement below is about
        exact real arithmetic.  [Math.min], [Math.max], [Math.sqrt],
        [Math.cos], [Math.sin] and [Math.PI] are the functions of the
        Reals library.
      - The two external solvers (dagre and ELK) are not part of the
        repository: they are Section variables, and a solver may throw.
      - The dagre and ELK engines and the layout manager only read their
        arguments and build new objects, so they are pure functions on
        values.  The custom engine assigns to [node.position.x] of the
        objects it is given: there a node is a reference into a heap of
        node objects and the algorithms pass the heap along.  Every node
        object owns its [position] object (no two nodes share one). *)

From Stdlib Require Import Reals Lra Lia ZArith String List.
From stdpp Require Import base option list gmap strings sets.

Local Open Scope R_scope.
Local Open Scope string_scope.

(** ** JavaScript numbers and the Math functions used by the layout code *)

Abbreviation number := R.

(** [v || d] on numbers: 0 is falsy, every other real is truthy. *)
Definition or_default (v : option number) (d : number) : number :=
  match v with
  | Some x => if Req_dec_T x 0 then d else x
  | None => d
  end.

(** [Math.atan2 y x], from its mathematical definition by quadrant. *)
Definition Math_atan2 (y x : number) : number :=
  if Rlt_dec 0 x then atan (y / x)
  else if Rlt_dec x 0 then
         (if Rle_dec 0 y then atan (y / x) + PI else atan (y / x) - PI)
  else if Rlt_dec 0 y then PI / 2
  else if Rlt_dec y 0 then - (PI / 2)
  else 0.

Definition Math_ceil (x : number) : Z := Zceil x.
Definition Math_floor (x : number) : Z := Zfloor x.

(** ** Data model ([types/diagram.ts]) *)

Record Position := mkPosition { px : number; py : number }.
Record Size := mkSize { width : number; height : number }.

Record DiagramNode := mkNode {
  id : string;
  ntype : string;
  position : Position;
  size : Size;
  label : string            (* data.label *)
}.

Record DiagramEdge := mkEdge {
  eid : string;
  source : string;
  target : string
}.

Record Spacing := mkSpacing {
  horizontal : number;
  vertical : number;
  node_gap : number         (* spacing.node *)
}.

Record LayoutConfig := mkConfig {
  ltype : string;           (* DiagramType *)
  direction : string;       (* LayoutDirection *)
  spacing : Spacing;
  alignment : option string
}.

Record SmartDiagramData := mkData {
  nodes : list DiagramNode;
  edges : list DiagramEdge;
  layout : LayoutConfig;
  metadata : string
}.

(** A call either returns a value or throws. *)
Inductive result (A : Type) : Type :=
  | Ok (a : A)
  | Throw.
Arguments Ok {A} a.
Arguments Throw {A}.

(** ** GeometryUtils *)

Module GeometryUtils.

Definition distance (p1 p2 : Position) : number :=
  sqrt ((px p2 - px p1) ^ 2 + (py p2 - py p1) ^ 2).

Definition angle (p1 p2 : Position) : number :=
  Math_atan2 (py p2 - py p1) (px p2 - px p1).

Definition clamp (value lo hi : number) : number :=
  Rmin (Rmax value lo) hi.

(** The determinant of the two direction vectors. *)
Definition denom (line1Start line1End line2Start line2End : Position) : number :=
  let x1 := px line1Start in let y1 := py line1Start in
  let x2 := px line1End in let y2 := py line1End in
  let x3 := px line2Start in let y3 := py line2Start in
  let x4 := px line2End in let y4 := py line2End in
  (x1 - x2) * (y3 - y4) - (y1 - y2) * (x3 - x4).

Definition getLineIntersection
    (line1Start line1End line2Start line2End : Position) : option Position :=
  let x1 := px line1Start in let y1 := py line1Start in
  let x2 := px line1End in let y2 := py line1End in
  let x3 := px line2Start in let y3 := py line2Start in
  let x4 := px line2End in let y4 := py line2End in
  let denom := (x1 - x2) * (y3 - y4) - (y1 - y2) * (x3 - x4) in
  if Rlt_dec (Rabs denom) 1e-10 then None
  else
    let t := ((x1 - x3) * (y3 - y4) - (y1 - y3) * (x3 - x4)) / denom in
    let u := - ((x1 - x2) * (y1 - y3) - (y1 - y2) * (x1 - x3)) / denom in
    if Rle_dec 0 t then
      if Rle_dec t 1 then
        if Rle_dec 0 u then
          if Rle_dec u 1 then
            Some (mkPosition (x1 + t * (x2 - x1)) (y1 + t * (y2 - y1)))
          else None
        else None
      else None
    else None.


(** [rect: Position & Size], also the result of [getBoundingBox]. *)
Record Rect := mkRect {
  rect_x : number;
  rect_y : number;
  rect_width : number;
  rect_height : number
}.

Definition leb (a b : number) : bool := if Rle_dec a b then true else false.

Definition center (p1 p2 : Position) : Position :=
  mkPosition ((px p1 + px p2) / 2) ((py p1 + py p2) / 2).

Definition isPointInRect (point : Position) (rect : Rect) : bool :=
  leb (rect_x rect) (px point) &&
  leb (px point) (rect_x rect + rect_width rect) &&
  leb (rect_y rect) (py point) &&
  leb (py point) (rect_y rect + rect_height rect).

Definition isPointInCircle (point center : Position) (radius : number) : bool :=
  leb (distance point center) radius.

(** The four sides, in the order top, right, bottom, left. *)
Definition rect_sides (rect : Rect) : list (Position * Position) :=
  let rectLeft := rect_x rect in
  let rectRight := rect_x rect + rect_width rect in
  let rectTop := rect_y rect in
  let rectBottom := rect_y rect + rect_height rect in
  [ (mkPosition rectLeft rectTop, mkPosition rectRight rectTop);
    (mkPosition rectRight rectTop, mkPosition rectRight rectBottom);
    (mkPosition rectLeft rectBottom, mkPosition rectRight rectBottom);
    (mkPosition rectLeft rectTop, mkPosition rectLeft rectBottom) ].

(** The [for] loop that collects the intersections with the sides. *)
Definition side_intersections (lineStart lineEnd : Position) (rect : Rect)
    : list Position :=
  flat_map
    (fun side =>
       match getLineIntersection lineStart lineEnd (fst side) (snd side) with
       | Some intersection => [intersection]
       | None => []
       end)
    (rect_sides rect).

(** The callback of the [reduce]. *)
Definition closer (lineStart closest current : Position) : Position :=
  if Rlt_dec (distance lineStart current) (distance lineStart closest)
  then current else closest.

Definition getLineRectIntersection (lineStart lineEnd : Position) (rect : Rect)
    : option Position :=
  match side_intersections lineStart lineEnd rect with
  | [] => None
  | first :: rest => Some (fold_left (closer lineStart) rest first)
  end.

(** [sides] is the number of rounds of the loop. *)
Definition generatePolygonPoints (center : Position) (radius : number) (sides : nat)
    : list Position :=
  map (fun i =>
         let angle := (INR i * 2 * PI) / INR sides - PI / 2 in
         mkPosition (px center + radius * cos angle) (py center + radius * sin angle))
      (seq 0 sides).

Definition degToRad (degrees : number) : number := degrees * (PI / 180).
Definition radToDeg (radians : number) : number := radians * (180 / PI).

(** The [forEach] of [getBoundingBox]; as in [getBounds] the accumulators
    start at the infinities and the loop runs on a non-empty list only, so
    the scan is seeded by the first position. *)
Definition box_step (acc : number * number * number * number) (pos : Position)
  : number * number * number * number :=
  let '(minX, minY, maxX, maxY) := acc in
  (Rmin minX (px pos), Rmin minY (py pos), Rmax maxX (px pos), Rmax maxY (py pos)).

Definition getBoundingBox (positions : list Position) : Rect :=
  match positions with
  | [] => mkRect 0 0 0 0
  | first :: rest =>
      let '(minX, minY, maxX, maxY) :=
        fold_left box_step rest (px first, py first, px first, py first) in
      mkRect minX minY (maxX - minX) (maxY - minY)
  end.

End GeometryUtils.

(** ** The two external solvers

    [dagre.layout(graph)] receives the graph built by the engine, and either
    throws or leaves a position on (some of) the graph's nodes, which
    [graph.node(id)] then returns.  [elk.layout(graph)] returns a promise that
    is rejected or resolved with a graph whose optional [children] carry
    optional coordinates. *)

Record DagreNodeLabel := mkDagreLabel {
  dn_width : number;
  dn_height : number;
  dn_label : string
}.

Record DagreGraph := mkDagreGraph {
  rankdir : string;
  nodesep : number;
  ranksep : number;
  edgesep : number;
  align : string;
  setNode_calls : list (string * DagreNodeLabel);
  setEdge_calls : list (string * string)
}.

Inductive DagreOutcome :=
  | DagreThrows
  | DagreDone (graph_node : string -> option Position).

Record ElkChild := mkElkChild {
  elk_id : string;
  elk_width : number;
  elk_height : number;
  elk_label : string
}.

Record ElkEdge := mkElkEdge {
  elk_eid : string;
  elk_sources : list string;
  elk_targets : list string
}.

Record ElkGraph := mkElkGraph {
  elk_direction : string;
  elk_spacing_nodeNode : number;
  elk_spacing_betweenLayers : number;
  elk_spacing_edgeNode : string;
  elk_spacing_edgeEdge : string;
  elk_children : list ElkChild;
  elk_edges : list ElkEdge
}.

Record ElkLayoutedNode := mkElkLayouted {
  ln_id : string;
  ln_x : option number;
  ln_y : option number
}.

Inductive ElkOutcome :=
  | ElkRejects
  | ElkResolves (children : option (list ElkLayoutedNode)).

Record Bounds := mkBounds {
  b_width : number;
  b_height : number;
  offset : Position
}.

(** The body of the [forEach] of [getBounds], shared by both engines.  The
    accumulators start at [Infinity] and [-Infinity]; the list is not empty
    when the loop runs, and [Math.min(Infinity, v) = v],
    [Math.max(-Infinity, v) = v], so the scan is seeded by the first node. *)
Definition scan_step (acc : number * number * number * number) (node : DiagramNode)
  : number * number * number * number :=
  let '(minX, minY, maxX, maxY) := acc in
  (Rmin minX (px (position node)),
   Rmin minY (py (position node)),
   Rmax maxX (px (position node) + width (size node)),
   Rmax maxY (py (position node) + height (size node))).

Definition scan_bounds (first : DiagramNode) (rest : list DiagramNode)
  : number * number * number * number :=
  fold_left scan_step rest
    (px (position first), py (position first),
     px (position first) + width (size first),
     py (position first) + height (size first)).

Definition bounds_of (nodes : list DiagramNode) : Bounds :=
  match nodes with
  | [] => mkBounds 800 600 (mkPosition 0 0)
  | first :: rest =>
      let '(minX, minY, maxX, maxY) := scan_bounds first rest in
      mkBounds (maxX - minX) (maxY - minY) (mkPosition (- minX + 50) (- minY + 50))
  end.

Module DagreLayoutEngine.
Section WithSolver.
Variable dagre_layout : DagreGraph -> DagreOutcome.

Definition rankdir_of (direction : string) : string :=
  if String.eqb direction "top-bottom" then "TB"
  else if String.eqb direction "vertical" then "TB"
  else if String.eqb direction "bottom-top" then "BT"
  else if String.eqb direction "left-right" then "LR"
  else if String.eqb direction "horizontal" then "LR"
  else if String.eqb direction "right-left" then "RL"
  else "TB".

(** The graph handed to [dagre.layout]: every node and every edge of the
    input is registered, in input order. *)
Definition build_graph (nodes : list DiagramNode) (edges : list DiagramEdge)
    (config : LayoutConfig) : DagreGraph :=
  mkDagreGraph
    (rankdir_of (direction config))
    (node_gap (spacing config))
    (vertical (spacing config))
    50
    (match alignment config with
     | Some a => if String.eqb a "" then "UL" else a
     | None => "UL"
     end)
    (map (fun node =>
            (id node,
             mkDagreLabel (width (size node)) (height (size node)) (label node)))
         nodes)
    (map (fun edge => (source edge, target edge)) edges).

Definition place (graph_node : string -> option Position) (node : DiagramNode)
    : DiagramNode :=
  match graph_node (id node) with
  | Some graphNode =>
      mkNode (id node) (ntype node)
        (mkPosition (px graphNode - width (size node) / 2)
                    (py graphNode - height (size node) / 2))
        (size node) (label node)
  | None => node
  end.

(** There is no [try] around [dagre.layout(graph)]. *)
Definition layout (nodes : list DiagramNode) (edges : list DiagramEdge)
    (config : LayoutConfig) : result (list DiagramNode) :=
  match dagre_layout (build_graph nodes edges config) with
  | DagreThrows => Throw
  | DagreDone graph_node => Ok (map (place graph_node) nodes)
  end.

Definition getBounds (nodes : list DiagramNode) : Bounds := bounds_of nodes.

End WithSolver.
End DagreLayoutEngine.

Module ElkJSLayoutEngine.
Section WithSolver.
Variable elk_layout : ElkGraph -> ElkOutcome.

Definition getElkDirection (direction : string) : string :=
  if String.eqb direction "top-bottom" then "DOWN"
  else if String.eqb direction "vertical" then "DOWN"
  else if String.eqb direction "bottom-top" then "UP"
  else if String.eqb direction "left-right" then "RIGHT"
  else if String.eqb direction "horizontal" then "RIGHT"
  else if String.eqb direction "right-left" then "LEFT"
  else "DOWN".

Definition build_graph (nodes : list DiagramNode) (edges : list DiagramEdge)
    (config : LayoutConfig) : ElkGraph :=
  mkElkGraph
    (getElkDirection (direction config))
    (node_gap (spacing config))
    (vertical (spacing config))
    "20" "10"
    (map (fun node =>
            mkElkChild (id node) (width (size node)) (height (size node))
                       (label node))
         nodes)
    (map (fun edge => mkElkEdge (eid edge) [source edge] [target edge]) edges).

(** [layoutedGraph.children?.find(n => n.id === node.id)] *)
Definition find_child (children : option (list ElkLayoutedNode)) (node_id : string)
    : option ElkLayoutedNode :=
  match children with
  | Some cs => List.find (fun n => String.eqb (ln_id n) node_id) cs
  | None => None
  end.

Definition place (children : option (list ElkLayoutedNode)) (node : DiagramNode)
    : DiagramNode :=
  match find_child children (id node) with
  | Some layoutedNode =>
      match ln_x layoutedNode, ln_y layoutedNode with
      | Some x, Some y =>
          mkNode (id node) (ntype node) (mkPosition x y) (size node) (label node)
      | _, _ => node
      end
  | None => node
  end.

(** The [catch] returns the input array itself. *)
Definition layout (nodes : list DiagramNode) (edges : list DiagramEdge)
    (config : LayoutConfig) : result (list DiagramNode) :=
  match elk_layout (build_graph nodes edges config) with
  | ElkResolves children => Ok (map (place children) nodes)
  | ElkRejects => Ok nodes
  end.

Definition getBounds (nodes : list DiagramNode) : Bounds := bounds_of nodes.

End WithSolver.
End ElkJSLayoutEngine.

Module LayoutManager.
Section WithSolvers.
Variable dagre_layout : DagreGraph -> DagreOutcome.
Variable elk_layout : ElkGraph -> ElkOutcome.

Definition center (bounds : Bounds) (node : DiagramNode) : DiagramNode :=
  mkNode (id node) (ntype node)
    (mkPosition (px (position node) + px (offset bounds))
                (py (position node) + py (offset bounds)))
    (size node) (label node).

(** The engine is the string the caller passes: ['dagre'], ['elkjs'] or
    ['none'] by its type; any other string takes the final [else]. *)
Definition applyLayout (data : SmartDiagramData) (engine : string)
    : result SmartDiagramData :=
  if String.eqb engine "none" || Nat.eqb (length (nodes data)) 0 then Ok data
  else
    let layouted :=
      if String.eqb engine "dagre" then
        DagreLayoutEngine.layout dagre_layout (nodes data) (edges data) (layout data)
      else if String.eqb engine "elkjs" then
        ElkJSLayoutEngine.layout elk_layout (nodes data) (edges data) (layout data)
      else Ok (nodes data) in
    match layouted with
    | Throw => Throw
    | Ok layoutedNodes =>
        let bounds :=
          if String.eqb engine "dagre" then DagreLayoutEngine.getBounds layoutedNodes
          else ElkJSLayoutEngine.getBounds layoutedNodes in
        Ok (mkData (map (center bounds) layoutedNodes)
                   (edges data) (layout data) (metadata data))
    end.

Definition autoLayout (data : SmartDiagramData) : result SmartDiagramData :=
  applyLayout data "dagre".

End WithSolvers.
End LayoutManager.

(** ** The custom layout engine ([engines/custom.ts])

    The engine copies the array it is given ([[...nodes]]), not the node
    objects: the arrays it works on hold the caller's objects, and
    [node.position.x = v] writes into them.  A node is therefore a reference
    ([loc]) and the heap maps each reference to its object.  Arrays of
    forces, the maps and the sets of the tree layout are local to one call and
    are plain values. *)

Definition loc := nat.
Definition heap := loc -> DiagramNode.

(** [node.position.x = v] and [node.position.y = v] *)
Definition set_x (h : heap) (node : loc) (v : number) : heap :=
  fun r =>
    if Nat.eqb r node then
      mkNode (id (h r)) (ntype (h r))
             (mkPosition v (py (position (h r)))) (size (h r)) (label (h r))
    else h r.

Definition set_y (h : heap) (node : loc) (v : number) : heap :=
  fun r =>
    if Nat.eqb r node then
      mkNode (id (h r)) (ntype (h r))
             (mkPosition (px (position (h r))) v) (size (h r)) (label (h r))
    else h r.

(** [l.forEach((a, index) => body)] over a state [S]. *)
Definition forEach {A S : Type} (l : list A) (body : A -> nat -> S -> S) (s : S) : S :=
  fold_left (fun s ia => body (snd ia) (fst ia) s) (combine (seq 0 (length l)) l) s.

(** The constructors stand for the strings ['force'], ['circular'], ['tree'],
    ['grid'] and ['organic']. *)
Inductive Algorithm := Force | Circular | Tree | Grid | Organic.

Record CustomLayoutOptions := mkOptions {
  algorithm : option Algorithm;
  iterations : option nat;
  repulsion : option number;
  attraction : option number;
  damping : option number;
  centerX : option number;
  centerY : option number
}.

Definition no_options : CustomLayoutOptions :=
  mkOptions None None None None None None None.

(** [Required<CustomLayoutOptions>] *)
Record RequiredOptions := mkRequired {
  r_algorithm : Algorithm;
  r_iterations : nat;
  r_repulsion : number;
  r_attraction : number;
  r_damping : number;
  r_centerX : number;
  r_centerY : number
}.

Record CustomLayoutEngine := mkEngine {
  this_nodes : list loc;
  this_edges : list DiagramEdge;
  this_options : RequiredOptions
}.

(** The constructor; [||] replaces a missing option and also a 0. *)
Definition new_CustomLayoutEngine (nodes : list loc) (edges : list DiagramEdge)
    (options : CustomLayoutOptions) : CustomLayoutEngine :=
  mkEngine nodes edges
    (mkRequired
       (match algorithm options with Some a => a | None => Force end)
       (match iterations options with
        | Some n => if Nat.eqb n 0 then 100%nat else n
        | None => 100%nat
        end)
       (or_default (repulsion options) 1000)
       (or_default (attraction options) (1 / 10))
       (or_default (damping options) (9 / 10))
       (or_default (centerX options) 400)
       (or_default (centerY options) 300)).

Module CustomLayout.
Section WithRandom.
(** [random k] is the value of the k-th call of [Math.random()]. *)
Variable random : nat -> number.

(** *** Force-directed *)

Definition add_x (forces : list Position) (idx : nat) (v : number) : list Position :=
  alter (fun f => mkPosition (px f + v) (py f)) idx forces.
Definition add_y (forces : list Position) (idx : nat) (v : number) : list Position :=
  alter (fun f => mkPosition (px f) (py f + v)) idx forces.

(** The pairs (i, j), i < j < n, in the order of the two nested loops. *)
Definition pairs (n : nat) : list (nat * nat) :=
  flat_map (fun i => map (fun j => (i, j)) (seq (S i) (n - S i))) (seq 0 n).

Definition repel (this : CustomLayoutEngine) (h : heap) (nodes : list loc)
    (forces : list Position) (ij : nat * nat) : list Position :=
  match nodes !! fst ij, nodes !! snd ij with
  | Some node1, Some node2 =>
      let distance := GeometryUtils.distance (position (h node1)) (position (h node2)) in
      let force := r_repulsion (this_options this) / (distance * distance + 1) in
      let angle := GeometryUtils.angle (position (h node1)) (position (h node2)) in
      let forces := add_x forces (fst ij) (- (cos angle * force)) in
      let forces := add_y forces (fst ij) (- (sin angle * force)) in
      let forces := add_x forces (snd ij) (cos angle * force) in
      add_y forces (snd ij) (sin angle * force)
  | _, _ => forces
  end.

(** [nodes.find(n => n.id === wanted)] *)
Definition find_node (h : heap) (nodes : list loc) (wanted : string) : option loc :=
  List.find (fun n => String.eqb (id (h n)) wanted) nodes.

(** The index of [forces.find((_, idx) => nodes[idx] === node)]. *)
Fixpoint index_of (nodes : list loc) (node : loc) : option nat :=
  match nodes with
  | [] => None
  | n :: rest =>
      if Nat.eqb n node then Some 0%nat
      else match index_of rest node with
           | Some i => Some (S i)
           | None => None
           end
  end.

Definition at_node (nodes : list loc) (node : loc)
    (upd : list Position -> nat -> list Position) (forces : list Position)
    : list Position :=
  match index_of nodes node with
  | Some idx => upd forces idx
  | None => forces
  end.

Definition attract (this : CustomLayoutEngine) (h : heap) (nodes : list loc)
    (forces : list Position) (edge : DiagramEdge) : list Position :=
  match find_node h nodes (source edge), find_node h nodes (target edge) with
  | Some sourceNode, Some targetNode =>
      let distance :=
        GeometryUtils.distance (position (h sourceNode)) (position (h targetNode)) in
      let force := r_attraction (this_options this) * distance in
      let angle :=
        GeometryUtils.angle (position (h sourceNode)) (position (h targetNode)) in
      let forces := at_node nodes sourceNode (fun fs i => add_x fs i (cos angle * force)) forces in
      let forces := at_node nodes sourceNode (fun fs i => add_y fs i (sin angle * force)) forces in
      let forces := at_node nodes targetNode (fun fs i => add_x fs i (- (cos angle * force))) forces in
      at_node nodes targetNode (fun fs i => add_y fs i (- (sin angle * force))) forces
  | _, _ => forces
  end.

Definition apply_force (this : CustomLayoutEngine) (forces : list Position)
    (node : loc) (index : nat) (h : heap) : heap :=
  match forces !! index with
  | Some force =>
      let h := set_x h node (px (position (h node)) + px force * r_damping (this_options this)) in
      let h := set_y h node (py (position (h node)) + py force * r_damping (this_options this)) in
      let h := set_x h node (GeometryUtils.clamp (px (position (h node))) (-1000) 2000) in
      set_y h node (GeometryUtils.clamp (py (position (h node))) (-1000) 2000)
  | None => h
  end.

(** One round of the outer [for] loop. *)
Definition force_iteration (this : CustomLayoutEngine) (nodes : list loc) (h : heap)
    : heap :=
  let forces := map (fun _ => mkPosition 0 0) nodes in
  let forces := fold_left (repel this h nodes) (pairs (length nodes)) forces in
  let forces := fold_left (attract this h nodes) (this_edges this) forces in
  forEach nodes (apply_force this forces) h.

Definition forceDirectedLayout (this : CustomLayoutEngine) (h : heap)
    : list loc * heap :=
  let nodes := this_nodes this in
  (nodes, Nat.iter (r_iterations (this_options this)) (force_iteration this nodes) h).

(** *** Circular *)

Definition circular_radius (n : nat) : number :=
  Rmin 300 (INR n * 50 / (2 * PI)).

Definition circular_angle (index n : nat) : number :=
  INR index / INR n * 2 * PI - PI / 2.

Definition circularLayout (this : CustomLayoutEngine) (h : heap) : list loc * heap :=
  let nodes := this_nodes this in
  let centerX := r_centerX (this_options this) in
  let centerY := r_centerY (this_options this) in
  let radius := circular_radius (length nodes) in
  (nodes,
   forEach nodes
     (fun node index h =>
        let angle := circular_angle index (length nodes) in
        let h := set_x h node (centerX + cos angle * radius) in
        set_y h node (centerY + sin angle * radius))
     h).

(** *** Grid *)

Definition gridLayout (this : CustomLayoutEngine) (h : heap) : list loc * heap :=
  let nodes := this_nodes this in
  let cols := Math_ceil (sqrt (INR (length nodes))) in
  let rows := Math_ceil (INR (length nodes) / IZR cols) in
  let spacingX := 150 in
  let spacingY := 100 in
  let startX := r_centerX (this_options this) - ((IZR cols - 1) * spacingX) / 2 in
  let startY := r_centerY (this_options this) - ((IZR rows - 1) * spacingY) / 2 in
  (nodes,
   forEach nodes
     (fun node index h =>
        let row := Math_floor (INR index / IZR cols) in
        let col := Z.rem (Z.of_nat index) cols in
        let h := set_x h node (startX + IZR col * spacingX) in
        set_y h node (startY + IZR row * spacingY))
     h).

(** *** Organic: circular, jitter, then 20 rounds of the force layout of a
    second engine over the same node objects and the same edges (its
    [layout()] finds the algorithm ['force']). *)

Definition organicLayout (this : CustomLayoutEngine) (h : heap) : list loc * heap :=
  let '(nodes, h) := circularLayout this h in
  let variation := 30 in
  let h :=
    forEach nodes
      (fun node index h =>
         let h := set_x h node
                    (px (position (h node)) + (random (2 * index) - 1 / 2) * variation) in
         set_y h node
           (py (position (h node)) + (random (2 * index + 1) - 1 / 2) * variation))
      h in
  let organicLayout :=
    new_CustomLayoutEngine nodes (this_edges this)
      (mkOptions (Some Force) (Some 20%nat) (Some 500) (Some (5 / 100))
                 (Some (8 / 10)) None None) in
  forceDirectedLayout organicLayout h.

(** *** Tree *)

Record QueueEntry := mkEntry {
  q_node : loc;
  q_x : number;
  q_y : number;
  q_level : nat
}.

(** [nodeMap.set(node.id, node)] for every node; a later node with the same
    id replaces an earlier one. *)
Definition build_nodeMap (h : heap) (nodes : list loc) : gmap string loc :=
  fold_left (fun m node => <[id (h node) := node]> m) nodes ∅.

(** [adjacencyList.set(node.id, [])] for every node, then for every edge the
    target is pushed on the list of the source (a fresh list when the source
    has none). *)
Definition add_edge (m : gmap string (list string)) (edge : DiagramEdge)
    : gmap string (list string) :=
  <[source edge := (default [] (m !! source edge) ++ [target edge])%list]> m.

Definition build_adjacency (h : heap) (nodes : list loc) (edges : list DiagramEdge)
    : gmap string (list string) :=
  fold_left add_edge edges
    (fold_left (fun m node => <[id (h node) := []]> m) nodes ∅).

Definition edge_targets (edges : list DiagramEdge) : gset string :=
  list_to_set (map target edges).

(** [nodes.filter(node => !targets.has(node.id))] *)
Definition zero_indegree (h : heap) (nodes : list loc) (edges : list DiagramEdge)
    : list loc :=
  filter (fun node => id (h node) ∉ edge_targets edges) nodes.

Definition find_roots (h : heap) (nodes : list loc) (edges : list DiagramEdge)
    : list loc :=
  let rootNodes := zero_indegree h nodes edges in
  match rootNodes, nodes with
  | [], first :: _ => (rootNodes ++ [first])%list
  | _, _ => rootNodes
  end.

Definition push_root (this : CustomLayoutEngine) (rootNodes : list loc)
    (root : loc) (index : nat) (queue : list QueueEntry) : list QueueEntry :=
  (queue ++
    [mkEntry root
       (r_centerX (this_options this)
        + (INR index - INR (length rootNodes) / 2) * 200)
       (r_centerY (this_options this) - 200)
       0])%list.

(** The loop state; [placed] is a ghost record of the assignments
    [node.position.x = x; node.position.y = y], oldest first. *)
Record bfs_state := mkBfs {
  queue : list QueueEntry;
  visited : gset string;
  mem : heap;
  placed : list (loc * Position)
}.

Definition push_child (nodeMap : gmap string loc) (visited : gset string)
    (startX y : number) (level : nat)
    (childId : string) (index : nat) (queue : list QueueEntry) : list QueueEntry :=
  match nodeMap !! childId with
  | Some childNode =>
      if decide (childId ∈ visited) then queue
      else (queue ++ [mkEntry childNode (startX + INR index * 150) (y + 100) (S level)])%list
  | None => queue
  end.

(** One round of the [while]: [e] is the entry [queue.shift()] returns. *)
Definition bfs_step (nodeMap : gmap string loc)
    (adjacencyList : gmap string (list string))
    (e : QueueEntry) (rest : list QueueEntry) (st : bfs_state) : bfs_state :=
  let node_id := id (mem st (q_node e)) in
  if decide (node_id ∈ visited st) then mkBfs rest (visited st) (mem st) (placed st)
  else
    let visited := {[node_id]} ∪ visited st in
    let h := set_y (set_x (mem st) (q_node e) (q_x e)) (q_node e) (q_y e) in
    let children := default [] (adjacencyList !! node_id) in
    let childSpacing := 150 in
    let startX := q_x e - ((INR (length children) - 1) * childSpacing) / 2 in
    mkBfs
      (forEach children (push_child nodeMap visited startX (q_y e) (q_level e)) rest)
      visited h
      (placed st ++ [(q_node e, mkPosition (q_x e) (q_y e))])%list.

(** The [while (queue.length > 0)] loop, with a bound on its rounds. *)
Fixpoint bfs_loop (nodeMap : gmap string loc)
    (adjacencyList : gmap string (list string))
    (fuel : nat) (st : bfs_state) : option bfs_state :=
  match queue st with
  | [] => Some st
  | e :: rest =>
      match fuel with
      | O => None
      | S fuel => bfs_loop nodeMap adjacencyList fuel (bfs_step nodeMap adjacencyList e rest st)
      end
  end.

Definition out_degree (adjacencyList : gmap string (list string)) (node_id : string)
    : nat :=
  length (default [] (adjacencyList !! node_id)).

(** What is left to do: the entries still queued, and for every node id not
    yet visited one round plus one entry per child. *)
Definition remaining (nodeMap : gmap string loc)
    (adjacencyList : gmap string (list string)) (st : bfs_state) : nat :=
  (length (queue st)
   + sum_list_with (fun i => S (out_degree adjacencyList i))
                   (elements (dom nodeMap ∖ visited st)))%nat.

Definition tree_start (this : CustomLayoutEngine) (h : heap) : bfs_state :=
  let nodes := this_nodes this in
  let rootNodes := find_roots h nodes (this_edges this) in
  mkBfs (forEach rootNodes (push_root this rootNodes) []) ∅ h [].

(** The final state of the loop of [treeLayout]; the bound is the number of
    rounds the loop can take from its first state, so it is never reached
    ([treeLayout_returns] below). *)
Definition treeLayout_run (this : CustomLayoutEngine) (h : heap) : option bfs_state :=
  let nodes := this_nodes this in
  let nodeMap := build_nodeMap h nodes in
  let adjacencyList := build_adjacency h nodes (this_edges this) in
  let start := tree_start this h in
  bfs_loop nodeMap adjacencyList (remaining nodeMap adjacencyList start) start.

Definition treeLayout (this : CustomLayoutEngine) (h : heap)
    : option (list loc * heap) :=
  match treeLayout_run this h with
  | Some st => Some (this_nodes this, mem st)
  | None => None
  end.

(** *** Dispatch *)

Definition layout (this : CustomLayoutEngine) (h : heap) : option (list loc * heap) :=
  match r_algorithm (this_options this) with
  | Force => Some (forceDirectedLayout this h)
  | Circular => Some (circularLayout this h)
  | Tree => treeLayout this h
  | Grid => Some (gridLayout this h)
  | Organic => Some (organicLayout this h)
  end.

(** [applyCustomLayout]: the algorithm follows the diagram type unless
    [options] names one ([None] is an [options] without the key). *)
Definition applyCustomLayout (nodes : list loc) (edges : list DiagramEdge)
    (config : LayoutConfig) (options : CustomLayoutOptions) (h : heap)
    : option (list loc * heap) :=
  let by_type :=
    if String.eqb (ltype config) "flowchart" then Force
    else if String.eqb (ltype config) "org-chart" then Tree
    else if String.eqb (ltype config) "mind-map" then Organic
    else Force in
  let layoutEngine :=
    new_CustomLayoutEngine nodes edges
      (mkOptions
         (Some (match algorithm options with Some a => a | None => by_type end))
         (iterations options) (repulsion options) (attraction options)
         (damping options) (centerX options) (centerY options)) in
  layout layoutEngine h.

End WithRandom.
End CustomLayout.

(** ** The auto-layout manager ([layouts/AutoLayout])

    The manager keeps its options, at most one pending timer and the list of
    subscribed callbacks.  Time is not modelled: a pending [setTimeout] is
    the data its closure holds (and its delay), and its firing is an event.
    Callbacks are functions of the caller: they are known by their identity
    only, every call of one is recorded, and they are taken not to call back
    into the manager.  The diagram the manager is given holds the caller's
    node objects, which [applyCustomLayout] moves in the heap. *)

Module AutoLayout.

Inductive ChangeType := NodeAdd | NodeRemove | NodeResize | EdgeAdd | EdgeRemove.

Record AutoLayoutOptions := mkAutoOptions {
  triggerOnNodeAdd : option bool;
  triggerOnNodeRemove : option bool;
  triggerOnNodeResize : option bool;
  triggerOnEdgeAdd : option bool;
  triggerOnEdgeRemove : option bool;
  debounceMs : option number;
  enabled : option bool
}.

(** [Required<AutoLayoutOptions>] *)
Record RequiredAutoOptions := mkAutoRequired {
  o_triggerOnNodeAdd : bool;
  o_triggerOnNodeRemove : bool;
  o_triggerOnNodeResize : bool;
  o_triggerOnEdgeAdd : bool;
  o_triggerOnEdgeRemove : bool;
  o_debounceMs : number;
  o_enabled : bool
}.

Record Diagram := mkDiagram {
  d_nodes : list loc;
  d_edges : list DiagramEdge;
  d_layout : LayoutConfig;
  d_metadata : string;
  d_updatedAt : number
}.

Definition callback := nat.

Record Timer := mkTimer {
  t_data : Diagram;
  t_delay : number
}.

Record AutoLayoutManager := mkManager {
  options : RequiredAutoOptions;
  debounceTimer : option Timer;
  listeners : list callback
}.

(** [v ?? d] *)
Definition nullish {A : Type} (v : option A) (d : A) : A :=
  match v with Some x => x | None => d end.

Definition new_AutoLayoutManager (o : AutoLayoutOptions) : AutoLayoutManager :=
  mkManager
    (mkAutoRequired
       (nullish (triggerOnNodeAdd o) true)
       (nullish (triggerOnNodeRemove o) true)
       (nullish (triggerOnNodeResize o) false)
       (nullish (triggerOnEdgeAdd o) true)
       (nullish (triggerOnEdgeRemove o) true)
       (nullish (debounceMs o) 300)
       (nullish (enabled o) true))
    None [].

(** [subscribe] pushes the callback; the function it returns is
    [unsubscribe this callback]. *)
Definition subscribe (this : AutoLayoutManager) (cb : callback) : AutoLayoutManager :=
  mkManager (options this) (debounceTimer this) (listeners this ++ [cb])%list.

Fixpoint indexOf (l : list callback) (cb : callback) : option nat :=
  match l with
  | [] => None
  | x :: rest =>
      if Nat.eqb x cb then Some 0%nat
      else match indexOf rest cb with
           | Some i => Some (S i)
           | None => None
           end
  end.

(** [splice(index, 1)] *)
Definition unsubscribe (this : AutoLayoutManager) (cb : callback) : AutoLayoutManager :=
  match indexOf (listeners this) cb with
  | Some index =>
      mkManager (options this) (debounceTimer this) (delete index (listeners this))
  | None => this
  end.

Definition shouldTrigger (this : AutoLayoutManager) (changeType : ChangeType) : bool :=
  if negb (o_enabled (options this)) then false
  else match changeType with
       | NodeAdd => o_triggerOnNodeAdd (options this)
       | NodeRemove => o_triggerOnNodeRemove (options this)
       | NodeResize => o_triggerOnNodeResize (options this)
       | EdgeAdd => o_triggerOnEdgeAdd (options this)
       | EdgeRemove => o_triggerOnEdgeRemove (options this)
       end.

(** The pending timer, if any, is cleared and a new one is set. *)
Definition triggerAutoLayout (this : AutoLayoutManager) (data : Diagram)
    (changeType : ChangeType) : AutoLayoutManager :=
  if negb (shouldTrigger this changeType) then this
  else mkManager (options this)
         (Some (mkTimer data (o_debounceMs (options this))))
         (listeners this).

Definition setEnabled (this : AutoLayoutManager) (enabled : bool) : AutoLayoutManager :=
  mkManager
    (mkAutoRequired
       (o_triggerOnNodeAdd (options this)) (o_triggerOnNodeRemove (options this))
       (o_triggerOnNodeResize (options this)) (o_triggerOnEdgeAdd (options this))
       (o_triggerOnEdgeRemove (options this)) (o_debounceMs (options this)) enabled)
    (debounceTimer this) (listeners this).

Definition destroy (this : AutoLayoutManager) : AutoLayoutManager :=
  mkManager (options this) None [].

(** The layout configuration handed to [applyCustomLayout]. *)
Definition config_for (layout : LayoutConfig) : LayoutConfig :=
  if String.eqb (ltype layout) "flowchart" then layout
  else if String.eqb (ltype layout) "org-chart" then layout
  else if String.eqb (ltype layout) "mind-map" then layout
  else mkConfig "flowchart" (direction layout) (spacing layout) (alignment layout).

(** The manager, the heap of node objects, and the calls of callbacks made so
    far (oldest first). *)
Record World := mkWorld {
  manager : AutoLayoutManager;
  objects : heap;
  calls : list (callback * Diagram)
}.

Section WithEnvironment.
(** [random k] is the k-th value of [Math.random()] during the call, [now]
    the value of [new Date()]. *)
Variable random : nat -> number.
Variable now : number.

Definition applyLayout (data : Diagram) (h : heap) : option (Diagram * heap) :=
  match CustomLayout.applyCustomLayout random (d_nodes data) (d_edges data)
          (config_for (d_layout data)) no_options h with
  | Some (positionedNodes, h') =>
      Some (mkDiagram positionedNodes (d_edges data) (d_layout data)
                      (d_metadata data) now, h')
  | None => None
  end.

(** Every listener is called with the data, in subscription order; what a
    listener throws is caught. *)
Definition notifyListeners (this : AutoLayoutManager) (data : Diagram)
    (log : list (callback * Diagram)) : list (callback * Diagram) :=
  (log ++ map (fun cb => (cb, data)) (listeners this))%list.

(** The pending timer fires (nothing happens when none is pending). *)
Definition timer_fires (w : World) : option World :=
  match debounceTimer (manager w) with
  | None => Some w
  | Some timer =>
      match applyLayout (t_data timer) (objects w) with
      | Some (newData, h') =>
          Some (mkWorld
                  (mkManager (options (manager w)) None (listeners (manager w)))
                  h'
                  (notifyListeners (manager w) newData (calls w)))
      | None => None
      end
  end.

Definition forceLayout (data : Diagram) (w : World) : option (Diagram * World) :=
  let this := mkManager (options (manager w)) None (listeners (manager w)) in
  match applyLayout data (objects w) with
  | Some (newData, h') =>
      Some (newData, mkWorld this h' (notifyListeners this newData (calls w)))
  | None => None
  end.

End WithEnvironment.
End AutoLayout.

(** ** Vocabulary of the properties *)






(** Everything of a node but its position. *)
Definition same_but_position (n n' : DiagramNode) : Prop :=
  id n' = id n /\ ntype n' = ntype n /\ size n' = size n /\ label n' = label n.

(** Sample data for the examples. *)
Definition sample_config : LayoutConfig :=
  mkConfig "flowchart" "top-bottom" (mkSpacing 50 50 50) None.

Definition node_A : DiagramNode :=
  mkNode "A" "rectangle" (mkPosition 0 0) (mkSize 100 50) "a".
Definition node_B : DiagramNode :=
  mkNode "B" "rectangle" (mkPosition 10 20) (mkSize 100 50) "b".

Definition sample_data : SmartDiagramData :=
  mkData [node_A; node_B] [mkEdge "e1" "A" "B"] sample_config "sample".

Definition dagre_always_throws : DagreGraph -> DagreOutcome := fun _ => DagreThrows.
Definition elk_always_rejects : ElkGraph -> ElkOutcome := fun _ => ElkRejects.

(** Two heaps that differ at most in the positions of their nodes. *)
Definition heap_same_but_positions (h h' : heap) : Prop :=
  forall r, same_but_position (h r) (h' r).

(** The body of the loops that assign both coordinates from the index. *)
Definition place_at (X Y : nat -> number) (node : loc) (index : nat) (h : heap) : heap :=
  set_y (set_x h node (X index)) node (Y index).

(** A heap for the examples: object 0 is node A, every other one node B. *)
Definition sample_heap : heap :=
  fun r => match r with O => node_A | _ => node_B end.

Definition sample_required (a : Algorithm) : RequiredOptions :=
  mkRequired a 100 1000 (1 / 10) (9 / 10) 400 300.

(** An edge one of whose ends is the id of no node of the list. *)
Definition dangling (h : heap) (nodes : list loc) (edge : DiagramEdge) : Prop :=
  (forall r, r ∈ nodes -> id (h r) <> source edge) \/
  (forall r, r ∈ nodes -> id (h r) <> target edge).

(** The node ids the tree traversal can reach: the id of a root, and the
    target of an edge that leaves a reachable id and names a node. *)
Inductive tree_reachable (h : heap) (nodes : list loc) (edges : list DiagramEdge)
  : string -> Prop :=
  | reach_root r :
      r ∈ CustomLayout.find_roots h nodes edges ->
      tree_reachable h nodes edges (id (h r))
  | reach_child edge r :
      tree_reachable h nodes edges (source edge) ->
      edge ∈ edges -> r ∈ nodes -> id (h r) = target edge ->
      tree_reachable h nodes edges (target edge).

(** What holds of the state of the [while] loop of [treeLayout] at the head
    of every round, for the heap [h], nodes and edges it started from. *)
Record bfs_invariant (h : heap) (nodes : list loc) (edges : list DiagramEdge)
    (st : CustomLayout.bfs_state) : Prop := mkInvariant {
  inv_heap : heap_same_but_positions h (CustomLayout.mem st);
  inv_queue_nodes :
    forall e, e ∈ CustomLayout.queue st -> CustomLayout.q_node e ∈ nodes;
  inv_frame :
    forall r, id (h r) ∉ CustomLayout.visited st -> CustomLayout.mem st r = h r;
  inv_visited_reachable :
    forall i, i ∈ CustomLayout.visited st -> tree_reachable h nodes edges i;
  inv_queue_reachable :
    forall e, e ∈ CustomLayout.queue st ->
      tree_reachable h nodes edges (id (h (CustomLayout.q_node e)));
  inv_roots :
    forall r, r ∈ CustomLayout.find_roots h nodes edges ->
      id (h r) ∈ CustomLayout.visited st \/
      exists e, e ∈ CustomLayout.queue st /\ id (h (CustomLayout.q_node e)) = id (h r);
  inv_children :
    forall edge r,
      source edge ∈ CustomLayout.visited st -> edge ∈ edges ->
      r ∈ nodes -> id (h r) = target edge ->
      target edge ∈ CustomLayout.visited st \/
      exists e, e ∈ CustomLayout.queue st /\
                id (h (CustomLayout.q_node e)) = target edge;
  inv_placed :
    forall r p, (r, p) ∈ CustomLayout.placed st ->
      r ∈ nodes /\ id (h r) ∈ CustomLayout.visited st /\
      position (CustomLayout.mem st r) = p;
  inv_visited_placed :
    forall i, i ∈ CustomLayout.visited st ->
      exists r p, (r, p) ∈ CustomLayout.placed st /\ id (h r) = i
}.

(** No edge of the list points at the node. *)
Definition no_incoming (h : heap) (edges : list DiagramEdge) (r : loc) : Prop :=
  forall edge, edge ∈ edges -> target edge <> id (h r).

(** Engines over the two sample objects for the examples. *)
Definition tree_engine (edges : list DiagramEdge) : CustomLayoutEngine :=
  mkEngine [0%nat; 1%nat] edges (sample_required Tree).

Definition ghost_edge : DiagramEdge := mkEdge "e" "ghost" "B".

(** A random source for the examples: every draw is 1/2 (no jitter). *)
Definition no_jitter : nat -> number := fun _ => 1 / 2.

(** ** Vocabulary of the further properties *)

(** The ELK direction that names the same flow as a dagre [rankdir]. *)
Definition elk_of_rankdir (rankdir : string) : string :=
  if String.eqb rankdir "TB" then "DOWN"
  else if String.eqb rankdir "BT" then "UP"
  else if String.eqb rankdir "LR" then "RIGHT"
  else if String.eqb rankdir "RL" then "LEFT"
  else rankdir.

(** The left, top, right and bottom edge of a node's extent. *)
Definition node_left (n : DiagramNode) : number := px (position n).
Definition node_top (n : DiagramNode) : number := py (position n).
Definition node_right (n : DiagramNode) : number := px (position n) + width (size n).
Definition node_bottom (n : DiagramNode) : number := py (position n) + height (size n).

(** A position inside the safety bound of the force layout. *)
Definition in_force_bounds (p : Position) : Prop :=
  -1000 <= px p <= 2000 /\ -1000 <= py p <= 2000.

(** The sums of the x and of the y components of an array of forces. *)
Definition total_x (forces : list Position) : number :=
  fold_right (fun f acc => px f + acc) 0 forces.
Definition total_y (forces : list Position) : number :=
  fold_right (fun f acc => py f + acc) 0 forces.

(** The forces a round of the force-directed layout has accumulated when it
    starts to move the nodes. *)
Definition accumulated_forces (this : CustomLayoutEngine) (h : heap) (nodes : list loc)
    : list Position :=
  fold_left (CustomLayout.attract this h nodes) (this_edges this)
    (fold_left (CustomLayout.repel this h nodes) (CustomLayout.pairs (length nodes))
       (map (fun _ => mkPosition 0 0) nodes)).

(** The sums of the x and of the y coordinates of the listed nodes. *)
Definition sum_x (h : heap) (nodes : list loc) : number :=
  fold_right (fun node acc => px (position (h node)) + acc) 0 nodes.
Definition sum_y (h : heap) (nodes : list loc) : number :=
  fold_right (fun node acc => py (position (h node)) + acc) 0 nodes.

(** No coordinate would leave the safety bound in this round. *)
Definition no_clamping (this : CustomLayoutEngine) (h : heap) (nodes : list loc) : Prop :=
  forall k node force,
    nodes !! k = Some node -> accumulated_forces this h nodes !! k = Some force ->
    -1000 <= px (position (h node)) + px force * r_damping (this_options this) <= 2000 /\
    -1000 <= py (position (h node)) + py force * r_damping (this_options this) <= 2000.

(** The edges that leave a node, in edge order: its child slots in the tree
    layout. *)
Definition out_edges (h : heap) (edges : list DiagramEdge) (parent : loc)
    : list DiagramEdge :=
  filter (fun e => source e = id (h parent)) edges.

(** The slot of the root with the given index among [count] roots, and the
    slot with the given index among the [count] child slots under a parent
    placed at [parent_pos]. *)
Definition root_slot (this : CustomLayoutEngine) (count index : nat) : Position :=
  mkPosition (r_centerX (this_options this) + (INR index - INR count / 2) * 200)
             (r_centerY (this_options this) - 200).

Definition child_slot (parent_pos : Position) (count index : nat) : Position :=
  mkPosition (px parent_pos - (INR count - 1) * 150 / 2 + INR index * 150)
             (py parent_pos + 100).

(** Where the position [p] offered to [node] comes from: the slot of a root,
    or a child slot under a node already placed. *)
Definition tree_origin (this : CustomLayoutEngine) (h : heap)
    (placed : list (loc * Position)) (node : loc) (p : Position) : Prop :=
  let roots := CustomLayout.find_roots h (this_nodes this) (this_edges this) in
  (exists index, roots !! index = Some node /\ p = root_slot this (length roots) index) \/
  (exists parent pp index edge,
     (parent, pp) ∈ placed /\
     out_edges h (this_edges this) parent !! index = Some edge /\
     target edge = id (h node) /\
     p = child_slot pp (length (out_edges h (this_edges this) parent)) index).

(** What the loop of [treeLayout] keeps about the positions it hands out. *)
Record tree_shape (this : CustomLayoutEngine) (h : heap) (st : CustomLayout.bfs_state)
  : Prop := mkShape {
  shape_queue :
    forall e, e ∈ CustomLayout.queue st ->
      tree_origin this h (CustomLayout.placed st) (CustomLayout.q_node e)
        (mkPosition (CustomLayout.q_x e) (CustomLayout.q_y e));
  shape_placed :
    forall r p, (r, p) ∈ CustomLayout.placed st ->
      tree_origin this h (CustomLayout.placed st) r p;
  shape_untouched :
    forall r, CustomLayout.mem st r = h r \/ exists p, (r, p) ∈ CustomLayout.placed st;
  shape_first :
    (CustomLayout.placed st = [] /\
     CustomLayout.queue st = CustomLayout.queue (CustomLayout.tree_start this h)) \/
    (exists e0 rest0 tl,
       CustomLayout.queue (CustomLayout.tree_start this h) = e0 :: rest0 /\
       CustomLayout.placed st
       = (CustomLayout.q_node e0,
          mkPosition (CustomLayout.q_x e0) (CustomLayout.q_y e0)) :: tl)
}.

(** The node sits in the slot of a root, or in a child slot under a node of
    the list that has an edge to it, in the heap [h'] the layout returns. *)
Definition in_tree_slot (this : CustomLayoutEngine) (h h' : heap) (r : loc) : Prop :=
  let roots := CustomLayout.find_roots h (this_nodes this) (this_edges this) in
  (exists index,
     roots !! index = Some r /\ position (h' r) = root_slot this (length roots) index) \/
  (exists parent index edge,
     parent ∈ this_nodes this /\
     out_edges h (this_edges this) parent !! index = Some edge /\
     target edge = id (h r) /\
     position (h' r)
     = child_slot (position (h' parent))
         (length (out_edges h (this_edges this) parent)) index).

(** A run of [triggerAutoLayout] calls with no timer firing in between, and
    the calls of the run that pass [shouldTrigger]. *)
Definition run_triggers (this : AutoLayout.AutoLayoutManager)
    (events : list (AutoLayout.Diagram * AutoLayout.ChangeType))
    : AutoLayout.AutoLayoutManager :=
  fold_left (fun m c => AutoLayout.triggerAutoLayout m (fst c) (snd c)) events this.

Definition triggering (this : AutoLayout.AutoLayoutManager)
    (events : list (AutoLayout.Diagram * AutoLayout.ChangeType))
    : list (AutoLayout.Diagram * AutoLayout.ChangeType) :=
  filter (fun c => AutoLayout.shouldTrigger this (snd c) = true) events.

(** The algorithm the manager uses for a diagram type. *)
Definition algorithm_for (type : string) : Algorithm :=
  if String.eqb type "org-chart" then Tree
  else if String.eqb type "mind-map" then Organic
  else Force.

(** How often a callback is subscribed. *)
Definition subscriptions (cb : AutoLayout.callback) (l : list AutoLayout.callback) : nat :=
  length (filter (fun x => x = cb) l).

Definition sample_diagram : AutoLayout.Diagram :=
  AutoLayout.mkDiagram [0%nat; 1%nat] [mkEdge "e1" "A" "B"] sample_config "sample" 0.

(** ** PerformanceUtils: the two pure functions on diagrams and lists *)

Module PerformanceUtils.

Record Viewport := mkViewport {
  v_width : number;
  v_height : number;
  v_zoom : number;
  v_offset : Position
}.

(** The predicate of [nodes.filter]: the extent of the node meets the
    visible area. *)
Definition in_viewport (viewport : Viewport) (node : DiagramNode) : bool :=
  let left := (- px (v_offset viewport)) / v_zoom viewport in
  let right := (- px (v_offset viewport) + v_width viewport) / v_zoom viewport in
  let top := (- py (v_offset viewport)) / v_zoom viewport in
  let bottom := (- py (v_offset viewport) + v_height viewport) / v_zoom viewport in
  let nodeRight := px (position node) + width (size node) in
  let nodeBottom := py (position node) + height (size node) in
  GeometryUtils.leb left nodeRight &&
  GeometryUtils.leb (px (position node)) right &&
  GeometryUtils.leb top nodeBottom &&
  GeometryUtils.leb (py (position node)) bottom.

Definition optimizeDiagramRendering (nodes : list DiagramNode) (edges : list DiagramEdge)
    (viewport : Viewport) : list DiagramNode * list DiagramEdge :=
  let visibleNodes := List.filter (in_viewport viewport) nodes in
  let visibleNodeIds : gset string := list_to_set (map id visibleNodes) in
  let visibleEdges :=
    List.filter
      (fun edge => bool_decide (source edge ∈ visibleNodeIds) &&
                   bool_decide (target edge ∈ visibleNodeIds))
      edges in
  (visibleNodes, visibleEdges).

(** [Array.prototype.slice] with its relative indices. *)
Definition relative_index (len i : Z) : Z :=
  if (i <? 0)%Z then Z.max (len + i) 0 else Z.min i len.

Definition slice {T : Type} (items : list T) (start final : Z) : list T :=
  let len := Z.of_nat (length items) in
  let k := relative_index len start in
  take (Z.to_nat (relative_index len final - k)) (drop (Z.to_nat k) items).

Record VirtualList (T : Type) := mkVirtualList {
  visibleItems : list T;
  startIndex : Z;
  endIndex : Z;
  offsetY : number
}.
Arguments mkVirtualList {T}.
Arguments visibleItems {T}.
Arguments startIndex {T}.
Arguments endIndex {T}.
Arguments offsetY {T}.

(** [overscan] is a whole number of items (5 when the argument is left
    out). *)
Definition createVirtualList {T : Type} (items : list T)
    (containerHeight itemHeight : number) (overscan : Z) : VirtualList T :=
  let visibleCount := Math_ceil (containerHeight / itemHeight) in
  let startIndex := Z.max 0 (Math_floor ((- 0) / itemHeight) - overscan) in
  let endIndex :=
    Z.min (Z.of_nat (length items) - 1) (startIndex + visibleCount + overscan * 2) in
  mkVirtualList (slice items startIndex (endIndex + 1)) startIndex endIndex
                (IZR startIndex * itemHeight).

End PerformanceUtils.

(** The extent of the node, drawn at the zoom and offset of the viewport,
    meets the window [0, width] x [0, height]. *)
Definition on_screen (viewport : PerformanceUtils.Viewport) (node : DiagramNode) : Prop :=
  let zoom := PerformanceUtils.v_zoom viewport in
  let offset := PerformanceUtils.v_offset viewport in
  0 <= node_right node * zoom + px offset /\
  node_left node * zoom + px offset <= PerformanceUtils.v_width viewport /\
  0 <= node_bottom node * zoom + py offset /\
  node_top node * zoom + py offset <= PerformanceUtils.v_height viewport.

(** * Properties *)

(** C9: the segment-intersection primitive returns no intersection whenever
    the determinant of the two segments has absolute value below 1e-10 (in
    particular whenever they are parallel, determinant 0), and for the
    segments (0,0)-(10,10) and (0,10)-(10,0) it returns exactly (5,5). *)
Theorem getLineIntersection_parallel_and_crossing :
  (forall a1 a2 b1 b2 : Position,
      Rabs (GeometryUtils.denom a1 a2 b1 b2) < 1e-10 ->
      GeometryUtils.getLineIntersection a1 a2 b1 b2 = None) /\
  (forall a1 a2 b1 b2 : Position,
      GeometryUtils.denom a1 a2 b1 b2 = 0 ->
      GeometryUtils.getLineIntersection a1 a2 b1 b2 = None) /\
  GeometryUtils.getLineIntersection
    (mkPosition 0 0) (mkPosition 10 10) (mkPosition 0 10) (mkPosition 10 0)
  = Some (mkPosition 5 5).
Proof.
  assert (Hpar : forall a1 a2 b1 b2 : Position,
             Rabs (GeometryUtils.denom a1 a2 b1 b2) < 1e-10 ->
             GeometryUtils.getLineIntersection a1 a2 b1 b2 = None).
  { intros a1 a2 b1 b2 H.
    unfold GeometryUtils.getLineIntersection, GeometryUtils.denom in *.
    cbv zeta. destruct (Rlt_dec _ _) as [_|Hn]; [reflexivity | contradiction]. }
  split; [exact Hpar|]. split.
  - intros a1 a2 b1 b2 H. apply Hpar. rewrite H, Rabs_R0. lra.
  - unfold GeometryUtils.getLineIntersection. cbn [px py].
    destruct (Rlt_dec _ _) as [Hlt|_].
    { exfalso. revert Hlt.
      replace ((0 - 10) * (10 - 0) - (0 - 10) * (0 - 10)) with (-200) by lra.
      rewrite Rabs_left by lra. lra. }
    replace (((0 - 0) * (10 - 0) - (0 - 10) * (0 - 10)) /
             ((0 - 10) * (10 - 0) - (0 - 10) * (0 - 10))) with (1 / 2) by lra.
    replace (- ((0 - 10) * (0 - 10) - (0 - 10) * (0 - 0)) /
             ((0 - 10) * (10 - 0) - (0 - 10) * (0 - 10))) with (1 / 2) by lra.
    repeat (destruct (Rle_dec _ _); [| exfalso; lra]).
    f_equal. f_equal; lra.
Qed.

(** Witness for C9: two horizontal and two vertical non-overlapping segments. *)
Lemma getLineIntersection_parallel_witness :
  GeometryUtils.getLineIntersection
    (mkPosition 0 0) (mkPosition 10 0) (mkPosition 0 5) (mkPosition 10 5) = None /\
  GeometryUtils.getLineIntersection
    (mkPosition 0 0) (mkPosition 0 10) (mkPosition 5 0) (mkPosition 5 10) = None.
Proof.
  destruct getLineIntersection_parallel_and_crossing as (Hsmall & Hzero & _).
  split.
  - apply Hsmall. unfold GeometryUtils.denom. cbn [px py].
    replace ((0 - 10) * (5 - 5) - (0 - 0) * (0 - 10)) with 0 by lra.
    rewrite Rabs_R0. lra.
  - apply Hzero. unfold GeometryUtils.denom. cbn [px py]. lra.
Defined.


(** ** The bounding-box scan *)








(** ** The engines keep everything but positions *)

Section ManagerFacts.
Variable dagre_layout : DagreGraph -> DagreOutcome.
Variable elk_layout : ElkGraph -> ElkOutcome.

Lemma dagre_place_same g n : same_but_position n (DagreLayoutEngine.place g n).
Proof.
  unfold DagreLayoutEngine.place, same_but_position.
  destruct (g (id n)); cbn; auto.
Qed.

Lemma elk_place_same cs n : same_but_position n (ElkJSLayoutEngine.place cs n).
Proof.
  unfold ElkJSLayoutEngine.place, same_but_position.
  destruct (ElkJSLayoutEngine.find_child cs (id n)) as [c|]; [|auto].
  destruct (ln_x c), (ln_y c); cbn; auto.
Qed.

Lemma center_same b n : same_but_position n (LayoutManager.center b n).
Proof. unfold same_but_position; cbn; auto. Qed.

Lemma same_but_position_refl n : same_but_position n n.
Proof. unfold same_but_position; auto. Qed.

Lemma same_but_position_trans n1 n2 n3 :
  same_but_position n1 n2 -> same_but_position n2 n3 -> same_but_position n1 n3.
Proof. unfold same_but_position; intuition congruence. Qed.

Lemma Forall2_map_same (f : DiagramNode -> DiagramNode) l :
  (forall n, same_but_position n (f n)) -> Forall2 same_but_position l (map f l).
Proof. intros Hf. induction l; cbn; constructor; auto. Qed.

Lemma Forall2_same_refl l : Forall2 same_but_position l l.
Proof. induction l; constructor; auto using same_but_position_refl. Qed.

Lemma dagre_layout_same ns es cfg l :
  DagreLayoutEngine.layout dagre_layout ns es cfg = Ok l ->
  Forall2 same_but_position ns l.
Proof.
  unfold DagreLayoutEngine.layout.
  destruct (dagre_layout _); [discriminate|].
  intros [= <-]. apply Forall2_map_same, dagre_place_same.
Qed.

Lemma elk_layout_same ns es cfg l :
  ElkJSLayoutEngine.layout elk_layout ns es cfg = Ok l ->
  Forall2 same_but_position ns l.
Proof.
  unfold ElkJSLayoutEngine.layout.
  destruct (elk_layout _); intros [= <-].
  - apply Forall2_same_refl.
  - apply Forall2_map_same, elk_place_same.
Qed.


(** What [applyLayout] returns when it lays out: the engine's nodes, each
    shifted by the offset of their bounds. *)
Lemma applyLayout_inv data engine out :
  engine <> "none" -> nodes data <> [] ->
  LayoutManager.applyLayout dagre_layout elk_layout data engine = Ok out ->
  exists layouted,
    Forall2 same_but_position (nodes data) layouted /\
    out = mkData (map (LayoutManager.center (bounds_of layouted)) layouted)
                 (edges data) (layout data) (metadata data).
Proof.
  intros Hne Hnodes. unfold LayoutManager.applyLayout.
  destruct (String.eqb_spec engine "none") as [|_]; [contradiction|].
  destruct (nodes data) as [|n0 ns] eqn:En; [contradiction|].
  cbn [length Nat.eqb orb].
  destruct (String.eqb engine "dagre") eqn:Ed.
  - destruct (DagreLayoutEngine.layout _ _ _ _) as [l|] eqn:El; [|discriminate].
    intros [= <-]. exists l. split; [|reflexivity].
    eapply dagre_layout_same; eauto.
  - destruct (String.eqb engine "elkjs") eqn:Ee.
    + destruct (ElkJSLayoutEngine.layout _ _ _ _) as [l|] eqn:El; [|discriminate].
      intros [= <-]. exists l. split; [|reflexivity].
      eapply elk_layout_same; eauto.
    + intros [= <-]. exists (n0 :: ns). split; [apply Forall2_same_refl | reflexivity].
Qed.


End ManagerFacts.

(** The guard at the top of [applyLayout]. *)
Lemma applyLayout_skips dagre_layout elk_layout (data : SmartDiagramData) engine :
  engine = "none" \/ nodes data = [] ->
  LayoutManager.applyLayout dagre_layout elk_layout data engine = Ok data.
Proof.
  intros H. unfold LayoutManager.applyLayout.
  destruct H as [-> | ->]; cbn.
  - reflexivity.
  - now rewrite orb_true_r.
Qed.

(** C6: [applyLayout] returns its argument itself when the engine is 'none'
    or the node list is empty: no repositioning, no centering, same
    metadata. *)
Theorem applyLayout_identity_on_none_or_empty :
  forall dagre_layout elk_layout (data : SmartDiagramData) (engine : string),
    engine = "none" \/ nodes data = [] ->
    LayoutManager.applyLayout dagre_layout elk_layout data engine = Ok data.
Proof.
  intros dagre_layout elk_layout data engine H. now apply applyLayout_skips.
Qed.

(** Witness for C6: the sample diagram with engine 'none'. *)
Lemma applyLayout_identity_witness :
  LayoutManager.applyLayout dagre_always_throws elk_always_rejects sample_data "none"
  = Ok sample_data.
Proof.
  apply applyLayout_identity_on_none_or_empty. left. reflexivity.
Defined.



(** A failing solver: ELK's [catch] returns the input, dagre's call is bare. *)
Lemma elk_layout_fails_open elk_layout ns es cfg :
  elk_layout (ElkJSLayoutEngine.build_graph ns es cfg) = ElkRejects ->
  ElkJSLayoutEngine.layout elk_layout ns es cfg = Ok ns.
Proof. unfold ElkJSLayoutEngine.layout. now intros ->. Qed.

Lemma dagre_layout_propagates dagre_layout ns es cfg :
  dagre_layout (DagreLayoutEngine.build_graph ns es cfg) = DagreThrows ->
  DagreLayoutEngine.layout dagre_layout ns es cfg = Throw.
Proof. unfold DagreLayoutEngine.layout. now intros ->. Qed.

Lemma applyLayout_dagre_propagates dagre_layout elk_layout data :
  nodes data <> [] ->
  dagre_layout (DagreLayoutEngine.build_graph (nodes data) (edges data) (layout data))
    = DagreThrows ->
  LayoutManager.applyLayout dagre_layout elk_layout data "dagre" = Throw.
Proof.
  intros Hne Hthrow. unfold LayoutManager.applyLayout.
  rewrite (dagre_layout_propagates _ _ _ _ Hthrow).
  destruct (nodes data); [contradiction | reflexivity].
Qed.

(** C3 (dagre half fails): when the solver throws, the ELK engine returns the
    input nodes themselves, while the dagre engine, which has no [try],
    throws. *)
Theorem solver_failure_elk_returns_input_dagre_throws :
  forall (nodes : list DiagramNode) (edges : list DiagramEdge) (config : LayoutConfig)
         (first : DiagramNode) (metadata : string),
    ElkJSLayoutEngine.layout elk_always_rejects nodes edges config = Ok nodes /\
    DagreLayoutEngine.layout dagre_always_throws nodes edges config = Throw /\
    LayoutManager.applyLayout dagre_always_throws elk_always_rejects
      (mkData (first :: nodes) edges config metadata) "dagre" = Throw.
Proof.
  intros ns es cfg first md. split; [|split].
  - now apply elk_layout_fails_open.
  - now apply dagre_layout_propagates.
  - now apply applyLayout_dagre_propagates.
Qed.

(** ** Heaps and [forEach] *)

Lemma set_x_same h node v :
  set_x h node v node =
  mkNode (id (h node)) (ntype (h node)) (mkPosition v (py (position (h node))))
         (size (h node)) (label (h node)).
Proof. unfold set_x. now rewrite Nat.eqb_refl. Qed.

Lemma set_y_same h node v :
  set_y h node v node =
  mkNode (id (h node)) (ntype (h node)) (mkPosition (px (position (h node))) v)
         (size (h node)) (label (h node)).
Proof. unfold set_y. now rewrite Nat.eqb_refl. Qed.

Lemma set_x_other h node v r : r <> node -> set_x h node v r = h r.
Proof. intros H. unfold set_x. apply Nat.eqb_neq in H. now rewrite H. Qed.

Lemma set_y_other h node v r : r <> node -> set_y h node v r = h r.
Proof. intros H. unfold set_y. apply Nat.eqb_neq in H. now rewrite H. Qed.

Lemma set_x_keeps h node v r : same_but_position (h r) (set_x h node v r).
Proof. unfold set_x, same_but_position. destruct (Nat.eqb r node); cbn; auto. Qed.

Lemma set_y_keeps h node v r : same_but_position (h r) (set_y h node v r).
Proof. unfold set_y, same_but_position. destruct (Nat.eqb r node); cbn; auto. Qed.

Lemma heap_same_refl h : heap_same_but_positions h h.
Proof. intros r. apply same_but_position_refl. Qed.

Lemma heap_same_trans h1 h2 h3 :
  heap_same_but_positions h1 h2 -> heap_same_but_positions h2 h3 ->
  heap_same_but_positions h1 h3.
Proof. intros H1 H2 r. eapply same_but_position_trans; eauto. Qed.

Lemma heap_same_set_x h0 h node v :
  heap_same_but_positions h0 h -> heap_same_but_positions h0 (set_x h node v).
Proof.
  intros H r. eapply same_but_position_trans; [apply H | apply set_x_keeps].
Qed.

Lemma heap_same_set_y h0 h node v :
  heap_same_but_positions h0 h -> heap_same_but_positions h0 (set_y h node v).
Proof.
  intros H r. eapply same_but_position_trans; [apply H | apply set_y_keeps].
Qed.

Create HintDb heap.
#[local] Hint Resolve heap_same_refl heap_same_set_x heap_same_set_y : heap.

Lemma place_at_same X Y node index h :
  place_at X Y node index h node =
  mkNode (id (h node)) (ntype (h node)) (mkPosition (X index) (Y index))
         (size (h node)) (label (h node)).
Proof. unfold place_at. now rewrite set_y_same, set_x_same. Qed.

Lemma place_at_other X Y node index h r :
  r <> node -> place_at X Y node index h r = h r.
Proof. intros H. unfold place_at. now rewrite set_y_other, set_x_other. Qed.

Section ForEach.
Context {A S : Type}.

Lemma forEach_nil (body : A -> nat -> S -> S) s : forEach [] body s = s.
Proof. reflexivity. Qed.

Lemma forEach_cons a l (body : A -> nat -> S -> S) s :
  forEach (a :: l) body s = forEach l (fun a i => body a (Datatypes.S i)) (body a O s).
Proof.
  unfold forEach. cbn [length seq combine fold_left fst snd].
  rewrite <- seq_shift.
  generalize (body a O s) as s0. generalize (seq 0 (length l)) as idxs.
  induction l as [|b l IH]; intros idxs s0; destruct idxs as [|i idxs]; cbn; auto.
Qed.

(** A property kept by every round holds after the loop. *)
Lemma forEach_invariant (P : S -> Prop) l (body : A -> nat -> S -> S) s :
  (forall a i s, a ∈ l -> P s -> P (body a i s)) -> P s -> P (forEach l body s).
Proof.
  revert body s. induction l as [|a l IH]; intros body s Hb Hs.
  - exact Hs.
  - rewrite forEach_cons. apply IH.
    + intros b i s' Hin. apply Hb. now right.
    + apply Hb; [now left | exact Hs].
Qed.

Lemma forEach_ext l (body body' : A -> nat -> S -> S) s :
  (forall a i s, body a i s = body' a i s) -> forEach l body s = forEach l body' s.
Proof.
  revert body body' s. induction l as [|a l IH]; intros body body' s H.
  - reflexivity.
  - rewrite !forEach_cons, H. apply IH. intros; apply H.
Qed.
End ForEach.

(** Where a loop of [place_at] leaves the nodes. *)
Lemma forEach_place_notin X Y l : forall h r,
  r ∉ l -> forEach l (place_at X Y) h r = h r.
Proof.
  revert X Y. induction l as [|a l IH]; intros X Y h r Hr.
  - reflexivity.
  - rewrite forEach_cons.
    change (fun a0 i => place_at X Y a0 (S i))
      with (place_at (fun i => X (S i)) (fun i => Y (S i))).
    rewrite IH by (intros ?; apply Hr; now right).
    apply place_at_other. intros ->. apply Hr. now left.
Qed.

Lemma forEach_place_keeps X Y l : forall h,
  heap_same_but_positions h (forEach l (place_at X Y) h).
Proof.
  intros h. apply (forEach_invariant (heap_same_but_positions h)); auto with heap.
  intros a i s _ H. unfold place_at. auto with heap.
Qed.

Lemma forEach_place_in X Y l : forall h r,
  r ∈ l ->
  exists k, l !! k = Some r /\
            position (forEach l (place_at X Y) h r) = mkPosition (X k) (Y k).
Proof.
  revert X Y. induction l as [|a l IH]; intros X Y h r Hr.
  - inversion Hr.
  - rewrite forEach_cons.
    change (fun a0 i => place_at X Y a0 (S i))
      with (place_at (fun i => X (S i)) (fun i => Y (S i))).
    destruct (decide (r ∈ l)) as [Hin|Hnin].
    + destruct (IH (fun i => X (S i)) (fun i => Y (S i)) (place_at X Y a 0 h) r Hin)
        as (k & Hk & Hp).
      exists (S k). split; [exact Hk | exact Hp].
    + rewrite forEach_place_notin by exact Hnin.
      assert (r = a) as -> by (inversion Hr; subst; [reflexivity | contradiction]).
      exists O. split; [reflexivity|]. now rewrite place_at_same.
Qed.

Lemma forEach_place_nodup X Y l h k r :
  NoDup l -> l !! k = Some r ->
  position (forEach l (place_at X Y) h r) = mkPosition (X k) (Y k).
Proof.
  intros Hnd Hk.
  destruct (forEach_place_in X Y l h r) as (k' & Hk' & Hp).
  { apply list_elem_of_lookup. eauto. }
  assert (k' = k) as -> by (eapply NoDup_lookup; eauto).
  exact Hp.
Qed.

(** ** Circular layout *)

Section CustomEngineFacts.
Import CustomLayout.

Lemma circular_radius_nonneg n : 0 <= circular_radius n.
Proof.
  unfold circular_radius. apply Rmin_glb; [lra|].
  pose proof (pos_INR n). pose proof PI_RGT_0.
  apply Rmult_le_pos; [lra|]. apply Rlt_le, Rinv_0_lt_compat. lra.
Qed.

Lemma circular_radius_le n : circular_radius n <= 300.
Proof. apply Rmin_l. Qed.

Lemma distance_on_circle cx cy a r :
  0 <= r ->
  GeometryUtils.distance (mkPosition (cx + cos a * r) (cy + sin a * r))
                         (mkPosition cx cy) = r.
Proof.
  intros Hr. unfold GeometryUtils.distance. cbn [px py].
  replace ((cx - (cx + cos a * r)) ^ 2 + (cy - (cy + sin a * r)) ^ 2)
    with (r ^ 2 * (Rsqr (sin a) + Rsqr (cos a))) by (unfold Rsqr; ring).
  rewrite sin2_cos2, Rmult_1_r. now apply sqrt_pow2.
Qed.

Section Circular.
Variable this : CustomLayoutEngine.
Variable h : heap.

Let n := length (this_nodes this).
Let cx := r_centerX (this_options this).
Let cy := r_centerY (this_options this).
Let X := fun index => cx + cos (circular_angle index n) * circular_radius n.
Let Y := fun index => cy + sin (circular_angle index n) * circular_radius n.

Lemma circularLayout_unfold :
  CustomLayout.circularLayout this h =
  (this_nodes this, forEach (this_nodes this) (place_at X Y) h).
Proof. reflexivity. Qed.

Lemma circularLayout_keeps :
  heap_same_but_positions h (snd (CustomLayout.circularLayout this h)).
Proof. rewrite circularLayout_unfold. apply forEach_place_keeps. Qed.
End Circular.

(** The circle of the circular layout: every node of the list lies at
    distance [min(300, n*50/(2*pi))] from the engine's center; when the list
    holds n distinct node objects, the node at index k sits at angle
    [(k/n)*2*pi - pi/2]; the edges play no part; and the engine's center is
    the configured one whenever both configured coordinates are non-zero. *)
Theorem circularLayout_places_on_circle :
  forall (this : CustomLayoutEngine) (h : heap),
    let n := length (this_nodes this) in
    let cx := r_centerX (this_options this) in
    let cy := r_centerY (this_options this) in
    let h' := snd (CustomLayout.circularLayout this h) in
    fst (CustomLayout.circularLayout this h) = this_nodes this /\
    (forall r, r ∈ this_nodes this ->
       GeometryUtils.distance (position (h' r)) (mkPosition cx cy)
       = Rmin 300 (INR n * 50 / (2 * PI))) /\
    (NoDup (this_nodes this) ->
     forall k r, this_nodes this !! k = Some r ->
       position (h' r) =
       mkPosition (cx + cos (INR k / INR n * 2 * PI - PI / 2) * Rmin 300 (INR n * 50 / (2 * PI)))
                  (cy + sin (INR k / INR n * 2 * PI - PI / 2) * Rmin 300 (INR n * 50 / (2 * PI)))) /\
    (forall edges',
       CustomLayout.circularLayout
         (mkEngine (this_nodes this) edges' (this_options this)) h
       = CustomLayout.circularLayout this h) /\
    (forall nodes edges options x y,
       centerX options = Some x -> centerY options = Some y -> x <> 0 -> y <> 0 ->
       r_centerX (this_options (new_CustomLayoutEngine nodes edges options)) = x /\
       r_centerY (this_options (new_CustomLayoutEngine nodes edges options)) = y).
Proof.
  intros this h n cx cy h'. subst h'. rewrite circularLayout_unfold. cbn [fst snd].
  split; [reflexivity|]. split; [|split; [|split]].
  - intros r Hr.
    destruct (forEach_place_in
                (fun index => cx + cos (circular_angle index n) * circular_radius n)
                (fun index => cy + sin (circular_angle index n) * circular_radius n)
                (this_nodes this) h r Hr) as (k & _ & Hp).
    subst n cx cy. rewrite Hp.
    apply distance_on_circle, circular_radius_nonneg.
  - intros Hnd k r Hk.
    exact (forEach_place_nodup _ _ _ h k r Hnd Hk).
  - intros edges'. reflexivity.
  - intros nodes edges options x y Hx Hy Hx0 Hy0.
    cbn [this_options new_CustomLayoutEngine r_centerX r_centerY].
    rewrite Hx, Hy. unfold or_default.
    destruct (Req_dec_T x 0), (Req_dec_T y 0); try contradiction. auto.
Qed.

(** Example: two distinct node objects, default center (400, 300). *)
Lemma circularLayout_witness :
  position (snd (CustomLayout.circularLayout
                   (mkEngine [0%nat; 1%nat] [] (sample_required Circular)) sample_heap)
                1%nat)
  = mkPosition
      (400 + cos (INR 1 / INR 2 * 2 * PI - PI / 2) * Rmin 300 (INR 2 * 50 / (2 * PI)))
      (300 + sin (INR 1 / INR 2 * 2 * PI - PI / 2) * Rmin 300 (INR 2 * 50 / (2 * PI)))
  /\
  GeometryUtils.distance
    (position (snd (CustomLayout.circularLayout
                      (mkEngine [0%nat; 1%nat] [] (sample_required Circular)) sample_heap)
                   1%nat))
    (mkPosition 400 300)
  = Rmin 300 (INR 2 * 50 / (2 * PI))
  /\
  r_centerX (this_options (new_CustomLayoutEngine [0%nat; 1%nat] []
               (mkOptions (Some Circular) None None None None (Some 10) (Some 20)))) = 10.
Proof.
  assert (Hnd : NoDup [0%nat; 1%nat]).
  { apply NoDup_cons. split; [|apply NoDup_singleton].
    intros H. apply list_elem_of_singleton in H. discriminate. }
  assert (Hin : 1%nat ∈ [0%nat; 1%nat]) by (right; left).
  assert (H10 : 10 <> 0) by lra.
  assert (H20 : 20 <> 0) by lra.
  pose proof (circularLayout_places_on_circle
                (mkEngine [0%nat; 1%nat] [] (sample_required Circular)) sample_heap)
    as (_ & Hdist & Hpos & _ & Hcenter).
  split; [exact (Hpos Hnd 1%nat 1%nat eq_refl)|].
  split; [exact (Hdist 1%nat Hin)|].
  exact (proj1 (Hcenter [0%nat; 1%nat] []
                  (mkOptions (Some Circular) None None None None (Some 10) (Some 20))
                  10 20 eq_refl eq_refl H10 H20)).
Defined.

(** C7 (fails when a configured center coordinate is 0): the constructor
    takes its defaults with [||], which also replaces a configured 0, so an
    engine configured with the center (0, 0) lays the circle out around
    (400, 300).  Its single node ends at (400, 300 - 50/(2*pi)): at the
    radius [min(300, 1*50/(2*pi))], less than 9, from (400, 300), and at
    distance 400 or more from the configured center (0, 0). *)
Theorem circular_layout_ignores_configured_zero_center :
  forall random,
    exists h',
      CustomLayout.layout random
        (new_CustomLayoutEngine [0%nat] []
           (mkOptions (Some Circular) None None None None (Some 0) (Some 0)))
        sample_heap
      = Some ([0%nat], h') /\
      position (h' 0%nat) = mkPosition 400 (300 - 50 / (2 * PI)) /\
      GeometryUtils.distance (position (h' 0%nat)) (mkPosition 400 300)
      = Rmin 300 (INR 1 * 50 / (2 * PI)) /\
      Rmin 300 (INR 1 * 50 / (2 * PI)) < 9 /\
      400 <= GeometryUtils.distance (position (h' 0%nat)) (mkPosition 0 0).
Proof.
  intros random.
  set (this := new_CustomLayoutEngine [0%nat] []
                 (mkOptions (Some Circular) None None None None (Some 0) (Some 0))).
  exists (snd (circularLayout this sample_heap)).
  split; [reflexivity|].
  assert (Hcx : r_centerX (this_options this) = 400).
  { cbn. unfold or_default. destruct (Req_dec_T 0 0); [reflexivity | contradiction]. }
  assert (Hcy : r_centerY (this_options this) = 300).
  { cbn. unfold or_default. destruct (Req_dec_T 0 0); [reflexivity | contradiction]. }
  assert (Hpi : 3 < PI).
  { pose proof PI2_3_2. lra. }
  assert (Hr : circular_radius 1 = 50 / (2 * PI)).
  { unfold circular_radius. cbn [INR]. rewrite Rmin_right; [lra|].
    apply Rlt_le. apply (Rmult_lt_reg_r (2 * PI)); [lra|].
    unfold Rdiv. rewrite Rmult_assoc, Rinv_l by lra. lra. }
  assert (Hsmall : 50 / (2 * PI) < 9).
  { apply (Rmult_lt_reg_r (2 * PI)); [lra|].
    unfold Rdiv. rewrite Rmult_assoc, Rinv_l by lra. lra. }
  assert (Hpos : position (snd (circularLayout this sample_heap) 0%nat)
                 = mkPosition 400 (300 - 50 / (2 * PI))).
  { rewrite circularLayout_unfold. cbn [snd this_nodes new_CustomLayoutEngine this].
    rewrite forEach_cons, forEach_nil, place_at_same. cbn [position length].
    change (this_options _) with (this_options this). rewrite Hcx, Hcy, Hr.
    replace (circular_angle 0 1) with (- (PI / 2))
      by (unfold circular_angle; cbn [INR]; unfold Rdiv; ring).
    rewrite cos_neg, sin_neg, cos_PI2, sin_PI2. f_equal; ring. }
  rewrite Hpos. fold (circular_radius 1). rewrite Hr.
  split; [reflexivity|].
  assert (H0 : 0 < 50 / (2 * PI)).
  { apply Rdiv_lt_0_compat; lra. }
  split; [|split; [exact Hsmall|]].
  - unfold GeometryUtils.distance. cbn [px py].
    replace ((400 - 400) ^ 2 + (300 - (300 - 50 / (2 * PI))) ^ 2)
      with ((50 / (2 * PI)) * (50 / (2 * PI))) by ring.
    apply sqrt_square. lra.
  - unfold GeometryUtils.distance. cbn [px py].
    rewrite <- (sqrt_square 400) at 1 by lra.
    apply sqrt_le_1_alt.
    assert (0 <= (0 - (300 - 50 / (2 * PI))) ^ 2) by (apply pow2_ge_0).
    lra.
Qed.

(** C2 (fails for the custom engine): the engine copies the array, not the
    node objects, so the circular layout writes into the caller's node: node A
    enters at x = 0 and the same object holds x >= 100 after the call. *)
Theorem circular_layout_mutates_input_node :
  forall random,
    exists h',
      CustomLayout.layout random
        (new_CustomLayoutEngine [0%nat] []
           (mkOptions (Some Circular) None None None None None None))
        sample_heap
      = Some ([0%nat], h') /\
      px (position (sample_heap 0%nat)) = 0 /\
      100 <= px (position (h' 0%nat)) /\
      h' 0%nat <> sample_heap 0%nat.
Proof.
  intros random.
  set (this := new_CustomLayoutEngine [0%nat] []
                 (mkOptions (Some Circular) None None None None None None)).
  exists (snd (circularLayout this sample_heap)).
  split; [reflexivity|].
  assert (Hx : 100 <= px (position (snd (circularLayout this sample_heap) 0%nat))).
  { rewrite circularLayout_unfold. cbn [snd this_nodes new_CustomLayoutEngine this].
    rewrite forEach_cons, forEach_nil, place_at_same. cbn [position px].
    cbn [this_options new_CustomLayoutEngine r_centerX centerX or_default length].
    pose proof (COS_bound (circular_angle 0 1)) as [Hc1 Hc2].
    pose proof (circular_radius_nonneg 1). pose proof (circular_radius_le 1).
    assert (0 <= (cos (circular_angle 0 1) + 1) * circular_radius 1)
      by (apply Rmult_le_pos; lra).
    change (r_centerX (this_options this)) with 400. lra. }
  split; [reflexivity|]. split; [exact Hx|].
  intros E. rewrite E in Hx. cbn in Hx. lra.
Qed.

(** ** Force-directed, grid and organic layouts *)

Lemma apply_force_keeps this forces node index h0 h :
  heap_same_but_positions h0 h ->
  heap_same_but_positions h0 (apply_force this forces node index h).
Proof.
  intros H. unfold apply_force. destruct (forces !! index); auto 6 with heap.
Qed.

Lemma force_iteration_keeps this nodes h :
  heap_same_but_positions h (force_iteration this nodes h).
Proof.
  unfold force_iteration.
  apply (forEach_invariant (heap_same_but_positions h)); auto with heap.
  intros; now apply apply_force_keeps.
Qed.

Lemma force_iterations_keep this nodes k h :
  heap_same_but_positions h (Nat.iter k (force_iteration this nodes) h).
Proof.
  induction k as [|k IH]; [apply heap_same_refl|].
  rewrite Nat.iter_succ.
  eapply heap_same_trans; [exact IH | apply force_iteration_keeps].
Qed.

Lemma forceDirectedLayout_keeps this h :
  fst (forceDirectedLayout this h) = this_nodes this /\
  heap_same_but_positions h (snd (forceDirectedLayout this h)).
Proof. split; [reflexivity | apply force_iterations_keep]. Qed.

Lemma gridLayout_keeps this h :
  fst (gridLayout this h) = this_nodes this /\
  heap_same_but_positions h (snd (gridLayout this h)).
Proof.
  split; [reflexivity|]. unfold gridLayout. cbn [snd].
  apply (forEach_invariant (heap_same_but_positions h)); auto with heap.
Qed.

Lemma organicLayout_keeps random this h :
  fst (organicLayout random this h) = this_nodes this /\
  heap_same_but_positions h (snd (organicLayout random this h)).
Proof.
  unfold organicLayout.
  pose proof (circularLayout_keeps this h) as Hc.
  rewrite circularLayout_unfold in *. cbn [snd] in Hc.
  split; [reflexivity|].
  eapply heap_same_trans; [| apply forceDirectedLayout_keeps].
  apply (forEach_invariant (heap_same_but_positions h)); auto with heap.
Qed.

(** *** Dangling edges exert no force *)

Lemma find_node_none h nodes wanted :
  (forall r, r ∈ nodes -> id (h r) <> wanted) -> find_node h nodes wanted = None.
Proof.
  unfold find_node. induction nodes as [|n nodes IH]; intros H; cbn.
  - reflexivity.
  - destruct (String.eqb_spec (id (h n)) wanted) as [E|_].
    + exfalso. apply (H n); [now left | exact E].
    + apply IH. intros r Hr. apply H. now right.
Qed.

Lemma attract_dangling this h nodes forces edge :
  dangling h nodes edge -> attract this h nodes forces edge = forces.
Proof.
  intros [H|H]; unfold attract; rewrite (find_node_none _ _ _ H).
  - reflexivity.
  - now destruct (find_node h nodes (source edge)).
Qed.

Lemma dangling_heap_same h h' nodes edge :
  heap_same_but_positions h h' -> dangling h nodes edge -> dangling h' nodes edge.
Proof.
  intros Hs [H|H]; [left | right]; intros r Hr; destruct (Hs r) as [-> _]; auto.
Qed.

Section DanglingForce.
Variables (nodes : list loc) (es1 es2 : list DiagramEdge) (edge : DiagramEdge).
Variable options : RequiredOptions.

Let with_edge := mkEngine nodes (es1 ++ edge :: es2) options.
Let without := mkEngine nodes (es1 ++ es2) options.

Lemma force_iteration_dangling l h :
  dangling h l edge ->
  force_iteration with_edge l h = force_iteration without l h.
Proof.
  intros Hd. unfold force_iteration.
  change (repel with_edge) with (repel without).
  change (apply_force with_edge) with (apply_force without).
  change (attract with_edge) with (attract without).
  f_equal. subst with_edge without. cbn [this_edges].
  rewrite !fold_left_app. cbn [fold_left].
  now rewrite attract_dangling.
Qed.

Lemma force_iterations_dangling l k h :
  dangling h l edge ->
  Nat.iter k (force_iteration with_edge l) h = Nat.iter k (force_iteration without l) h.
Proof.
  intros Hd. induction k as [|k IH]; [reflexivity|].
  rewrite !Nat.iter_succ, IH. apply force_iteration_dangling.
  eapply dangling_heap_same; [apply force_iterations_keep | exact Hd].
Qed.

Lemma forceDirectedLayout_dangling h :
  dangling h nodes edge ->
  forceDirectedLayout with_edge h = forceDirectedLayout without h.
Proof.
  intros Hd. unfold forceDirectedLayout. cbn [this_nodes this_options with_edge without].
  f_equal. now apply force_iterations_dangling.
Qed.
End DanglingForce.

Lemma organicLayout_dangling random nodes es1 es2 edge options h :
  dangling h nodes edge ->
  organicLayout random (mkEngine nodes (es1 ++ edge :: es2) options) h =
  organicLayout random (mkEngine nodes (es1 ++ es2) options) h.
Proof.
  intros Hd. unfold organicLayout.
  rewrite !circularLayout_unfold. cbn [this_nodes this_options this_edges].
  unfold new_CustomLayoutEngine.
  apply forceDirectedLayout_dangling.
  eapply dangling_heap_same; [|exact Hd].
  eapply heap_same_trans; [apply forEach_place_keeps|].
  apply (forEach_invariant (heap_same_but_positions _)); auto with heap.
Qed.

(** ** Tree layout: the maps *)

Section TreeMaps.
Variable h : heap.

Lemma build_nodeMap_snoc nodes node :
  build_nodeMap h (nodes ++ [node]) = <[id (h node) := node]> (build_nodeMap h nodes).
Proof. unfold build_nodeMap. now rewrite fold_left_app. Qed.

Lemma build_nodeMap_Some nodes i r :
  build_nodeMap h nodes !! i = Some r -> r ∈ nodes /\ id (h r) = i.
Proof.
  induction nodes as [|node nodes IH] using rev_ind.
  - unfold build_nodeMap. cbn. now rewrite lookup_empty.
  - rewrite build_nodeMap_snoc. intros H.
    destruct (decide (id (h node) = i)) as [E|E].
    + subst i. rewrite lookup_insert_eq in H. injection H as <-.
      split; [|reflexivity]. apply elem_of_app. right. now left.
    + rewrite lookup_insert_ne in H by exact E.
      destruct (IH H) as [Hin Hid]. split; [|exact Hid].
      apply elem_of_app. now left.
Qed.

Lemma build_nodeMap_is_Some nodes r :
  r ∈ nodes -> is_Some (build_nodeMap h nodes !! id (h r)).
Proof.
  induction nodes as [|node nodes IH] using rev_ind; intros Hr.
  - inversion Hr.
  - rewrite build_nodeMap_snoc.
    destruct (decide (id (h node) = id (h r))) as [E|E].
    + rewrite E, lookup_insert_eq. eauto.
    + rewrite lookup_insert_ne by exact E. apply IH.
      apply elem_of_app in Hr. destruct Hr as [Hr|Hr]; [exact Hr|].
      apply list_elem_of_singleton in Hr. subst. contradiction.
Qed.

Lemma build_nodeMap_unique nodes r :
  NoDup (map (fun n => id (h n)) nodes) -> r ∈ nodes ->
  build_nodeMap h nodes !! id (h r) = Some r.
Proof.
  intros Hnd Hr.
  destruct (build_nodeMap_is_Some nodes r Hr) as [r' Hr'].
  destruct (build_nodeMap_Some _ _ _ Hr') as [Hin Hid].
  rewrite Hr'. f_equal.
  apply list_elem_of_lookup in Hr. destruct Hr as [k Hk].
  apply list_elem_of_lookup in Hin. destruct Hin as [k' Hk'].
  assert (k' = k) as ->.
  { eapply NoDup_lookup; [exact Hnd | |].
    - change (map (fun n => id (h n)) nodes) with ((fun n => id (h n)) <$> nodes).
      rewrite list_lookup_fmap, Hk'. reflexivity.
    - change (map (fun n => id (h n)) nodes) with ((fun n => id (h n)) <$> nodes).
      rewrite list_lookup_fmap, Hk. cbn. now rewrite Hid. }
  congruence.
Qed.

(** The adjacency list of an id holds the targets of the edges that leave
    it, in edge order. *)
Lemma add_edges_lookup edges : forall (m : gmap string (list string)) u,
  default [] (fold_left add_edge edges m !! u) =
  (default [] (m !! u) ++ map target (filter (fun e => source e = u) edges))%list.
Proof.
  induction edges as [|e edges IH]; intros m u; cbn [fold_left].
  - cbn. now rewrite app_nil_r.
  - rewrite IH. unfold add_edge. rewrite filter_cons.
    destruct (decide (source e = u)) as [E|E].
    + subst u. rewrite lookup_insert_eq. cbn. now rewrite <- app_assoc.
    + rewrite lookup_insert_ne by exact E. reflexivity.
Qed.

Lemma empty_lists_lookup nodes u :
  default [] (fold_left (fun (m : gmap string (list string)) node =>
                           <[id (h node) := []]> m) nodes ∅ !! u) = [].
Proof.
  induction nodes as [|node nodes IH] using rev_ind.
  - cbn. now rewrite lookup_empty.
  - rewrite fold_left_app. cbn [fold_left].
    destruct (decide (id (h node) = u)) as [E|E].
    + subst u. now rewrite lookup_insert_eq.
    + now rewrite lookup_insert_ne by exact E.
Qed.

Lemma build_adjacency_lookup nodes edges u :
  default [] (build_adjacency h nodes edges !! u) =
  map target (filter (fun e => source e = u) edges).
Proof.
  unfold build_adjacency. now rewrite add_edges_lookup, empty_lists_lookup.
Qed.

Lemma child_of_edge nodes edges edge :
  edge ∈ edges ->
  target edge ∈ default [] (build_adjacency h nodes edges !! source edge).
Proof.
  intros He. rewrite build_adjacency_lookup.
  change (map target ?l) with (target <$> l).
  apply list_elem_of_fmap_2, list_elem_of_filter. auto.
Qed.

Lemma edge_of_child nodes edges u c :
  c ∈ default [] (build_adjacency h nodes edges !! u) ->
  exists edge, edge ∈ edges /\ source edge = u /\ target edge = c.
Proof.
  rewrite build_adjacency_lookup.
  change (map target ?l) with (target <$> l).
  intros H. apply list_elem_of_fmap in H. destruct H as (e & -> & He).
  apply list_elem_of_filter in He. destruct He. eauto.
Qed.

(** Root detection. *)
Lemma zero_indegree_spec nodes edges r :
  r ∈ zero_indegree h nodes edges <->
  r ∈ nodes /\ forall edge, edge ∈ edges -> target edge <> id (h r).
Proof.
  unfold zero_indegree, edge_targets. rewrite list_elem_of_filter.
  rewrite elem_of_list_to_set.
  change (map target edges) with (target <$> edges).
  rewrite list_elem_of_fmap. split.
  - intros [Hn Hr]. split; [exact Hr|]. intros e He E. apply Hn. eauto.
  - intros [Hr Hn]. split; [|exact Hr]. intros (e & E & He). apply (Hn e He). auto.
Qed.

Lemma find_roots_some nodes edges :
  zero_indegree h nodes edges <> [] ->
  find_roots h nodes edges = zero_indegree h nodes edges.
Proof. unfold find_roots. destruct (zero_indegree h nodes edges); [contradiction | reflexivity]. Qed.

Lemma find_roots_none first rest edges :
  zero_indegree h (first :: rest) edges = [] ->
  find_roots h (first :: rest) edges = [first].
Proof. unfold find_roots. now intros ->. Qed.

Lemma find_roots_nodes nodes edges r :
  r ∈ find_roots h nodes edges -> r ∈ nodes.
Proof.
  unfold find_roots.
  destruct (zero_indegree h nodes edges) as [|z zs] eqn:Ez.
  - destruct nodes as [|first rest]; cbn; intros Hr; [inversion Hr|].
    apply list_elem_of_singleton in Hr. subst. now left.
  - rewrite <- Ez. intros Hr. now apply zero_indegree_spec in Hr.
Qed.
End TreeMaps.

(** ** Tree layout: what the two pushing loops add to the queue *)

Lemma combine_seq_elem {A} (l : list A) a : forall k,
  a ∈ l -> exists i, (i, a) ∈ combine (seq k (length l)) l.
Proof.
  induction l as [|b l IH]; intros k Ha.
  - inversion Ha.
  - cbn. apply elem_of_cons in Ha. destruct Ha as [->|Ha].
    + exists k. now left.
    + destruct (IH (S k) Ha) as [i Hi]. exists i. now right.
Qed.

Lemma combine_elem_r {A B} (l : list A) (l' : list B) a b :
  (a, b) ∈ combine l l' -> b ∈ l'.
Proof. rewrite !list_elem_of_In. apply in_combine_r. Qed.

Section PushChildren.
Variables (nm : gmap string loc) (vis : gset string) (sx y : number) (lvl : nat).

Let push := fun (q : list QueueEntry) (ic : nat * string) =>
  push_child nm vis sx y lvl (snd ic) (fst ic) q.

Lemma push_pairs_length pairs : forall q,
  (length (fold_left push pairs q) <= length q + length pairs)%nat.
Proof.
  induction pairs as [|ic pairs IH]; intros q; cbn [fold_left length].
  - lia.
  - etransitivity; [apply IH|].
    subst push. cbn beta. unfold push_child.
    destruct (nm !! snd ic); [destruct (decide _)|]; rewrite ?length_app; cbn; lia.
Qed.

Lemma push_pairs_old pairs : forall q e,
  e ∈ q -> e ∈ fold_left push pairs q.
Proof.
  induction pairs as [|ic pairs IH]; intros q e He; cbn [fold_left]; [exact He|].
  apply IH. subst push. cbn beta. unfold push_child.
  destruct (nm !! snd ic); [destruct (decide _)|]; auto.
  apply elem_of_app. now left.
Qed.

Lemma push_pairs_new pairs : forall q e,
  e ∈ fold_left push pairs q ->
  e ∈ q \/ exists ic, ic ∈ pairs /\ nm !! snd ic = Some (q_node e) /\ snd ic ∉ vis.
Proof.
  induction pairs as [|ic pairs IH]; intros q e He; cbn [fold_left] in He; [now left|].
  destruct (IH _ _ He) as [Hq | (ic' & Hin & H1 & H2)].
  - subst push. cbn beta in Hq. unfold push_child in Hq.
    destruct (nm !! snd ic) as [child|] eqn:Ec; [|now left].
    destruct (decide (snd ic ∈ vis)) as [|Hn]; [now left|].
    apply elem_of_app in Hq. destruct Hq as [Hq|Hq]; [now left|].
    apply list_elem_of_singleton in Hq. subst e. right.
    exists ic. split; [now left|]. cbn. auto.
  - right. exists ic'. split; [now right | auto].
Qed.

Lemma push_pairs_all pairs : forall q ic r,
  ic ∈ pairs -> nm !! snd ic = Some r -> snd ic ∉ vis ->
  exists e, e ∈ fold_left push pairs q /\ q_node e = r.
Proof.
  induction pairs as [|ic0 pairs IH]; intros q ic r Hin Hr Hv; [inversion Hin|].
  cbn [fold_left]. apply elem_of_cons in Hin. destruct Hin as [->|Hin].
  - eexists. split.
    + apply push_pairs_old. subst push. cbn beta. unfold push_child.
      rewrite Hr. destruct (decide (snd ic0 ∈ vis)); [contradiction|].
      apply elem_of_app. right. now left.
    + reflexivity.
  - eapply IH; eauto.
Qed.

(** The same four facts for the loop over the children of a node. *)
Lemma push_children_length children q :
  (length (forEach children (push_child nm vis sx y lvl) q)
   <= length q + length children)%nat.
Proof.
  unfold forEach. etransitivity; [apply push_pairs_length|].
  rewrite length_combine, length_seq. lia.
Qed.

Lemma push_children_old children q e :
  e ∈ q -> e ∈ forEach children (push_child nm vis sx y lvl) q.
Proof. apply push_pairs_old. Qed.

Lemma push_children_new children q e :
  e ∈ forEach children (push_child nm vis sx y lvl) q ->
  e ∈ q \/ exists c, c ∈ children /\ nm !! c = Some (q_node e) /\ c ∉ vis.
Proof.
  intros He. apply push_pairs_new in He.
  destruct He as [He | ([i c] & Hin & H1 & H2)]; [now left|].
  right. exists c. split; [|auto]. eapply combine_elem_r; eauto.
Qed.

Lemma push_children_all children q c r :
  c ∈ children -> nm !! c = Some r -> c ∉ vis ->
  exists e, e ∈ forEach children (push_child nm vis sx y lvl) q /\ q_node e = r.
Proof.
  intros Hc Hr Hv. destruct (combine_seq_elem children c 0 Hc) as [i Hi].
  exact (push_pairs_all _ q (i, c) r Hi Hr Hv).
Qed.
End PushChildren.

Lemma push_roots_nodes this roots' roots :
  map q_node (forEach roots (push_root this roots') []) = roots.
Proof.
  unfold forEach.
  assert (H : forall ps q,
             map q_node (fold_left (fun s (ia : nat * loc) =>
                                      push_root this roots' (snd ia) (fst ia) s) ps q)
             = (map q_node q ++ map snd ps)%list).
  { intros ps. induction ps as [|ia ps IH]; intros q; cbn [fold_left].
    - cbn. now rewrite app_nil_r.
    - rewrite IH. unfold push_root. rewrite map_app. cbn. now rewrite <- app_assoc. }
  rewrite H. cbn.
  generalize 0%nat. induction roots as [|r roots IH]; intros k; cbn; [reflexivity|].
  f_equal. apply IH.
Qed.

(** ** Tree layout: the loop *)

Section TreeLoop.
Variables (h0 : heap) (nodes : list loc) (edges : list DiagramEdge).

Let nm := build_nodeMap h0 nodes.
Let adj := build_adjacency h0 nodes edges.

Lemma mem_id st r :
  bfs_invariant h0 nodes edges st -> id (mem st r) = id (h0 r).
Proof. intros I. now destruct (inv_heap _ _ _ _ I r). Qed.

(** A round of the loop keeps the invariant. *)
Lemma bfs_step_invariant e rest st :
  bfs_invariant h0 nodes edges st -> queue st = e :: rest ->
  bfs_invariant h0 nodes edges (bfs_step nm adj e rest st).
Proof.
  intros I Hq. pose proof (mem_id st (q_node e) I) as Hid.
  destruct I as [I0 I1 I2 I3 I4 I5 I6 I7 I8].
  assert (He : e ∈ queue st) by (rewrite Hq; now left).
  assert (Hrest : forall e', e' ∈ rest -> e' ∈ queue st)
    by (intros e' H; rewrite Hq; now right).
  unfold bfs_step. rewrite Hid.
  set (node_id := id (h0 (q_node e))).
  destruct (decide (node_id ∈ visited st)) as [Hv|Hv].
  - (* already visited: the entry is dropped *)
    constructor; cbn [queue visited mem placed]; auto.
    + intros r Hr. destruct (I5 r Hr) as [H | (e' & He' & E)]; [now left|].
      rewrite Hq in He'. apply elem_of_cons in He'. destruct He' as [->|He'].
      * left. now rewrite <- E.
      * right. eauto.
    + intros edge r Hs Hedge Hr E.
      destruct (I6 edge r Hs Hedge Hr E) as [H | (e' & He' & E')]; [now left|].
      rewrite Hq in He'. apply elem_of_cons in He'. destruct He' as [->|He'].
      * left. now rewrite <- E'.
      * right. eauto.
  - (* first visit: the node is placed and its children are queued *)
    set (children := default [] (adj !! node_id)).
    set (startX := q_x e - (INR (length children) - 1) * 150 / 2).
    set (vis' := {[node_id]} ∪ visited st).
    assert (Hsub : forall i, i ∈ visited st -> i ∈ vis')
  by (intros i Hi; subst vis'; apply elem_of_union; now right).
    assert (Hnid : node_id ∈ vis')
  by (subst vis'; apply elem_of_union; left; now apply elem_of_singleton).
    assert (Hother : forall r, id (h0 r) ∈ visited st ->
               set_y (set_x (mem st) (q_node e) (q_x e)) (q_node e) (q_y e) r = mem st r).
    { intros r Hr. assert (r <> q_node e) by (intros ->; contradiction).
      now rewrite set_y_other, set_x_other. }
    constructor; cbn [queue visited mem placed].
    + auto with heap.
    + intros e' He'. apply push_children_new in He'.
      destruct He' as [He' | (c & _ & Hc & _)]; [auto|].
      now apply build_nodeMap_Some in Hc.
    + intros r Hr.
      assert (r <> q_node e) by (intros ->; contradiction).
      rewrite set_y_other, set_x_other by assumption.
      apply I2. intros H'. apply Hr, Hsub, H'.
    + intros i Hi. subst vis'. apply elem_of_union in Hi. destruct Hi as [Hi|Hi].
      * apply elem_of_singleton in Hi. subst i. now apply I4.
      * now apply I3.
    + intros e' He'. apply push_children_new in He'.
      destruct He' as [He' | (c & Hc & Hnm & _)]; [auto|].
      apply build_nodeMap_Some in Hnm. destruct Hnm as [Hin Hidc].
      apply edge_of_child in Hc. destruct Hc as (edge & Hedge & Hs & Ht).
      rewrite Hidc, <- Ht.
      apply (reach_child h0 nodes edges edge (q_node e')); auto; [|congruence].
      rewrite Hs. now apply I4.
    + intros r Hr. destruct (I5 r Hr) as [H | (e' & He' & E)]; [left; auto|].
      rewrite Hq in He'. apply elem_of_cons in He'. destruct He' as [->|He'].
      * left. now rewrite <- E.
      * right. exists e'. split; [now apply push_children_old | exact E].
    + intros edge r Hs Hedge Hr E.
      subst vis'. apply elem_of_union in Hs. destruct Hs as [Hs|Hs].
      * apply elem_of_singleton in Hs.
        destruct (decide (target edge ∈ {[node_id]} ∪ visited st)) as [Ht|Ht];
          [now left|right].
        destruct (build_nodeMap_is_Some h0 nodes r Hr) as [r' Hr'].
        fold nm in Hr'. rewrite E in Hr'.
        destruct (push_children_all nm ({[node_id]} ∪ visited st) startX (q_y e)
                    (q_level e) children rest (target edge) r') as (e' & He' & Hn); auto.
        { subst children. rewrite <- Hs. now apply child_of_edge. }
        exists e'. split; [exact He'|].
        rewrite Hn. now apply build_nodeMap_Some in Hr'.
      * destruct (I6 edge r Hs Hedge Hr E) as [H | (e' & He' & E')]; [left; auto|].
        rewrite Hq in He'. apply elem_of_cons in He'. destruct He' as [->|He'].
        -- left. rewrite <- E'. exact Hnid.
        -- right. exists e'. split; [now apply push_children_old | exact E'].
    + intros r p Hp. apply elem_of_app in Hp. destruct Hp as [Hp|Hp].
      * destruct (I7 r p Hp) as (H1 & H2 & H3).
        split; [exact H1|]. split; [auto|]. now rewrite Hother.
      * apply list_elem_of_singleton in Hp. injection Hp as -> ->.
        split; [auto|]. split; [exact Hnid|].
        now rewrite set_y_same, set_x_same.
    + intros i Hi. subst vis'. apply elem_of_union in Hi. destruct Hi as [Hi|Hi].
      * apply elem_of_singleton in Hi. subst i.
        exists (q_node e), (mkPosition (q_x e) (q_y e)). split; [|reflexivity].
        apply elem_of_app. right. now left.
      * destruct (I8 i Hi) as (r & p & Hp & E). exists r, p. split; [|exact E].
        apply elem_of_app. now left.
Qed.

(** A round of the loop uses up some of what is left to do. *)
Lemma bfs_step_remaining e rest st :
  bfs_invariant h0 nodes edges st -> queue st = e :: rest ->
  (remaining nm adj (bfs_step nm adj e rest st) < remaining nm adj st)%nat.
Proof.
  intros I Hq. pose proof (mem_id st (q_node e) I) as Hid.
  assert (Hin : q_node e ∈ nodes)
    by (apply (inv_queue_nodes _ _ _ _ I); rewrite Hq; now left).
  unfold bfs_step. rewrite Hid.
  set (node_id := id (h0 (q_node e))).
  destruct (decide (node_id ∈ visited st)) as [Hv|Hv];
    unfold remaining; cbn [queue visited mem placed]; rewrite Hq; cbn [length].
  - lia.
  - assert (Hdom : node_id ∈ dom nm).
    { apply elem_of_dom. now apply build_nodeMap_is_Some. }
    assert (Hsplit : dom nm ∖ visited st
                     = {[node_id]} ∪ dom nm ∖ ({[node_id]} ∪ visited st)).
    { apply set_eq. intros i. rewrite !elem_of_union, !elem_of_difference,
        elem_of_union, elem_of_singleton.
      destruct (decide (i = node_id)) as [->|]; intuition. }
    rewrite Hsplit.
    rewrite elements_union_singleton.
2: { rewrite elem_of_difference, elem_of_union, elem_of_singleton. intuition. }
    cbn [sum_list_with].
    pose proof (push_children_length nm ({[node_id]} ∪ visited st)
                  (q_x e - (INR (length (default [] (adj !! node_id))) - 1) * 150 / 2)
                  (q_y e) (q_level e) (default [] (adj !! node_id)) rest) as Hlen.
    unfold out_degree. lia.
Qed.

(** With enough rounds allowed the loop ends, with an empty queue and the
    invariant. *)
Lemma bfs_loop_returns fuel : forall st,
  bfs_invariant h0 nodes edges st -> (remaining nm adj st <= fuel)%nat ->
  exists st', bfs_loop nm adj fuel st = Some st' /\
              queue st' = [] /\ bfs_invariant h0 nodes edges st'.
Proof.
  induction fuel as [|fuel IH]; intros st I Hfuel.
  - destruct (queue st) as [|e rest] eqn:Hq.
    + exists st. cbn. rewrite Hq. auto.
    + exfalso. unfold remaining in Hfuel. rewrite Hq in Hfuel. cbn in Hfuel. lia.
  - cbn [bfs_loop]. destruct (queue st) as [|e rest] eqn:Hq.
    + exists st. auto.
    + apply IH.
      * now apply bfs_step_invariant.
      * pose proof (bfs_step_remaining e rest st I Hq). lia.
Qed.
End TreeLoop.

(** ** Tree layout: the whole call *)

Section TreeCall.
Variables (this : CustomLayoutEngine) (h : heap).

Let nodes := this_nodes this.
Let edges := this_edges this.

Lemma tree_start_invariant : bfs_invariant h nodes edges (tree_start this h).
Proof.
  unfold tree_start. fold nodes edges.
  set (roots := find_roots h nodes edges).
  pose proof (push_roots_nodes this roots roots) as Hmap.
  set (q0 := forEach roots (push_root this roots) []) in *.
  assert (Hq : forall e, e ∈ q0 -> q_node e ∈ roots).
  { intros e He. rewrite <- Hmap. change (map q_node q0) with (q_node <$> q0).
    now apply list_elem_of_fmap_2. }
  assert (Hq' : forall r, r ∈ roots -> exists e, e ∈ q0 /\ q_node e = r).
  { intros r Hr. rewrite <- Hmap in Hr.
    change (map q_node q0) with (q_node <$> q0) in Hr.
    apply list_elem_of_fmap in Hr. destruct Hr as (e & -> & He). eauto. }
  constructor; cbn [queue visited mem placed].
  - apply heap_same_refl.
  - intros e He. apply (find_roots_nodes h nodes edges). now apply Hq.
  - reflexivity.
  - intros i Hi. now apply not_elem_of_empty in Hi.
  - intros e He. apply reach_root. now apply Hq.
  - intros r Hr. right. destruct (Hq' r Hr) as (e & He & <-). eauto.
  - intros edge r Hs. now apply not_elem_of_empty in Hs.
  - intros r p Hp. inversion Hp.
  - intros i Hi. now apply not_elem_of_empty in Hi.
Qed.

(** The loop of [treeLayout] ends within its bound. *)
Lemma treeLayout_run_returns :
  exists st, treeLayout_run this h = Some st /\
             queue st = [] /\ bfs_invariant h nodes edges st.
Proof.
  unfold treeLayout_run. fold nodes edges.
  apply bfs_loop_returns; [apply tree_start_invariant | lia].
Qed.

Lemma treeLayout_returns :
  exists h', treeLayout this h = Some (nodes, h') /\ heap_same_but_positions h h'.
Proof.
  destruct treeLayout_run_returns as (st & Hrun & _ & I).
  exists (mem st). unfold treeLayout. rewrite Hrun. split; [reflexivity|].
  apply (inv_heap _ _ _ _ I).
Qed.

(** When the loop has ended, every reachable id has been visited. *)
Lemma reachable_visited st i :
  bfs_invariant h nodes edges st -> queue st = [] ->
  tree_reachable h nodes edges i -> i ∈ visited st.
Proof.
  intros I Hq Hreach. induction Hreach as [r Hr | edge r _ IH Hedge Hr E].
  - destruct (inv_roots _ _ _ _ I r Hr) as [H | (e & He & _)]; [exact H|].
    rewrite Hq in He. inversion He.
  - destruct (inv_children _ _ _ _ I edge r IH Hedge Hr E) as [H | (e & He & _)];
      [exact H|].
    rewrite Hq in He. inversion He.
Qed.
End TreeCall.

(** C8: root detection and coverage of the tree layout.  When some node is
    the target of no edge, the roots are exactly the nodes that are the target
    of no edge; when every node is a target and the list is not empty, the
    first node is the only root; the loop ends, and every id reachable from a
    root has then been visited, so (node ids being unique) every reachable
    node has been assigned the position of its queue entry. *)
Theorem treeLayout_roots_and_reachable :
  forall (this : CustomLayoutEngine) (h : heap),
    let nodes := this_nodes this in
    let edges := this_edges this in
    let roots := find_roots h nodes edges in
    ((exists r, r ∈ nodes /\ no_incoming h edges r) ->
     forall r, r ∈ roots <-> r ∈ nodes /\ no_incoming h edges r) /\
    (forall first rest,
       nodes = first :: rest ->
       (forall r, r ∈ nodes -> ~ no_incoming h edges r) ->
       roots = [first]) /\
    (exists st,
       treeLayout_run this h = Some st /\ queue st = [] /\
       treeLayout this h = Some (nodes, mem st) /\
       (forall i, tree_reachable h nodes edges i -> i ∈ visited st) /\
       (NoDup (map (fun n => id (h n)) nodes) ->
        forall r, r ∈ nodes -> tree_reachable h nodes edges (id (h r)) ->
          exists p, (r, p) ∈ placed st /\ position (mem st r) = p)).
Proof.
  intros this h nodes edges roots. split; [|split].
  - intros (r0 & Hr0 & Hn0) r. subst roots.
    rewrite find_roots_some.
    + apply zero_indegree_spec.
    + intros E. assert (H : r0 ∈ zero_indegree h nodes edges)
        by (apply zero_indegree_spec; auto).
      rewrite E in H. inversion H.
  - intros first rest Hnodes Hall. subst roots. rewrite Hnodes.
    apply find_roots_none.
    destruct (zero_indegree h (first :: rest) edges) as [|z zs] eqn:Ez; [reflexivity|].
    exfalso. assert (H : z ∈ zero_indegree h (first :: rest) edges)
      by (rewrite Ez; now left).
    apply zero_indegree_spec in H. destruct H as [Hz Hn].
    apply (Hall z); [rewrite Hnodes; exact Hz | exact Hn].
  - destruct (treeLayout_run_returns this h) as (st & Hrun & Hq & I).
    exists st. split; [exact Hrun|]. split; [exact Hq|].
    split; [unfold treeLayout; now rewrite Hrun|].
    split; [intros i; now apply reachable_visited|].
    intros Hnd r Hr Hreach.
    pose proof (reachable_visited this h st _ I Hq Hreach) as Hv.
    destruct (inv_visited_placed _ _ _ _ I _ Hv) as (r' & p & Hp & E).
    destruct (inv_placed _ _ _ _ I _ _ Hp) as (Hr' & _ & Hpos).
    assert (r' = r) as ->.
    { pose proof (build_nodeMap_unique h _ r Hnd Hr) as H1.
      pose proof (build_nodeMap_unique h _ r' Hnd Hr') as H2.
      rewrite E in H2. congruence. }
    eauto.
Qed.

Lemma sample_ids_nodup : NoDup (map (fun n => id (sample_heap n)) [0%nat; 1%nat]).
Proof.
  cbn. apply NoDup_cons. split; [|apply NoDup_singleton].
  intros H. apply list_elem_of_singleton in H. discriminate.
Qed.

(** Witness for C8: with the edge A -> B, A is a root and B, reachable from
    A, is placed; with A -> A and B -> B, the first node A is the only root. *)
Lemma treeLayout_reachable_witness :
  (0%nat ∈ find_roots sample_heap [0%nat; 1%nat] [mkEdge "e1" "A" "B"]) /\
  find_roots sample_heap [0%nat; 1%nat] [mkEdge "e1" "A" "A"; mkEdge "e2" "B" "B"]
  = [0%nat] /\
  exists st,
    treeLayout_run (tree_engine [mkEdge "e1" "A" "B"]) sample_heap = Some st /\
    exists p, (1%nat, p) ∈ placed st /\ position (mem st 1%nat) = p.
Proof.
  assert (HA : no_incoming sample_heap [mkEdge "e1" "A" "B"] 0%nat).
  { intros edge He. apply list_elem_of_singleton in He. subst edge. discriminate. }
  split; [|split].
  - destruct (treeLayout_roots_and_reachable (tree_engine [mkEdge "e1" "A" "B"])
                sample_heap) as (Hroots & _ & _).
    apply Hroots.
    + exists 0%nat. split; [left | exact HA].
    + split; [left | exact HA].
  - destruct (treeLayout_roots_and_reachable
                (tree_engine [mkEdge "e1" "A" "A"; mkEdge "e2" "B" "B"]) sample_heap)
      as (_ & Hforced & _).
    apply (Hforced 0%nat [1%nat] eq_refl).
    intros r Hr Hno. apply elem_of_cons in Hr. destruct Hr as [->|Hr].
    + apply (Hno (mkEdge "e1" "A" "A")); [left | reflexivity].
    + apply list_elem_of_singleton in Hr. subst r.
      apply (Hno (mkEdge "e2" "B" "B")); [right; left | reflexivity].
  - destruct (treeLayout_roots_and_reachable (tree_engine [mkEdge "e1" "A" "B"])
                sample_heap) as (_ & _ & st & Hrun & _ & _ & _ & H).
    exists st. split; [exact Hrun|].
    apply (H sample_ids_nodup 1%nat).
    + right. left.
    + apply (reach_child sample_heap _ _ (mkEdge "e1" "A" "B") 1%nat).
      * apply (reach_root sample_heap _ _ 0%nat).
        assert (E : find_roots sample_heap [0%nat; 1%nat] [mkEdge "e1" "A" "B"]
                    = [0%nat]) by (vm_compute; reflexivity).
        cbn [this_nodes this_edges tree_engine]. rewrite E. left.
      * left.
      * right. left.
      * reflexivity.
Defined.

(** C10: in the tree layout a node whose id is neither that of a root nor
    reachable from a root is returned exactly as it was given. *)
Theorem treeLayout_unreached_nodes_unchanged :
  forall (this : CustomLayoutEngine) (h : heap),
    exists h',
      treeLayout this h = Some (this_nodes this, h') /\
      forall r,
        ~ tree_reachable h (this_nodes this) (this_edges this) (id (h r)) ->
        h' r = h r.
Proof.
  intros this h.
  destruct (treeLayout_run_returns this h) as (st & Hrun & Hq & I).
  exists (mem st). split; [unfold treeLayout; now rewrite Hrun|].
  intros r Hr. apply (inv_frame _ _ _ _ I).
  intros Hv. apply Hr. now apply (inv_visited_reachable _ _ _ _ I).
Qed.

(** Witness for C10: A -> A and B -> B make every node a target, so A, the
    first node, is the only root, and B, which A does not reach, is kept. *)
Lemma treeLayout_unreached_witness :
  exists h',
    treeLayout (tree_engine [mkEdge "e1" "A" "A"; mkEdge "e2" "B" "B"]) sample_heap
    = Some ([0%nat; 1%nat], h') /\
    h' 1%nat = sample_heap 1%nat.
Proof.
  destruct (treeLayout_unreached_nodes_unchanged
              (tree_engine [mkEdge "e1" "A" "A"; mkEdge "e2" "B" "B"]) sample_heap)
    as (h' & E & H).
  exists h'. split; [exact E|]. apply H.
  cbn [this_nodes this_edges tree_engine].
  assert (Hall : forall i,
             tree_reachable sample_heap [0%nat; 1%nat]
               [mkEdge "e1" "A" "A"; mkEdge "e2" "B" "B"] i -> i = "A").
  { intros i Hi. induction Hi as [r Hr | edge r _ IH Hedge Hr Eid].
    - assert (Er : find_roots sample_heap [0%nat; 1%nat]
                     [mkEdge "e1" "A" "A"; mkEdge "e2" "B" "B"] = [0%nat])
        by (vm_compute; reflexivity).
      rewrite Er in Hr. apply list_elem_of_singleton in Hr. now subst r.
    - apply elem_of_cons in Hedge. destruct Hedge as [->|Hedge]; [reflexivity|].
      apply list_elem_of_singleton in Hedge. subst edge. discriminate IH. }
  intros Hb. apply Hall in Hb. discriminate Hb.
Defined.

(** ** Every algorithm of the custom engine returns, and keeps all but
    positions *)

Lemma layout_returns_and_keeps random this h :
  exists h',
    layout random this h = Some (this_nodes this, h') /\ heap_same_but_positions h h'.
Proof.
  unfold layout. destruct (r_algorithm (this_options this)).
  - exists (snd (forceDirectedLayout this h)).
    split; [reflexivity | apply forceDirectedLayout_keeps].
  - exists (snd (circularLayout this h)).
    split; [reflexivity | apply circularLayout_keeps].
  - apply treeLayout_returns.
  - exists (snd (gridLayout this h)).
    split; [reflexivity | apply gridLayout_keeps].
  - exists (snd (organicLayout random this h)).
    destruct (organicLayout_keeps random this h) as [E H].
    split; [|exact H].
    rewrite <- E. now destruct (organicLayout random this h).
Qed.

(** ** Dangling edges *)

Lemma ghost_edge_dangling : dangling sample_heap [0%nat; 1%nat] ghost_edge.
Proof.
  left. intros r Hr. apply elem_of_cons in Hr. destruct Hr as [->|Hr].
  - discriminate.
  - apply list_elem_of_singleton in Hr. subst r. discriminate.
Qed.

(** C4 as stated fails in the tree layout: the edge ghost -> B has no source
    node, yet it makes B a non-root.  With the edge, A is the only root and B
    keeps (10, 20); with the edge removed, B is the second root and lands on
    (400, 100). *)
Lemma tree_layout_counts_dangling_edge :
  dangling sample_heap [0%nat; 1%nat] ghost_edge /\
  find_roots sample_heap [0%nat; 1%nat] [ghost_edge] = [0%nat] /\
  find_roots sample_heap [0%nat; 1%nat] [] = [0%nat; 1%nat] /\
  exists h1 h2,
    treeLayout (tree_engine [ghost_edge]) sample_heap = Some ([0%nat; 1%nat], h1) /\
    treeLayout (tree_engine []) sample_heap = Some ([0%nat; 1%nat], h2) /\
    position (h1 1%nat) = mkPosition 10 20 /\
    position (h2 1%nat) = mkPosition 400 100 /\
    position (h1 1%nat) <> position (h2 1%nat).
Proof.
  split; [exact ghost_edge_dangling|].
  split; [vm_compute; reflexivity|]. split; [vm_compute; reflexivity|].
  eexists. eexists.
  split; [vm_compute; reflexivity|]. split; [vm_compute; reflexivity|].
  assert (H1 : forall a b c d : R, a = c -> b = d -> mkPosition a b = mkPosition c d)
    by (intros; subst; reflexivity).
  split; [vm_compute; apply H1; lra|]. split; [vm_compute; apply H1; lra|].
  vm_compute. intros H. injection H. intros. lra.
Qed.

(** C4, amended: in the force-directed, circular, grid and organic layouts a
    dangling edge has no effect (same returned nodes, same heap, hence same
    positions) and the call returns; every algorithm, tree included, returns;
    the dagre and ELK engines hand every edge to their solver. *)
Theorem dangling_edge_ignored_outside_tree :
  (forall random nodes es1 edge es2 (options : RequiredOptions) (h : heap),
     r_algorithm options <> Tree -> dangling h nodes edge ->
     layout random (mkEngine nodes (es1 ++ edge :: es2) options) h
     = layout random (mkEngine nodes (es1 ++ es2) options) h) /\
  (forall random (this : CustomLayoutEngine) (h : heap),
     exists out, layout random this h = Some out) /\
  (forall nodes edges config,
     setEdge_calls (DagreLayoutEngine.build_graph nodes edges config)
     = map (fun e => (source e, target e)) edges /\
     map (fun e => (elk_sources e, elk_targets e))
         (elk_edges (ElkJSLayoutEngine.build_graph nodes edges config))
     = map (fun e => ([source e], [target e])) edges).
Proof.
  split; [|split].
  - intros random nodes es1 edge es2 options h Halg Hd.
    unfold layout. cbn [this_options].
    destruct (r_algorithm options); try reflexivity.
    + f_equal. now apply forceDirectedLayout_dangling.
    + contradiction.
    + f_equal. now apply organicLayout_dangling.
  - intros random this h.
    destruct (layout_returns_and_keeps random this h) as (h' & E & _). eauto.
  - intros nodes edges config. split; [reflexivity|].
    cbn. rewrite map_map. reflexivity.
Qed.

(** Witness for C4: the force-directed layout of A and B with and without the
    edge ghost -> B. *)
Lemma dangling_edge_ignored_witness :
  layout no_jitter (mkEngine [0%nat; 1%nat] ([] ++ ghost_edge :: []) (sample_required Force))
         sample_heap
  = layout no_jitter (mkEngine [0%nat; 1%nat] ([] ++ []) (sample_required Force))
           sample_heap.
Proof.
  apply (proj1 dangling_edge_ignored_outside_tree).
  - discriminate.
  - exact ghost_edge_dangling.
Defined.

End CustomEngineFacts.

(** ** Layout changes positions only *)

Lemma Forall2_same_ids l l' :
  Forall2 same_but_position l l' ->
  length l' = length l /\ map id l' = map id l /\ map size l' = map size l.
Proof.
  induction 1 as [|n n' l l' (Hid & _ & Hsz & _) _ (IH1 & IH2 & IH3)]; cbn.
  - auto.
  - rewrite IH1, IH2, IH3, Hid, Hsz. auto.
Qed.

(** C5: a layout changes positions only.  Each of the five algorithms of the
    custom engine returns the very node objects it was given, each with the
    id, type, size and label it had; [applyLayout], with any engine and any
    solver behaviour, returns as many nodes, with the same ids and sizes in
    the same order, and the same edge list, configuration and metadata. *)
Theorem layout_changes_positions_only :
  (forall random (this : CustomLayoutEngine) (h : heap),
     exists h',
       CustomLayout.layout random this h = Some (this_nodes this, h') /\
       forall r, id (h' r) = id (h r) /\ ntype (h' r) = ntype (h r) /\
                 size (h' r) = size (h r) /\ label (h' r) = label (h r)) /\
  (forall dagre_layout elk_layout (data : SmartDiagramData) (engine : string) out,
     LayoutManager.applyLayout dagre_layout elk_layout data engine = Ok out ->
     length (nodes out) = length (nodes data) /\
     map id (nodes out) = map id (nodes data) /\
     map size (nodes out) = map size (nodes data) /\
     edges out = edges data /\ layout out = layout data /\
     metadata out = metadata data).
Proof.
  split.
  - intros random this h.
    destruct (layout_returns_and_keeps random this h) as (h' & E & H).
    exists h'. split; [exact E | exact H].
  - intros dagre_layout elk_layout data engine out Hout.
    destruct (String.eqb_spec engine "none") as [->|Hne].
    { rewrite applyLayout_skips in Hout by now left.
      injection Hout as <-. auto 6. }
    destruct (nodes data) as [|n0 ns] eqn:En.
    { rewrite applyLayout_skips in Hout by now right.
      injection Hout as <-. rewrite En. auto 6. }
    assert (Hnodes : nodes data <> []) by (rewrite En; discriminate).
    destruct (applyLayout_inv _ _ _ _ _ Hne Hnodes Hout) as (layouted & Hsame & ->).
    cbn [nodes edges layout metadata]. rewrite <- En.
    assert (H : Forall2 same_but_position (nodes data)
                  (map (LayoutManager.center (bounds_of layouted)) layouted)).
    { generalize (bounds_of layouted) as b. intros b. clear -Hsame.
      induction Hsame as [|n n' l l' Hn _ IH]; cbn; [constructor|].
      constructor; [|exact IH].
      eapply same_but_position_trans; [exact Hn | apply center_same]. }
    destruct (Forall2_same_ids _ _ H) as (H1 & H2 & H3). auto 6.
Qed.

(** Witness for C5: the sample diagram through the ELK engine. *)
Lemma layout_changes_positions_only_witness :
  map id [LayoutManager.center (bounds_of [node_A; node_B]) node_A;
          LayoutManager.center (bounds_of [node_A; node_B]) node_B]
  = map id (nodes sample_data).
Proof.
  exact (proj1 (proj2 (proj2 layout_changes_positions_only
           dagre_always_throws elk_always_rejects sample_data "elkjs"
           (mkData [LayoutManager.center (bounds_of [node_A; node_B]) node_A;
                    LayoutManager.center (bounds_of [node_A; node_B]) node_B]
                   (edges sample_data) (layout sample_data) (metadata sample_data))
           eq_refl))).
Defined.


(** * Further properties of the geometry primitives *)

Lemma leb_true a b : GeometryUtils.leb a b = true <-> a <= b.
Proof. unfold GeometryUtils.leb. destruct (Rle_dec a b); split; auto; discriminate. Qed.

(** X1: [clamp] never exceeds the upper bound; with [lo <= hi] its result lies
    in [lo, hi], a value already in range is returned as it is, and clamping
    twice is clamping once. *)
Theorem clamp_within_bounds :
  forall value lo hi : number,
    GeometryUtils.clamp value lo hi <= hi /\
    (lo <= hi ->
     lo <= GeometryUtils.clamp value lo hi /\
     (lo <= value <= hi -> GeometryUtils.clamp value lo hi = value) /\
     GeometryUtils.clamp (GeometryUtils.clamp value lo hi) lo hi
     = GeometryUtils.clamp value lo hi).
Proof.
  intros value lo hi. unfold GeometryUtils.clamp. split; [apply Rmin_r|].
  intros Hle. unfold Rmin, Rmax.
  repeat (destruct (Rle_dec _ _)); repeat split; intros; lra.
Qed.

(** Witness for X1: clamping 2500 into [-1000, 2000]. *)
Lemma clamp_within_bounds_witness :
  -1000 <= GeometryUtils.clamp 2500 (-1000) 2000 /\
  GeometryUtils.clamp 5 (-1000) 2000 = 5.
Proof.
  assert (H : -1000 <= 2000) by lra.
  assert (H5 : -1000 <= 5 <= 2000) by lra.
  split.
  - exact (proj1 (proj2 (clamp_within_bounds 2500 (-1000) 2000) H)).
  - exact (proj1 (proj2 (proj2 (clamp_within_bounds 5 (-1000) 2000) H)) H5).
Defined.

Lemma sum_squares_nonneg a b : 0 <= a ^ 2 + b ^ 2.
Proof. nra. Qed.

Lemma sum_squares_zero a b : a ^ 2 + b ^ 2 = 0 -> a = 0 /\ b = 0.
Proof.
  intros H. pose proof (pow2_ge_0 a). pose proof (pow2_ge_0 b).
  assert (Ha : a * a = 0) by (replace (a * a) with (a ^ 2) by ring; lra).
  assert (Hb : b * b = 0) by (replace (b * b) with (b ^ 2) by ring; lra).
  split; [apply Rsqr_0_uniq; exact Ha | apply Rsqr_0_uniq; exact Hb].
Qed.

(** X2: [distance] is a metric on positions: non-negative, symmetric, zero
    exactly between equal positions, and it obeys the triangle inequality. *)
Theorem distance_is_metric :
  forall p q r : Position,
    0 <= GeometryUtils.distance p q /\
    GeometryUtils.distance p q = GeometryUtils.distance q p /\
    (GeometryUtils.distance p q = 0 <-> p = q) /\
    GeometryUtils.distance p r <= GeometryUtils.distance p q + GeometryUtils.distance q r.
Proof.
  intros [x1 y1] [x2 y2] [x3 y3]. unfold GeometryUtils.distance. cbn [px py].
  split; [apply sqrt_pos|]. split; [f_equal; ring|]. split.
  - split.
    + intros H. apply sqrt_eq_0 in H; [|apply sum_squares_nonneg].
      apply sum_squares_zero in H. destruct H. f_equal; lra.
    + intros [= -> ->].
      replace ((x2 - x2) ^ 2 + (y2 - y2) ^ 2) with 0 by ring. apply sqrt_0.
  - set (a := x2 - x1). set (b := y2 - y1). set (c := x3 - x2). set (d := y3 - y2).
    replace (x3 - x1) with (a + c) by (subst a c; ring).
    replace (y3 - y1) with (b + d) by (subst b d; ring).
    pose proof (sqrt_pos (a ^ 2 + b ^ 2)) as Hu.
    pose proof (sqrt_pos (c ^ 2 + d ^ 2)) as Hv.
    pose proof (sqrt_sqrt _ (sum_squares_nonneg a b)) as Hu2.
    pose proof (sqrt_sqrt _ (sum_squares_nonneg c d)) as Hv2.
    set (u := sqrt (a ^ 2 + b ^ 2)) in *. set (v := sqrt (c ^ 2 + d ^ 2)) in *.
    rewrite <- (sqrt_square (u + v)) by lra.
    apply sqrt_le_1_alt.
    assert (Hcs : a * c + b * d <= u * v).
    { destruct (Rle_dec (a * c + b * d) 0) as [Hn|Hp]; [nra|].
      assert (Hsq : (a * c + b * d) ^ 2 <= (u * v) ^ 2).
      { replace ((u * v) ^ 2) with ((u * u) * (v * v)) by ring.
        rewrite Hu2, Hv2.
        assert (E : (a ^ 2 + b ^ 2) * (c ^ 2 + d ^ 2) - (a * c + b * d) ^ 2
                    = (a * d - b * c) ^ 2) by ring.
        pose proof (pow2_ge_0 (a * d - b * c)). lra. }
      assert (0 <= u * v) by (apply Rmult_le_pos; lra).
      apply Rsqr_incr_0_var; [|assumption].
      unfold Rsqr. replace ((a * c + b * d) * (a * c + b * d))
        with ((a * c + b * d) ^ 2) by ring.
      replace (u * v * (u * v)) with ((u * v) ^ 2) by ring. exact Hsq. }
    replace ((a + c) ^ 2 + (b + d) ^ 2)
      with (a ^ 2 + b ^ 2 + (c ^ 2 + d ^ 2) + 2 * (a * c + b * d)) by ring.
    rewrite <- Hu2, <- Hv2. nra.
Qed.

(** X3: [center] is the midpoint: it lies at half the distance of the two
    positions from each of them. *)
Theorem center_is_midpoint :
  forall p q : Position,
    GeometryUtils.distance (GeometryUtils.center p q) p = GeometryUtils.distance p q / 2 /\
    GeometryUtils.distance (GeometryUtils.center p q) q = GeometryUtils.distance p q / 2.
Proof.
  intros [x1 y1] [x2 y2]. unfold GeometryUtils.distance, GeometryUtils.center. cbn [px py].
  assert (H : forall s, 0 <= s -> sqrt (s / 4) = sqrt s / 2).
  { intros s Hs. unfold Rdiv at 1. rewrite sqrt_mult_alt by exact Hs.
    replace (/ 4) with ((/ 2) * (/ 2)) by lra.
    rewrite sqrt_square by lra. reflexivity. }
  split; rewrite <- H by apply sum_squares_nonneg; f_equal; field.
Qed.

(** ** Bounding box of positions *)

Lemma box_scan rest : forall a b c d,
  fold_left GeometryUtils.box_step rest (a, b, c, d) =
  (fold_left (fun m p => Rmin m (px p)) rest a,
   fold_left (fun m p => Rmin m (py p)) rest b,
   fold_left (fun m p => Rmax m (px p)) rest c,
   fold_left (fun m p => Rmax m (py p)) rest d).
Proof. induction rest as [|p rest IH]; intros a b c d; cbn; [reflexivity | apply IH]. Qed.

Lemma fold_min_spec {A} (f : A -> number) l : forall a,
  let m := fold_left (fun m p => Rmin m (f p)) l a in
  m <= a /\ (forall p, In p l -> m <= f p) /\ (m = a \/ exists p, In p l /\ m = f p).
Proof.
  induction l as [|x l IH]; intros a; cbn.
  - split; [lra|]. split; [tauto | now left].
  - destruct (IH (Rmin a (f x))) as (H1 & H2 & H3).
    pose proof (Rmin_l a (f x)). pose proof (Rmin_r a (f x)).
    split; [lra|]. split.
    + intros p [<-|Hp]; [lra | now apply H2].
    + destruct H3 as [H3 | (p & Hp & E)].
      * rewrite H3. unfold Rmin. destruct (Rle_dec a (f x)); [now left|].
        right. exists x. auto.
      * right. exists p. auto.
Qed.

Lemma fold_max_spec {A} (f : A -> number) l : forall a,
  let m := fold_left (fun m p => Rmax m (f p)) l a in
  a <= m /\ (forall p, In p l -> f p <= m) /\ (m = a \/ exists p, In p l /\ m = f p).
Proof.
  induction l as [|x l IH]; intros a; cbn.
  - split; [lra|]. split; [tauto | now left].
  - destruct (IH (Rmax a (f x))) as (H1 & H2 & H3).
    pose proof (Rmax_l a (f x)). pose proof (Rmax_r a (f x)).
    split; [lra|]. split.
    + intros p [<-|Hp]; [lra | now apply H2].
    + destruct H3 as [H3 | (p & Hp & E)].
      * rewrite H3. unfold Rmax. destruct (Rle_dec a (f x)); [|now left].
        right. exists x. auto.
      * right. exists p. auto.
Qed.

(** X4: [getBoundingBox] of no position is the zero box at the origin; of a
    non-empty list it is the tightest box around the positions: there are
    positions of the list with the least x, the greatest x, the least y and
    the greatest y, the corner of the box is at the least x and the least y,
    and its width and height are the greatest minus the least coordinate (as
    the code subtracts them), hence never negative. *)
Theorem getBoundingBox_is_tight :
  GeometryUtils.getBoundingBox [] = GeometryUtils.mkRect 0 0 0 0 /\
  (forall positions : list Position,
     positions <> [] ->
     exists leftmost rightmost topmost bottommost,
       In leftmost positions /\ In rightmost positions /\
       In topmost positions /\ In bottommost positions /\
       (forall p, In p positions ->
          px leftmost <= px p <= px rightmost /\
          py topmost <= py p <= py bottommost) /\
       GeometryUtils.getBoundingBox positions
       = GeometryUtils.mkRect (px leftmost) (py topmost)
           (px rightmost - px leftmost) (py bottommost - py topmost) /\
       0 <= GeometryUtils.rect_width (GeometryUtils.getBoundingBox positions) /\
       0 <= GeometryUtils.rect_height (GeometryUtils.getBoundingBox positions)).
Proof.
  split; [reflexivity|].
  intros positions Hne. destruct positions as [|first rest]; [contradiction|].
  unfold GeometryUtils.getBoundingBox. rewrite box_scan.
  destruct (fold_min_spec px rest (px first)) as (Hx1 & Hx2 & Hx3).
  destruct (fold_min_spec py rest (py first)) as (Hy1 & Hy2 & Hy3).
  destruct (fold_max_spec px rest (px first)) as (HX1 & HX2 & HX3).
  destruct (fold_max_spec py rest (py first)) as (HY1 & HY2 & HY3).
  cbv zeta in *.
  set (minX := fold_left (fun m p => Rmin m (px p)) rest (px first)) in *.
  set (minY := fold_left (fun m p => Rmin m (py p)) rest (py first)) in *.
  set (maxX := fold_left (fun m p => Rmax m (px p)) rest (px first)) in *.
  set (maxY := fold_left (fun m p => Rmax m (py p)) rest (py first)) in *.
  cbn [GeometryUtils.rect_width GeometryUtils.rect_height].
  assert (Hattain : forall (f : Position -> number) m,
            (m = f first \/ exists p, In p rest /\ m = f p) ->
            exists p, In p (first :: rest) /\ f p = m).
  { intros f m [->|(p & Hp & ->)]; [exists first | exists p]; split; auto;
      [now left | now right]. }
  destruct (Hattain px minX Hx3) as (l & Hl & El).
  destruct (Hattain px maxX HX3) as (r & Hr & Er).
  destruct (Hattain py minY Hy3) as (t & Ht & Et).
  destruct (Hattain py maxY HY3) as (b & Hb & Eb).
  exists l, r, t, b. rewrite El, Er, Et, Eb.
  split; [exact Hl|]. split; [exact Hr|]. split; [exact Ht|]. split; [exact Hb|].
  split; [|split; [reflexivity | lra]].
  intros p [<-|Hp]; [lra|].
  pose proof (Hx2 p Hp). pose proof (Hy2 p Hp).
  pose proof (HX2 p Hp). pose proof (HY2 p Hp). lra.
Qed.

(** Witness for X4: the box of (3,4) and (1,6) has a width that is not
    negative. *)
Lemma getBoundingBox_witness :
  0 <= GeometryUtils.rect_width
         (GeometryUtils.getBoundingBox [mkPosition 3 4; mkPosition 1 6]).
Proof.
  assert (Hne : [mkPosition 3 4; mkPosition 1 6] <> []) by discriminate.
  destruct (proj2 getBoundingBox_is_tight _ Hne)
    as (_ & _ & _ & _ & _ & _ & _ & _ & _ & _ & Hw & _).
  exact Hw.
Defined.

(** ** Segment intersection *)

(** The point at parameter [t] of the segment from [a] to [b]. *)
Lemma getLineIntersection_cases a1 a2 b1 b2 :
  let D := GeometryUtils.denom a1 a2 b1 b2 in
  let t := ((px a1 - px b1) * (py b1 - py b2) - (py a1 - py b1) * (px b1 - px b2)) / D in
  let u := - ((px a1 - px a2) * (py a1 - py b1) - (py a1 - py a2) * (px a1 - px b1)) / D in
  (GeometryUtils.getLineIntersection a1 a2 b1 b2
   = Some (mkPosition (px a1 + t * (px a2 - px a1)) (py a1 + t * (py a2 - py a1)))
   /\ 1e-10 <= Rabs D /\ 0 <= t <= 1 /\ 0 <= u <= 1) \/
  (GeometryUtils.getLineIntersection a1 a2 b1 b2 = None
   /\ (Rabs D < 1e-10 \/ ~ (0 <= t <= 1 /\ 0 <= u <= 1))).
Proof.
  intros D t u. subst D t u.
  unfold GeometryUtils.getLineIntersection, GeometryUtils.denom. cbv zeta.
  destruct (Rlt_dec _ _) as [Hd|Hd]; [right; auto|].
  repeat (destruct (Rle_dec _ _); [| right; split; [reflexivity | right; lra]]).
  left. split; [reflexivity|]. lra.
Qed.

Lemma Rabs_far_nonzero D : 1e-10 <= Rabs D -> D <> 0.
Proof. intros H ->. rewrite Rabs_R0 in H. lra. Qed.

Lemma getLineIntersection_cases_diagonals :
  GeometryUtils.getLineIntersection
    (mkPosition 0 0) (mkPosition 10 10) (mkPosition 0 10) (mkPosition 10 0)
  = Some (mkPosition 5 5).
Proof.
  destruct (getLineIntersection_cases
              (mkPosition 0 0) (mkPosition 10 10) (mkPosition 0 10) (mkPosition 10 0))
    as [(E & _) | (_ & H)]; cbv zeta in *; unfold GeometryUtils.denom in *;
    cbn [px py] in *.
  - rewrite E. f_equal. f_equal; lra.
  - exfalso.
    replace ((0 - 10) * (10 - 0) - (0 - 10) * (0 - 10)) with (-200) in H by lra.
    rewrite Rabs_left in H by lra. lra.
Qed.

Lemma intersection_on_both_segments :
  forall (a1 a2 b1 b2 p : Position),
    GeometryUtils.getLineIntersection a1 a2 b1 b2 = Some p ->
    exists t u,
      0 <= t <= 1 /\ 0 <= u <= 1 /\
      px p = px a1 + t * (px a2 - px a1) /\ py p = py a1 + t * (py a2 - py a1) /\
      px p = px b1 + u * (px b2 - px b1) /\ py p = py b1 + u * (py b2 - py b1).
Proof.
  intros a1 a2 b1 b2 p Hp.
  destruct (getLineIntersection_cases a1 a2 b1 b2) as [(E & HD & Ht & Hu) | (E & _)];
    [|congruence].
  rewrite Hp in E. injection E as ->.
  apply Rabs_far_nonzero in HD. unfold GeometryUtils.denom in HD.
  eexists. eexists. split; [exact Ht|]. split; [exact Hu|]. cbn [px py].
  split; [reflexivity|]. split; [reflexivity|].
  unfold GeometryUtils.denom. split; field; exact HD.
Qed.

(** X5: a point returned by [getLineIntersection] lies on both segments: it
    is the point at some parameter t in [0,1] of the first segment and at
    some parameter u in [0,1] of the second. *)
Theorem getLineIntersection_on_both_segments :
  forall (a1 a2 b1 b2 p : Position),
    GeometryUtils.getLineIntersection a1 a2 b1 b2 = Some p ->
    exists t u,
      0 <= t <= 1 /\ 0 <= u <= 1 /\
      px p = px a1 + t * (px a2 - px a1) /\ py p = py a1 + t * (py a2 - py a1) /\
      px p = px b1 + u * (px b2 - px b1) /\ py p = py b1 + u * (py b2 - py b1).
Proof. exact intersection_on_both_segments. Qed.

(** Witness for X5: the two diagonals of the square of side 10. *)
Lemma getLineIntersection_on_both_witness :
  exists t u,
    0 <= t <= 1 /\ 0 <= u <= 1 /\
    px (mkPosition 5 5) = px (mkPosition 0 0) + t * (px (mkPosition 10 10) - px (mkPosition 0 0)) /\
    py (mkPosition 5 5) = py (mkPosition 0 0) + t * (py (mkPosition 10 10) - py (mkPosition 0 0)) /\
    px (mkPosition 5 5) = px (mkPosition 0 10) + u * (px (mkPosition 10 0) - px (mkPosition 0 10)) /\
    py (mkPosition 5 5) = py (mkPosition 0 10) + u * (py (mkPosition 10 0) - py (mkPosition 0 10)).
Proof.
  apply (getLineIntersection_on_both_segments
           (mkPosition 0 0) (mkPosition 10 10) (mkPosition 0 10) (mkPosition 10 0)).
  apply getLineIntersection_cases_diagonals.
Defined.

Lemma intersection_of_crossing :
  forall (a1 a2 b1 b2 : Position) (t u : number),
    0 <= t <= 1 -> 0 <= u <= 1 ->
    1e-10 <= Rabs (GeometryUtils.denom a1 a2 b1 b2) ->
    px a1 + t * (px a2 - px a1) = px b1 + u * (px b2 - px b1) ->
    py a1 + t * (py a2 - py a1) = py b1 + u * (py b2 - py b1) ->
    GeometryUtils.getLineIntersection a1 a2 b1 b2
    = Some (mkPosition (px a1 + t * (px a2 - px a1)) (py a1 + t * (py a2 - py a1))).
Proof.
  intros [x1 y1] [x2 y2] [x3 y3] [x4 y4] t u Ht Hu HD Ex Ey. cbn [px py] in *.
  pose proof (Rabs_far_nonzero _ HD) as HD0.
  pose proof (getLineIntersection_cases
                (mkPosition x1 y1) (mkPosition x2 y2) (mkPosition x3 y3) (mkPosition x4 y4))
    as Hcases.
  cbv zeta in Hcases. cbn [px py] in Hcases.
  unfold GeometryUtils.denom in *. cbn [px py] in *.
  set (D := (x1 - x2) * (y3 - y4) - (y1 - y2) * (x3 - x4)) in *.
  assert (Et : ((x1 - x3) * (y3 - y4) - (y1 - y3) * (x3 - x4)) / D = t).
  { replace (x1 - x3) with (u * (x4 - x3) - t * (x2 - x1)) by lra.
    replace (y1 - y3) with (u * (y4 - y3) - t * (y2 - y1)) by lra.
    subst D. field. exact HD0. }
  assert (Eu : - ((x1 - x2) * (y1 - y3) - (y1 - y2) * (x1 - x3)) / D = u).
  { replace (x1 - x3) with (u * (x4 - x3) - t * (x2 - x1)) by lra.
    replace (y1 - y3) with (u * (y4 - y3) - t * (y2 - y1)) by lra.
    subst D. field. exact HD0. }
  rewrite Et, Eu in Hcases.
  destruct Hcases as [(E & _) | (_ & [H | H])]; [exact E | lra | tauto].
Qed.

(** X6: whenever the two segments meet at parameters t and u in [0,1] and
    their determinant is at least 1e-10 in absolute value,
    [getLineIntersection] returns that meeting point. *)
Theorem getLineIntersection_finds_crossing :
  forall (a1 a2 b1 b2 : Position) (t u : number),
    0 <= t <= 1 -> 0 <= u <= 1 ->
    1e-10 <= Rabs (GeometryUtils.denom a1 a2 b1 b2) ->
    px a1 + t * (px a2 - px a1) = px b1 + u * (px b2 - px b1) ->
    py a1 + t * (py a2 - py a1) = py b1 + u * (py b2 - py b1) ->
    GeometryUtils.getLineIntersection a1 a2 b1 b2
    = Some (mkPosition (px a1 + t * (px a2 - px a1)) (py a1 + t * (py a2 - py a1))).
Proof. exact intersection_of_crossing. Qed.

(** Witness for X6: the diagonals of the square of side 10 meet at their
    midpoints (t = u = 1/2). *)
Lemma getLineIntersection_finds_witness :
  GeometryUtils.getLineIntersection
    (mkPosition 0 0) (mkPosition 10 10) (mkPosition 0 10) (mkPosition 10 0)
  = Some (mkPosition (0 + 1 / 2 * (10 - 0)) (0 + 1 / 2 * (10 - 0))).
Proof.
  apply (getLineIntersection_finds_crossing
           (mkPosition 0 0) (mkPosition 10 10) (mkPosition 0 10) (mkPosition 10 0)
           (1 / 2) (1 / 2)); cbn [px py]; try lra.
  unfold GeometryUtils.denom. cbn [px py].
  replace ((0 - 10) * (10 - 0) - (0 - 10) * (0 - 10)) with (-200) by lra.
  rewrite Rabs_left by lra. lra.
Defined.

(** X7: the order of the two segments does not matter: the call with the
    segments exchanged returns the same position, or none in both cases. *)
Theorem getLineIntersection_symmetric :
  forall (a1 a2 b1 b2 : Position),
    GeometryUtils.getLineIntersection b1 b2 a1 a2
    = GeometryUtils.getLineIntersection a1 a2 b1 b2.
Proof.
  assert (Hswap : forall a1 a2 b1 b2,
             GeometryUtils.denom b1 b2 a1 a2 = - GeometryUtils.denom a1 a2 b1 b2)
    by (intros; unfold GeometryUtils.denom; ring).
  assert (Hone : forall a1 a2 b1 b2 p,
             GeometryUtils.getLineIntersection a1 a2 b1 b2 = Some p ->
             GeometryUtils.getLineIntersection b1 b2 a1 a2 = Some p).
  { intros a1 a2 b1 b2 p Hp.
    destruct (intersection_on_both_segments _ _ _ _ _ Hp)
      as (t & u & Ht & Hu & Ex & Ey & Ex' & Ey').
    destruct (getLineIntersection_cases a1 a2 b1 b2) as [(_ & HD & _) | (E & _)];
      [|congruence].
    rewrite (intersection_of_crossing b1 b2 a1 a2 u t Hu Ht).
    - destruct p as [x y]. cbn [px py] in *. now rewrite <- Ex', <- Ey'.
    - rewrite Hswap, Rabs_Ropp. exact HD.
    - lra.
    - lra. }
  intros a1 a2 b1 b2.
  destruct (GeometryUtils.getLineIntersection a1 a2 b1 b2) as [p|] eqn:E1.
  - now apply Hone.
  - destruct (GeometryUtils.getLineIntersection b1 b2 a1 a2) as [q|] eqn:E2;
      [|reflexivity].
    apply Hone in E2. congruence.
Qed.

(** ** Line against rectangle *)

Lemma side_intersections_spec s e rect q :
  In q (GeometryUtils.side_intersections s e rect) <->
  exists side, In side (GeometryUtils.rect_sides rect) /\
               GeometryUtils.getLineIntersection s e (fst side) (snd side) = Some q.
Proof.
  unfold GeometryUtils.side_intersections. rewrite in_flat_map. split.
  - intros (side & Hs & Hq). exists side. split; [exact Hs|].
    destruct (GeometryUtils.getLineIntersection s e (fst side) (snd side)); cbn in Hq.
    + destruct Hq as [->|[]]. reflexivity.
    + contradiction.
  - intros (side & Hs & E). exists side. split; [exact Hs|]. rewrite E. now left.
Qed.

Lemma fold_closer_spec s rest : forall first,
  let r := fold_left (GeometryUtils.closer s) rest first in
  In r (first :: rest) /\
  forall q, In q (first :: rest) ->
            GeometryUtils.distance s r <= GeometryUtils.distance s q.
Proof.
  induction rest as [|x rest IH]; intros first; cbn [fold_left].
  - split; [now left|]. intros q [<-|[]]. lra.
  - destruct (IH (GeometryUtils.closer s first x)) as [Hin Hmin]. split.
    + destruct Hin as [E|Hin]; [|right; now right].
      rewrite <- E. unfold GeometryUtils.closer.
      destruct (Rlt_dec _ _); [right; now left | now left].
    + intros q Hq.
      assert (Hc : GeometryUtils.distance s (GeometryUtils.closer s first x)
                   <= GeometryUtils.distance s first /\
                   GeometryUtils.distance s (GeometryUtils.closer s first x)
                   <= GeometryUtils.distance s x).
      { unfold GeometryUtils.closer. destruct (Rlt_dec _ _); lra. }
      pose proof (Hmin _ (or_introl eq_refl)) as H0.
      destruct Hq as [<-|[<-|Hq]]; [lra | lra |].
      apply Hmin. now right.
Qed.

Lemma on_side_within_rect rect side p u :
  0 <= GeometryUtils.rect_width rect -> 0 <= GeometryUtils.rect_height rect ->
  In side (GeometryUtils.rect_sides rect) -> 0 <= u <= 1 ->
  px p = px (fst side) + u * (px (snd side) - px (fst side)) ->
  py p = py (fst side) + u * (py (snd side) - py (fst side)) ->
  GeometryUtils.rect_x rect <= px p
    <= GeometryUtils.rect_x rect + GeometryUtils.rect_width rect /\
  GeometryUtils.rect_y rect <= py p
    <= GeometryUtils.rect_y rect + GeometryUtils.rect_height rect.
Proof.
  intros Hw Hh Hside Hu Ex Ey.
  assert (0 <= u * GeometryUtils.rect_width rect <= GeometryUtils.rect_width rect) by nra.
  assert (0 <= u * GeometryUtils.rect_height rect <= GeometryUtils.rect_height rect) by nra.
  unfold GeometryUtils.rect_sides in Hside.
  destruct Hside as [<-|[<-|[<-|[<-|[]]]]]; cbn [fst snd px py] in Ex, Ey; lra.
Qed.

(** X8: over exact reals, [getLineRectIntersection] returns none exactly
    when the line meets no side of the rectangle; otherwise the position it
    returns is the intersection with some side, no intersection with any
    side is closer to the start of the line, and for a rectangle of
    non-negative size its coordinates lie between the sides of the
    rectangle. *)
Theorem getLineRectIntersection_closest_on_boundary :
  forall (lineStart lineEnd : Position) (rect : GeometryUtils.Rect),
    (GeometryUtils.getLineRectIntersection lineStart lineEnd rect = None <->
     forall side, In side (GeometryUtils.rect_sides rect) ->
       GeometryUtils.getLineIntersection lineStart lineEnd (fst side) (snd side) = None) /\
    (forall p,
       GeometryUtils.getLineRectIntersection lineStart lineEnd rect = Some p ->
       (exists side, In side (GeometryUtils.rect_sides rect) /\
          GeometryUtils.getLineIntersection lineStart lineEnd (fst side) (snd side)
          = Some p) /\
       (forall side q, In side (GeometryUtils.rect_sides rect) ->
          GeometryUtils.getLineIntersection lineStart lineEnd (fst side) (snd side)
          = Some q ->
          GeometryUtils.distance lineStart p <= GeometryUtils.distance lineStart q) /\
       (0 <= GeometryUtils.rect_width rect -> 0 <= GeometryUtils.rect_height rect ->
        GeometryUtils.rect_x rect <= px p
          <= GeometryUtils.rect_x rect + GeometryUtils.rect_width rect /\
        GeometryUtils.rect_y rect <= py p
          <= GeometryUtils.rect_y rect + GeometryUtils.rect_height rect)).
Proof.
  intros s e rect. unfold GeometryUtils.getLineRectIntersection.
  pose proof (side_intersections_spec s e rect) as Hspec.
  destruct (GeometryUtils.side_intersections s e rect) as [|first rest] eqn:Ei.
  - split.
    + split; [|reflexivity]. intros _ side Hside.
      destruct (GeometryUtils.getLineIntersection s e (fst side) (snd side)) as [q|] eqn:E;
        [|reflexivity].
      exfalso. apply (proj2 (Hspec q)). eauto.
    + intros p [=].
  - split.
    + split; [discriminate|]. intros Hnone. exfalso.
      destruct (proj1 (Hspec first) (or_introl eq_refl)) as (side & Hside & E).
      rewrite (Hnone side Hside) in E. discriminate.
    + intros p [= <-].
      destruct (fold_closer_spec s rest first) as [Hin Hmin]. cbv zeta in *.
      set (p := fold_left (GeometryUtils.closer s) rest first) in *.
      destruct (proj1 (Hspec p) Hin) as (side & Hside & E).
      split; [eauto|]. split.
      * intros side' q Hside' E'. apply Hmin. apply Hspec. eauto.
      * intros Hw Hh.
        destruct (intersection_on_both_segments _ _ _ _ _ E)
          as (t & u & _ & Hu & _ & _ & Ex & Ey).
        eapply on_side_within_rect; eauto.
Qed.


Ltac decide_reals :=
  repeat match goal with
         | |- context [Rlt_dec ?a ?b] => destruct (Rlt_dec a b)
         | |- context [Rle_dec ?a ?b] => destruct (Rle_dec a b)
         | H : context [Rabs ?a] |- _ => unfold Rabs in H; destruct (Rcase_abs a)
         end.

Lemma horizontal_line_hits_left_side :
  GeometryUtils.getLineRectIntersection (mkPosition (-5) 5) (mkPosition 5 5)
    (GeometryUtils.mkRect 0 0 10 10) = Some (mkPosition 0 5).
Proof.
  unfold GeometryUtils.getLineRectIntersection, GeometryUtils.side_intersections,
    GeometryUtils.rect_sides, GeometryUtils.getLineIntersection.
  cbn [flat_map fst snd px py GeometryUtils.rect_x GeometryUtils.rect_y
       GeometryUtils.rect_width GeometryUtils.rect_height].
  decide_reals; try (exfalso; lra); cbn [app fold_left].
  f_equal. f_equal; lra.
Qed.

(** Witness for X8: the horizontal line from (-5,5) to (5,5) enters the
    square [0,10]x[0,10] through its left side, at (0,5). *)
Lemma getLineRectIntersection_witness :
  0 <= px (mkPosition 0 5) <= 0 + 10 /\ 0 <= py (mkPosition 0 5) <= 0 + 10.
Proof.
  assert (Hw : 0 <= 10) by lra.
  exact (proj2 (proj2 (proj2 (getLineRectIntersection_closest_on_boundary
           (mkPosition (-5) 5) (mkPosition 5 5) (GeometryUtils.mkRect 0 0 10 10))
           (mkPosition 0 5) horizontal_line_hits_left_side)) Hw Hw).
Defined.

(** ** Regular polygons and angle units *)

Lemma distance_on_circle' cx cy a r :
  0 <= r ->
  GeometryUtils.distance (mkPosition (cx + r * cos a) (cy + r * sin a))
                         (mkPosition cx cy) = r.
Proof.
  intros Hr. unfold GeometryUtils.distance. cbn [px py].
  replace ((cx - (cx + r * cos a)) ^ 2 + (cy - (cy + r * sin a)) ^ 2)
    with (r ^ 2 * (Rsqr (sin a) + Rsqr (cos a))) by (unfold Rsqr; ring).
  rewrite sin2_cos2, Rmult_1_r. now apply sqrt_pow2.
Qed.

Lemma distance_of_chord cx cy a b r :
  0 <= r ->
  GeometryUtils.distance (mkPosition (cx + r * cos a) (cy + r * sin a))
                         (mkPosition (cx + r * cos b) (cy + r * sin b))
  = r * sqrt (2 - 2 * cos (b - a)).
Proof.
  intros Hr. unfold GeometryUtils.distance. cbn [px py].
  pose proof (sin2_cos2 a) as Ha. pose proof (sin2_cos2 b) as Hb.
  unfold Rsqr in Ha, Hb.
  replace ((cx + r * cos b - (cx + r * cos a)) ^ 2
           + (cy + r * sin b - (cy + r * sin a)) ^ 2)
    with (r * r * ((sin b * sin b + cos b * cos b) + (sin a * sin a + cos a * cos a)
                   - 2 * (cos b * cos a + sin b * sin a))) by ring.
  rewrite Ha, Hb, <- cos_minus.
  replace (1 + 1 - 2 * cos (b - a)) with (2 - 2 * cos (b - a)) by ring.
  pose proof (COS_bound (b - a)) as [_ Hc].
  rewrite sqrt_mult by nra. now rewrite sqrt_square.
Qed.

(** X9: over exact reals, [generatePolygonPoints] returns one point per
    side; with a non-negative radius every point lies at distance [radius]
    from the center, and the distance between the points with indices i and
    j is [radius * sqrt(2 - 2 * cos((j - i) * 2 * pi / sides))]: it depends
    on j - i only, so all sides of the polygon have the same length; and the
    first point is the one straight above the center. *)
Theorem generatePolygonPoints_on_circle :
  forall (center : Position) (radius : number) (sides : nat),
    let points := GeometryUtils.generatePolygonPoints center radius sides in
    length points = sides /\
    (0 <= radius ->
     (forall p, In p points -> GeometryUtils.distance p center = radius) /\
     (forall i j p q, points !! i = Some p -> points !! j = Some q ->
        GeometryUtils.distance p q
        = radius * sqrt (2 - 2 * cos ((INR j - INR i) * 2 * PI / INR sides)))) /\
    ((0 < sides)%nat ->
     points !! 0%nat = Some (mkPosition (px center) (py center - radius))).
Proof.
  intros [cx cy] radius sides points. subst points.
  unfold GeometryUtils.generatePolygonPoints. cbn [px py].
  split; [now rewrite length_map, length_seq|]. split.
  - intros Hr. split.
    + intros p Hp. apply in_map_iff in Hp. destruct Hp as (i & <- & _).
      exact (distance_on_circle' cx cy (INR i * 2 * PI / INR sides - PI / 2) radius Hr).
    + intros i j p q Hp Hq.
      change (map ?f ?l) with (f <$> l) in Hp, Hq.
      rewrite list_lookup_fmap in Hp, Hq.
      destruct (seq 0 sides !! i) as [i'|] eqn:Ei; [|discriminate].
      destruct (seq 0 sides !! j) as [j'|] eqn:Ej; [|discriminate].
      apply lookup_seq in Ei as [-> _]. apply lookup_seq in Ej as [-> _].
      cbn in Hp, Hq. injection Hp as <-. injection Hq as <-.
      rewrite (distance_of_chord cx cy _ _ radius Hr).
      replace (INR j * 2 * PI / INR sides - PI / 2
               - (INR i * 2 * PI / INR sides - PI / 2))
        with ((INR j - INR i) * 2 * PI / INR sides)
        by (unfold Rdiv; ring).
      reflexivity.
  - intros Hs. destruct sides as [|k]; [lia|].
    cbn [seq map]. cbn [lookup list_lookup]. f_equal.
    replace (INR 0 * 2 * PI / INR (S k) - PI / 2) with (- (PI / 2))
      by (cbn [INR]; unfold Rdiv; ring).
    rewrite cos_neg, sin_neg, cos_PI2, sin_PI2. f_equal; ring.
Qed.

(** Witness for X9: a hexagon of radius 2 around (1,1). *)
Lemma generatePolygonPoints_witness :
  GeometryUtils.generatePolygonPoints (mkPosition 1 1) 2 6 !! 0%nat
  = Some (mkPosition (px (mkPosition 1 1)) (py (mkPosition 1 1) - 2)) /\
  (forall p, In p (GeometryUtils.generatePolygonPoints (mkPosition 1 1) 2 6) ->
     GeometryUtils.distance p (mkPosition 1 1) = 2).
Proof.
  assert (H6 : (0 < 6)%nat) by lia.
  assert (H2 : 0 <= 2) by lra.
  destruct (generatePolygonPoints_on_circle (mkPosition 1 1) 2 6) as (_ & Hc & Hf).
  split; [exact (Hf H6)|].
  exact (proj1 (Hc H2)).
Defined.

(** X10: [degToRad] and [radToDeg] are inverse to each other, and 180
    degrees are pi radians. *)
Theorem degToRad_radToDeg_inverse :
  forall v : number,
    GeometryUtils.radToDeg (GeometryUtils.degToRad v) = v /\
    GeometryUtils.degToRad (GeometryUtils.radToDeg v) = v /\
    GeometryUtils.degToRad 180 = PI.
Proof.
  intros v. unfold GeometryUtils.radToDeg, GeometryUtils.degToRad.
  pose proof PI_neq0. repeat split; field; assumption.
Qed.

(** * Further properties of the dagre and ELK engines and of the manager *)

(** X11: the two engines read a layout direction alike: for every direction
    string, known or not, the ELK direction is the one that names the same
    flow as the dagre [rankdir] (TB/DOWN, BT/UP, LR/RIGHT, RL/LEFT), and an
    unknown string gives TB and DOWN. *)
Theorem direction_tables_agree :
  forall direction : string,
    ElkJSLayoutEngine.getElkDirection direction
    = elk_of_rankdir (DagreLayoutEngine.rankdir_of direction) /\
    In (DagreLayoutEngine.rankdir_of direction) ["TB"; "BT"; "LR"; "RL"] /\
    (~ In direction ["top-bottom"; "vertical"; "bottom-top"; "left-right";
                     "horizontal"; "right-left"] ->
     DagreLayoutEngine.rankdir_of direction = "TB" /\
     ElkJSLayoutEngine.getElkDirection direction = "DOWN").
Proof.
  intros d. unfold ElkJSLayoutEngine.getElkDirection, DagreLayoutEngine.rankdir_of.
  destruct (String.eqb_spec d "top-bottom");
    [subst; cbn; intuition|].
  destruct (String.eqb_spec d "vertical"); [subst; cbn; intuition|].
  destruct (String.eqb_spec d "bottom-top"); [subst; cbn; intuition|].
  destruct (String.eqb_spec d "left-right"); [subst; cbn; intuition|].
  destruct (String.eqb_spec d "horizontal"); [subst; cbn; intuition|].
  destruct (String.eqb_spec d "right-left"); [subst; cbn; intuition|].
  cbn. intuition.
Qed.

(** Witness for X11: an unknown direction. *)
Lemma direction_tables_witness :
  DagreLayoutEngine.rankdir_of "diagonal" = "TB" /\
  ElkJSLayoutEngine.getElkDirection "diagonal" = "DOWN".
Proof.
  apply (proj2 (proj2 (direction_tables_agree "diagonal"))).
  cbn. intros H. repeat (destruct H as [H|H]; [discriminate H|]). exact H.
Defined.









(** * Further properties of the custom engine *)

Section MoreCustomFacts.
Import CustomLayout.

(** ** Objects outside the node list *)

Lemma forEach_frame {A} (l : list A) (body : A -> nat -> heap -> heap) h r :
  (forall a i s, a ∈ l -> body a i s r = s r) -> forEach l body h r = h r.
Proof.
  intros Hb. apply (forEach_invariant (fun s => s r = h r)); [|reflexivity].
  intros a i s Ha Hs. now rewrite Hb.
Qed.

Lemma apply_force_other this forces node index h r :
  r <> node -> apply_force this forces node index h r = h r.
Proof.
  intros Hr. unfold apply_force. destruct (forces !! index); [|reflexivity].
  now rewrite set_y_other, set_x_other, set_y_other, set_x_other.
Qed.

Lemma force_iteration_frame this nodes h r :
  r ∉ nodes -> force_iteration this nodes h r = h r.
Proof.
  intros Hr. unfold force_iteration. apply forEach_frame.
  intros a i s Ha. apply apply_force_other. intros ->. contradiction.
Qed.

Lemma forceDirectedLayout_frame this h r :
  r ∉ this_nodes this -> snd (forceDirectedLayout this h) r = h r.
Proof.
  intros Hr. unfold forceDirectedLayout. cbn [snd].
  induction (r_iterations (this_options this)) as [|k IH]; [reflexivity|].
  rewrite Nat.iter_succ, force_iteration_frame by exact Hr. exact IH.
Qed.

Lemma bfs_loop_preserves (P : bfs_state -> Prop) h0 nodes edges :
  (forall e rest st,
     bfs_invariant h0 nodes edges st -> queue st = e :: rest -> P st ->
     P (bfs_step (build_nodeMap h0 nodes) (build_adjacency h0 nodes edges) e rest st)) ->
  forall fuel st st',
    bfs_invariant h0 nodes edges st -> P st ->
    bfs_loop (build_nodeMap h0 nodes) (build_adjacency h0 nodes edges) fuel st = Some st' ->
    P st'.
Proof.
  intros Hstep fuel. induction fuel as [|fuel IH]; intros st st' I HP; cbn [bfs_loop];
    destruct (queue st) as [|e rest] eqn:Hq; try discriminate.
  - now intros [= <-].
  - now intros [= <-].
  - apply IH; [now apply bfs_step_invariant | now apply Hstep].
Qed.

Lemma treeLayout_frame this h h' r :
  r ∉ this_nodes this -> treeLayout this h = Some (this_nodes this, h') -> h' r = h r.
Proof.
  intros Hr. unfold treeLayout, treeLayout_run.
  destruct (bfs_loop _ _ _ _) as [st|] eqn:Hrun; [|discriminate].
  intros [= <-].
  apply (bfs_loop_preserves (fun st => mem st r = h r) h (this_nodes this)
           (this_edges this)) with (4 := Hrun);
    [| apply tree_start_invariant | reflexivity].
  intros e rest st0 I Hq HP. unfold bfs_step.
  destruct (decide _); cbn [mem]; [exact HP|].
  assert (r <> q_node e).
  { intros ->. apply Hr. apply (inv_queue_nodes _ _ _ _ I). rewrite Hq. now left. }
  now rewrite set_y_other, set_x_other.
Qed.

Lemma circularLayout_frame this h r :
  r ∉ this_nodes this -> snd (circularLayout this h) r = h r.
Proof.
  intros Hr. rewrite circularLayout_unfold. cbn [snd]. now apply forEach_place_notin.
Qed.

Lemma gridLayout_frame this h r :
  r ∉ this_nodes this -> snd (gridLayout this h) r = h r.
Proof.
  intros Hr. unfold gridLayout. cbn [snd]. apply forEach_frame.
  intros a i s Ha. assert (r <> a) by (intros ->; contradiction).
  now rewrite set_y_other, set_x_other.
Qed.

Lemma organicLayout_frame random this h r :
  r ∉ this_nodes this -> snd (organicLayout random this h) r = h r.
Proof.
  intros Hr. unfold organicLayout. rewrite circularLayout_unfold.
  rewrite forceDirectedLayout_frame by exact Hr.
  rewrite forEach_frame.
  - now apply forEach_place_notin.
  - intros a i s Ha. assert (r <> a) by (intros ->; contradiction).
    now rewrite set_y_other, set_x_other.
Qed.

Lemma returned_heap (out : list loc * heap) l h' :
  Some out = Some (l, h') -> h' = snd out.
Proof. now intros [= ->]. Qed.

Lemma layout_frame random (this : CustomLayoutEngine) (h : heap) :
  exists h',
    layout random this h = Some (this_nodes this, h') /\
    heap_same_but_positions h h' /\
    forall r, r ∉ this_nodes this -> h' r = h r.
Proof.
  destruct (layout_returns_and_keeps random this h) as (h' & E & Hsame).
  exists h'. split; [exact E|]. split; [exact Hsame|]. intros r Hr. revert E.
  unfold layout.
  destruct (r_algorithm (this_options this)); intros E.
  - rewrite (returned_heap _ _ _ E). now apply forceDirectedLayout_frame.
  - rewrite (returned_heap _ _ _ E). now apply circularLayout_frame.
  - now apply (treeLayout_frame this h).
  - rewrite (returned_heap _ _ _ E). now apply gridLayout_frame.
  - rewrite (returned_heap _ _ _ E). now apply organicLayout_frame.
Qed.

(** X15: whatever the algorithm, the custom engine writes only into the node
    objects of the list it was given: every other object of the heap is the
    same after the call. *)
Theorem layout_touches_listed_nodes_only :
  forall random (this : CustomLayoutEngine) (h : heap),
    exists h',
      layout random this h = Some (this_nodes this, h') /\
      forall r, r ∉ this_nodes this -> h' r = h r.
Proof.
  intros random this h.
  destruct (layout_frame random this h) as (h' & E & _ & Hframe).
  exists h'. split; [exact E | exact Hframe].
Qed.

(** Witness for X15: the tree layout of object 0 alone leaves object 1 as it
    was. *)
Lemma layout_touches_listed_witness :
  exists h',
    layout no_jitter (mkEngine [0%nat] [] (sample_required Tree)) sample_heap
    = Some ([0%nat], h') /\
    h' 1%nat = sample_heap 1%nat.
Proof.
  destruct (layout_touches_listed_nodes_only no_jitter
              (mkEngine [0%nat] [] (sample_required Tree)) sample_heap) as (h' & E & H).
  exists h'. split; [exact E|]. apply H.
  cbn [this_nodes]. intros Hin. apply list_elem_of_singleton in Hin. discriminate.
Defined.

(** ** The safety bound of the force-directed layout *)

Lemma clamp_between value lo hi :
  lo <= hi -> lo <= GeometryUtils.clamp value lo hi <= hi.
Proof.
  intros H. unfold GeometryUtils.clamp, Rmin, Rmax.
  repeat (destruct (Rle_dec _ _)); lra.
Qed.

Lemma apply_force_self this forces node index force h :
  forces !! index = Some force ->
  in_force_bounds (position (apply_force this forces node index h node)).
Proof.
  intros E. unfold apply_force. rewrite E.
  rewrite set_y_same. cbn [position px py]. rewrite set_x_same. cbn [position px py].
  split; apply clamp_between; lra.
Qed.

Lemma apply_force_keeps_bounded this forces node index h r :
  in_force_bounds (position (h r)) ->
  in_force_bounds (position (apply_force this forces node index h r)).
Proof.
  intros Hb. destruct (decide (r = node)) as [->|Hr].
  - destruct (forces !! index) as [force|] eqn:E.
    + eapply apply_force_self; eauto.
    + unfold apply_force. now rewrite E.
  - now rewrite apply_force_other.
Qed.

Lemma forEach_apply_force_bounded this nodes : forall forces h r,
  length forces = length nodes -> r ∈ nodes ->
  in_force_bounds (position (forEach nodes (apply_force this forces) h r)).
Proof.
  induction nodes as [|a l IH]; intros forces h r Hlen Hr; [inversion Hr|].
  destruct forces as [|f fs]; [discriminate|].
  rewrite forEach_cons.
  rewrite (forEach_ext l _ (apply_force this fs)) by reflexivity.
  destruct (decide (r ∈ l)) as [Hin|Hnin].
  - apply IH; [cbn in Hlen; lia | exact Hin].
  - assert (r = a) as -> by (inversion Hr; subst; [reflexivity | contradiction]).
    apply (forEach_invariant (fun s => in_force_bounds (position (s a)))).
    + intros b i s _ Hs. now apply apply_force_keeps_bounded.
    + now apply (apply_force_self this (f :: fs) a 0%nat f).
Qed.

Lemma length_add_x forces idx v : length (add_x forces idx v) = length forces.
Proof. apply length_alter. Qed.

Lemma length_add_y forces idx v : length (add_y forces idx v) = length forces.
Proof. apply length_alter. Qed.

Lemma length_repel this h nodes forces ij :
  length (repel this h nodes forces ij) = length forces.
Proof.
  unfold repel. destruct (nodes !! ij.1), (nodes !! ij.2); try reflexivity.
  now rewrite length_add_y, length_add_x, length_add_y, length_add_x.
Qed.

Lemma length_at_node nodes node upd forces :
  (forall fs i, length (upd fs i) = length fs) ->
  length (at_node nodes node upd forces) = length forces.
Proof. intros H. unfold at_node. destruct (index_of nodes node); auto. Qed.

Lemma length_attract this h nodes forces edge :
  length (attract this h nodes forces edge) = length forces.
Proof.
  unfold attract.
  destruct (find_node h nodes (source edge)), (find_node h nodes (target edge));
    try reflexivity.
  rewrite !length_at_node; auto using length_add_x, length_add_y.
Qed.

Lemma length_fold_left {A B} (f : list A -> B -> list A) l : forall acc,
  (forall acc b, length (f acc b) = length acc) ->
  length (fold_left f l acc) = length acc.
Proof.
  induction l as [|b l IH]; intros acc H; cbn; [reflexivity|].
  rewrite IH by exact H. apply H.
Qed.

Lemma force_iteration_bounded this nodes h r :
  r ∈ nodes -> in_force_bounds (position (force_iteration this nodes h r)).
Proof.
  intros Hr. unfold force_iteration. apply forEach_apply_force_bounded; [|exact Hr].
  rewrite length_fold_left by (intros; apply length_attract).
  rewrite length_fold_left by (intros; apply length_repel).
  apply length_map.
Qed.

Lemma forceDirectedLayout_bounded this h r :
  (1 <= r_iterations (this_options this))%nat -> r ∈ this_nodes this ->
  in_force_bounds (position (snd (forceDirectedLayout this h) r)).
Proof.
  intros Hit Hr. unfold forceDirectedLayout. cbn [snd].
  destruct (r_iterations (this_options this)) as [|k]; [lia|].
  rewrite Nat.iter_succ. now apply force_iteration_bounded.
Qed.

(** X16: after a force-directed layout of at least one round, and after any
    organic layout, every node of the list has both coordinates within
    [-1000, 2000]. *)
Theorem force_layout_stays_in_bounds :
  forall random (this : CustomLayoutEngine) (h : heap),
    (r_algorithm (this_options this) = Force /\
     (1 <= r_iterations (this_options this))%nat) \/
    r_algorithm (this_options this) = Organic ->
    exists h',
      layout random this h = Some (this_nodes this, h') /\
      forall r, r ∈ this_nodes this -> in_force_bounds (position (h' r)).
Proof.
  intros random this h Halg. unfold layout.
  destruct Halg as [[-> Hit] | ->].
  - exists (snd (forceDirectedLayout this h)). split; [reflexivity|].
    intros r Hr. now apply forceDirectedLayout_bounded.
  - exists (snd (organicLayout random this h)). split.
    + destruct (organicLayout_keeps random this h) as [E _].
      rewrite <- E. now destruct (organicLayout random this h).
    + intros r Hr. unfold organicLayout. rewrite circularLayout_unfold.
      apply forceDirectedLayout_bounded; [cbn; lia | exact Hr].
Qed.

(** Witness for X16: node B starts at (10, 20) next to A; 100 rounds. *)
Lemma force_layout_bounds_witness :
  exists h',
    layout no_jitter (mkEngine [0%nat; 1%nat] [] (sample_required Force)) sample_heap
    = Some ([0%nat; 1%nat], h') /\
    in_force_bounds (position (h' 1%nat)).
Proof.
  assert (Halg : (r_algorithm (this_options
                    (mkEngine [0%nat; 1%nat] [] (sample_required Force))) = Force /\
                  (1 <= r_iterations (this_options
                    (mkEngine [0%nat; 1%nat] [] (sample_required Force))))%nat) \/
                 r_algorithm (this_options
                    (mkEngine [0%nat; 1%nat] [] (sample_required Force))) = Organic).
  { left. split; [reflexivity | cbn; lia]. }
  destruct (force_layout_stays_in_bounds no_jitter
              (mkEngine [0%nat; 1%nat] [] (sample_required Force)) sample_heap Halg)
    as (h' & E & H).
  exists h'. split; [exact E|]. apply H. right. left.
Defined.

(** ** The forces of a round cancel *)

Lemma total_cons f fs :
  total_x (f :: fs) = px f + total_x fs /\ total_y (f :: fs) = py f + total_y fs.
Proof. split; reflexivity. Qed.

Lemma total_add_x forces idx v :
  (idx < length forces)%nat ->
  total_x (add_x forces idx v) = total_x forces + v /\
  total_y (add_x forces idx v) = total_y forces.
Proof.
  revert idx. induction forces as [|f fs IH]; intros idx Hlt; [cbn in Hlt; lia|].
  destruct idx as [|idx].
  - change (add_x (f :: fs) 0 v) with (mkPosition (px f + v) (py f) :: fs).
    destruct (total_cons (mkPosition (px f + v) (py f)) fs) as [-> ->].
    destruct (total_cons f fs) as [-> ->]. cbn [px py]. split; lra.
  - change (add_x (f :: fs) (S idx) v) with (f :: add_x fs idx v).
    destruct (total_cons f (add_x fs idx v)) as [-> ->].
    destruct (total_cons f fs) as [-> ->].
    destruct (IH idx) as [-> ->]; [cbn in Hlt; lia|]. split; lra.
Qed.

Lemma total_add_y forces idx v :
  (idx < length forces)%nat ->
  total_x (add_y forces idx v) = total_x forces /\
  total_y (add_y forces idx v) = total_y forces + v.
Proof.
  revert idx. induction forces as [|f fs IH]; intros idx Hlt; [cbn in Hlt; lia|].
  destruct idx as [|idx].
  - change (add_y (f :: fs) 0 v) with (mkPosition (px f) (py f + v) :: fs).
    destruct (total_cons (mkPosition (px f) (py f + v)) fs) as [-> ->].
    destruct (total_cons f fs) as [-> ->]. cbn [px py]. split; lra.
  - change (add_y (f :: fs) (S idx) v) with (f :: add_y fs idx v).
    destruct (total_cons f (add_y fs idx v)) as [-> ->].
    destruct (total_cons f fs) as [-> ->].
    destruct (IH idx) as [-> ->]; [cbn in Hlt; lia|]. split; lra.
Qed.

Lemma total_repel this h nodes forces ij :
  length forces = length nodes ->
  total_x (repel this h nodes forces ij) = total_x forces /\
  total_y (repel this h nodes forces ij) = total_y forces.
Proof.
  intros Hlen. unfold repel.
  destruct (nodes !! ij.1) as [n1|] eqn:E1; [|auto].
  destruct (nodes !! ij.2) as [n2|] eqn:E2; [|auto].
  apply lookup_lt_Some in E1, E2. rewrite <- Hlen in E1, E2.
  set (v := cos _ * _). set (w := sin _ * _).
  destruct (total_add_x forces ij.1 (- v) E1) as [A1 A2].
  destruct (total_add_y (add_x forces ij.1 (- v)) ij.1 (- w)) as [B1 B2];
    [now rewrite length_add_x|].
  destruct (total_add_x (add_y (add_x forces ij.1 (- v)) ij.1 (- w)) ij.2 v) as [C1 C2];
    [now rewrite length_add_y, length_add_x|].
  destruct (total_add_y (add_x (add_y (add_x forces ij.1 (- v)) ij.1 (- w)) ij.2 v)
              ij.2 w) as [D1 D2];
    [now rewrite length_add_x, length_add_y, length_add_x|].
  rewrite D1, D2, C1, C2, B1, B2, A1, A2. split; lra.
Qed.

Lemma index_of_lt nodes node idx :
  index_of nodes node = Some idx -> (idx < length nodes)%nat.
Proof.
  revert idx. induction nodes as [|n l IH]; intros idx; cbn; [discriminate|].
  destruct (Nat.eqb n node).
  - intros [= <-]. lia.
  - destruct (index_of l node) as [i|]; [|discriminate].
    intros [= <-]. specialize (IH i eq_refl). lia.
Qed.

Lemma index_of_elem nodes node :
  node ∈ nodes -> exists idx, index_of nodes node = Some idx.
Proof.
  induction nodes as [|n l IH]; intros Hin; [inversion Hin|]. cbn.
  destruct (Nat.eqb n node) eqn:E; [eauto|].
  apply Nat.eqb_neq in E.
  destruct IH as [i ->]; [|eauto].
  inversion Hin; subst; [contradiction | assumption].
Qed.

Lemma find_node_elem h nodes wanted node :
  find_node h nodes wanted = Some node -> node ∈ nodes /\ id (h node) = wanted.
Proof.
  unfold find_node. intros H. apply find_some in H. destruct H as [Hin E].
  split; [now apply list_elem_of_In | now apply String.eqb_eq].
Qed.

Lemma total_attract this h nodes forces edge :
  length forces = length nodes ->
  total_x (attract this h nodes forces edge) = total_x forces /\
  total_y (attract this h nodes forces edge) = total_y forces.
Proof.
  intros Hlen. unfold attract.
  destruct (find_node h nodes (source edge)) as [s|] eqn:Es; [|auto].
  destruct (find_node h nodes (target edge)) as [t|] eqn:Et; [|auto].
  apply find_node_elem in Es, Et.
  destruct (index_of_elem nodes s (proj1 Es)) as [i Hi].
  destruct (index_of_elem nodes t (proj1 Et)) as [j Hj].
  pose proof (index_of_lt _ _ _ Hi) as Hi'. pose proof (index_of_lt _ _ _ Hj) as Hj'.
  rewrite <- Hlen in Hi', Hj'.
  unfold at_node. rewrite Hi, Hj.
  set (v := cos _ * _). set (w := sin _ * _).
  destruct (total_add_x forces i v Hi') as [A1 A2].
  destruct (total_add_y (add_x forces i v) i w) as [B1 B2];
    [now rewrite length_add_x|].
  destruct (total_add_x (add_y (add_x forces i v) i w) j (- v)) as [C1 C2];
    [now rewrite length_add_y, length_add_x|].
  destruct (total_add_y (add_x (add_y (add_x forces i v) i w) j (- v)) j (- w))
    as [D1 D2]; [now rewrite length_add_x, length_add_y, length_add_x|].
  rewrite D1, D2, C1, C2, B1, B2, A1, A2. split; lra.
Qed.

Lemma total_fold {B} (f : list Position -> B -> list Position) (n : nat) l :
  (forall acc b, length acc = n ->
     length (f acc b) = n /\
     total_x (f acc b) = total_x acc /\ total_y (f acc b) = total_y acc) ->
  forall acc, length acc = n ->
    length (fold_left f l acc) = n /\
    total_x (fold_left f l acc) = total_x acc /\
    total_y (fold_left f l acc) = total_y acc.
Proof.
  intros Hf. induction l as [|b l IH]; intros acc Hlen; cbn [fold_left]; [auto|].
  destruct (Hf acc b Hlen) as (H1 & H2 & H3).
  destruct (IH _ H1) as (I1 & I2 & I3). rewrite I2, I3. auto.
Qed.

Lemma total_zeros {A} (l : list A) :
  total_x (map (fun _ => mkPosition 0 0) l) = 0 /\
  total_y (map (fun _ => mkPosition 0 0) l) = 0.
Proof.
  induction l as [|a l [IH1 IH2]]; [split; reflexivity|].
  cbn [map]. destruct (total_cons (mkPosition 0 0) (map (fun _ => mkPosition 0 0) l))
    as [-> ->].
  rewrite IH1, IH2. cbn [px py]. split; lra.
Qed.

Lemma accumulated_forces_cancel this h nodes :
  length (accumulated_forces this h nodes) = length nodes /\
  total_x (accumulated_forces this h nodes) = 0 /\
  total_y (accumulated_forces this h nodes) = 0.
Proof.
  unfold accumulated_forces.
  destruct (total_zeros nodes) as [Z1 Z2].
  destruct (total_fold (repel this h nodes) (length nodes) (pairs (length nodes)))
    with (acc := map (fun _ : loc => mkPosition 0 0) nodes) as (R1 & R2 & R3).
  { intros acc b Hacc. rewrite length_repel. split; [exact Hacc|].
    now apply total_repel. }
  { apply length_map. }
  destruct (total_fold (attract this h nodes) (length nodes) (this_edges this))
    with (acc := fold_left (repel this h nodes) (pairs (length nodes))
                   (map (fun _ : loc => mkPosition 0 0) nodes)) as (A1 & A2 & A3).
  { intros acc b Hacc. rewrite length_attract. split; [exact Hacc|].
    now apply total_attract. }
  { exact R1. }
  split; [exact A1|]. split; lra.
Qed.

(** The position a node is moved to by its force, before and after the
    clamp. *)
Lemma forEach_apply_force_nodup this nodes : forall forces h k node force,
  NoDup nodes -> nodes !! k = Some node -> forces !! k = Some force ->
  position (forEach nodes (apply_force this forces) h node) =
  mkPosition
    (GeometryUtils.clamp
       (px (position (h node)) + px force * r_damping (this_options this)) (-1000) 2000)
    (GeometryUtils.clamp
       (py (position (h node)) + py force * r_damping (this_options this)) (-1000) 2000).
Proof.
  induction nodes as [|a l IH]; intros forces h k node force Hnd Hk Hf; [discriminate|].
  apply NoDup_cons in Hnd. destruct Hnd as [Ha Hnd].
  rewrite forEach_cons.
  destruct k as [|k]; cbn in Hk.
  - injection Hk as ->.
    rewrite forEach_frame.
    + unfold apply_force. rewrite Hf.
      rewrite set_y_same. cbn [position px py]. rewrite set_x_same. cbn [position px py].
      rewrite set_y_same. cbn [position px py]. rewrite set_x_same. cbn [position px py].
      reflexivity.
    + intros b i s Hb. apply apply_force_other. intros ->. contradiction.
  - destruct forces as [|f fs]; [discriminate|]. cbn in Hf.
    rewrite (forEach_ext l _ (apply_force this fs)) by reflexivity.
    rewrite (IH fs _ k node force Hnd Hk Hf).
    assert (node <> a).
    { intros ->. apply Ha. apply list_elem_of_lookup. eauto. }
    now rewrite apply_force_other.
Qed.

Lemma clamp_in_range value lo hi :
  lo <= value <= hi -> GeometryUtils.clamp value lo hi = value.
Proof.
  intros H. unfold GeometryUtils.clamp, Rmin, Rmax.
  repeat (destruct (Rle_dec _ _)); lra.
Qed.

Lemma sums_after_move (h h' : heap) (d : number) nodes : forall forces,
  length forces = length nodes ->
  (forall k node force, nodes !! k = Some node -> forces !! k = Some force ->
     position (h' node) = mkPosition (px (position (h node)) + px force * d)
                                     (py (position (h node)) + py force * d)) ->
  sum_x h' nodes = sum_x h nodes + d * total_x forces /\
  sum_y h' nodes = sum_y h nodes + d * total_y forces.
Proof.
  induction nodes as [|a l IH]; intros forces Hlen Hmove.
  - destruct forces; [|discriminate]. cbn. split; lra.
  - destruct forces as [|f fs]; [discriminate|].
    destruct (IH fs) as [I1 I2]; [cbn in Hlen; lia | |].
    { intros k node force Hk Hf. apply (Hmove (S k)); assumption. }
    pose proof (Hmove 0%nat a f eq_refl eq_refl) as Ha.
    change (sum_x h' (a :: l)) with (px (position (h' a)) + sum_x h' l).
    change (sum_y h' (a :: l)) with (py (position (h' a)) + sum_y h' l).
    change (sum_x h (a :: l)) with (px (position (h a)) + sum_x h l).
    change (sum_y h (a :: l)) with (py (position (h a)) + sum_y h l).
    destruct (total_cons f fs) as [-> ->].
    rewrite I1, I2, Ha. cbn [px py]. split; lra.
Qed.

(** X17: in every round of the force-directed layout the accumulated forces
    cancel (each push on a node is matched by the opposite push on another):
    their components sum to zero.  Hence, for distinct node objects and a
    round in which no coordinate reaches the safety bound, the sums of the x
    and of the y coordinates of the nodes (their centroid) do not change. *)
Theorem force_round_keeps_centroid :
  forall (this : CustomLayoutEngine) (h : heap) (nodes : list loc),
    force_iteration this nodes h
    = forEach nodes (apply_force this (accumulated_forces this h nodes)) h /\
    total_x (accumulated_forces this h nodes) = 0 /\
    total_y (accumulated_forces this h nodes) = 0 /\
    (NoDup nodes -> no_clamping this h nodes ->
     sum_x (force_iteration this nodes h) nodes = sum_x h nodes /\
     sum_y (force_iteration this nodes h) nodes = sum_y h nodes).
Proof.
  intros this h nodes.
  destruct (accumulated_forces_cancel this h nodes) as (Hlen & Hx & Hy).
  split; [reflexivity|]. split; [exact Hx|]. split; [exact Hy|].
  intros Hnd Hnc.
  destruct (sums_after_move h (force_iteration this nodes h)
              (r_damping (this_options this)) nodes
              (accumulated_forces this h nodes) Hlen) as [S1 S2].
  - intros k node force Hk Hf.
    change (force_iteration this nodes h)
      with (forEach nodes (apply_force this (accumulated_forces this h nodes)) h).
    rewrite (forEach_apply_force_nodup this nodes _ h k node force Hnd Hk Hf).
    destruct (Hnc k node force Hk Hf) as [Hbx Hby].
    now rewrite !clamp_in_range.
  - rewrite S1, S2, Hx, Hy. split; lra.
Qed.

(** ** Grid layout *)

Lemma Zfloor_div k c :
  (0 < c)%Z -> Math_floor (INR k / IZR c) = (Z.of_nat k / c)%Z.
Proof.
  intros Hc. unfold Math_floor. apply Zfloor_eq. rewrite INR_IZR_INZ.
  pose proof (Z.div_mod (Z.of_nat k) c ltac:(lia)) as Hdm.
  pose proof (Z.mod_pos_bound (Z.of_nat k) c Hc) as [Hr0 Hr1].
  set (q := (Z.of_nat k / c)%Z) in *. set (r := (Z.of_nat k mod c)%Z) in *.
  assert (HcR : 0 < IZR c) by now apply IZR_lt.
  assert (HK : IZR (Z.of_nat k) = IZR c * IZR q + IZR r)
    by (rewrite Hdm at 1; now rewrite plus_IZR, mult_IZR).
  apply IZR_le in Hr0. apply IZR_lt in Hr1.
  rewrite HK.
  replace ((IZR c * IZR q + IZR r) / IZR c) with (IZR q + IZR r / IZR c)
    by (field; lra).
  assert (0 <= IZR r / IZR c < 1).
  { split.
    - apply Rmult_le_pos; [lra | apply Rlt_le, Rinv_0_lt_compat; lra].
    - apply (Rmult_lt_reg_r (IZR c)); [lra|].
      replace (IZR r / IZR c * IZR c) with (IZR r) by (field; lra). lra. }
  lra.
Qed.

Lemma grid_cols_spec n :
  (1 <= n)%nat ->
  let cols := Math_ceil (sqrt (INR n)) in
  (1 <= cols /\ (cols - 1) * (cols - 1) < Z.of_nat n <= cols * cols)%Z.
Proof.
  intros Hn cols. subst cols. unfold Math_ceil.
  pose proof (Zceil_bound (sqrt (INR n))) as [Hlo Hhi].
  set (c := Zceil (sqrt (INR n))) in *.
  assert (H1 : 1 <= INR n) by (change 1 with (INR 1); now apply le_INR).
  assert (Hs1 : 1 <= sqrt (INR n)).
  { rewrite <- sqrt_1. apply sqrt_le_1_alt. exact H1. }
  assert (Hss : sqrt (INR n) * sqrt (INR n) = INR n) by (apply sqrt_sqrt; lra).
  assert (Hc1 : (1 <= c)%Z) by (apply le_IZR; lra).
  split; [exact Hc1|]. split.
  - apply lt_IZR. rewrite mult_IZR, minus_IZR.
    assert (0 <= IZR c - 1) by (apply IZR_le in Hc1; lra).
    rewrite <- INR_IZR_INZ, <- Hss. apply Rmult_le_0_lt_compat; lra.
  - apply le_IZR. rewrite mult_IZR. rewrite <- INR_IZR_INZ, <- Hss.
    apply Rmult_le_compat; lra.
Qed.

Lemma grid_rows_spec n cols :
  (1 <= cols)%Z ->
  let rows := Math_ceil (INR n / IZR cols) in
  ((rows - 1) * cols < Z.of_nat n <= rows * cols)%Z.
Proof.
  intros Hc rows. subst rows. unfold Math_ceil.
  pose proof (Zceil_bound (INR n / IZR cols)) as [Hlo Hhi].
  set (r := Zceil (INR n / IZR cols)) in *.
  assert (HcR : 1 <= IZR cols) by now apply IZR_le.
  assert (Hn : INR n = INR n / IZR cols * IZR cols) by (field; lra).
  split.
  - apply lt_IZR. rewrite mult_IZR, minus_IZR. rewrite <- INR_IZR_INZ, Hn.
    apply Rmult_lt_compat_r; lra.
  - apply le_IZR. rewrite mult_IZR. rewrite <- INR_IZR_INZ, Hn.
    apply Rmult_le_compat_r; lra.
Qed.

(** X18: the grid layout of n >= 1 nodes uses [cols] columns, the least
    integer whose square is at least n, and [rows] rows, the least integer
    with rows * cols >= n.  When the list holds distinct node objects, the
    node at index k goes to column k mod cols and row k div cols of a grid
    with cells of 150 x 100 centered on the engine's center, and no two nodes
    share a position. *)
Theorem gridLayout_fills_rows :
  forall (this : CustomLayoutEngine) (h : heap),
    let nodes := this_nodes this in
    let cols := Math_ceil (sqrt (INR (length nodes))) in
    let rows := Math_ceil (INR (length nodes) / IZR cols) in
    let cx := r_centerX (this_options this) in
    let cy := r_centerY (this_options this) in
    let h' := snd (gridLayout this h) in
    (1 <= length nodes)%nat ->
    (1 <= cols /\ (cols - 1) * (cols - 1) < Z.of_nat (length nodes) <= cols * cols /\
     (rows - 1) * cols < Z.of_nat (length nodes) <= rows * cols)%Z /\
    (NoDup nodes ->
     (forall k r, nodes !! k = Some r ->
        (0 <= Z.of_nat k mod cols < cols /\ 0 <= Z.of_nat k / cols < rows)%Z /\
        position (h' r) =
        mkPosition (cx - (IZR cols - 1) * 150 / 2 + IZR (Z.of_nat k mod cols) * 150)
                   (cy - (IZR rows - 1) * 100 / 2 + IZR (Z.of_nat k / cols) * 100)) /\
     (forall k k' r r', nodes !! k = Some r -> nodes !! k' = Some r' ->
        position (h' r) = position (h' r') -> r = r')).
Proof.
  intros this h nodes cols rows cx cy h' Hn.
  destruct (grid_cols_spec (length nodes) Hn) as (Hc1 & Hc2). fold cols in Hc1, Hc2.
  pose proof (grid_rows_spec (length nodes) cols Hc1) as Hr. fold rows in Hr.
  cbv zeta in Hr.
  split; [auto|]. intros Hnd.
  assert (Hpos : forall k r, nodes !! k = Some r ->
            (0 <= Z.of_nat k mod cols < cols /\ 0 <= Z.of_nat k / cols < rows)%Z /\
            position (h' r) =
            mkPosition (cx - (IZR cols - 1) * 150 / 2 + IZR (Z.of_nat k mod cols) * 150)
                       (cy - (IZR rows - 1) * 100 / 2 + IZR (Z.of_nat k / cols) * 100)).
  { intros k r Hk.
    pose proof (lookup_lt_Some _ _ _ Hk) as Hlt. fold nodes in Hlt.
    pose proof (Z.mod_pos_bound (Z.of_nat k) cols ltac:(lia)) as Hmod.
    pose proof (Z.div_mod (Z.of_nat k) cols ltac:(lia)) as Hdm.
    assert (Hdiv : (0 <= Z.of_nat k / cols)%Z) by (apply Z.div_pos; lia).
    split; [split; [exact Hmod | split; [exact Hdiv | nia]]|].
    refine (eq_trans
              (forEach_place_nodup
                 (fun index => cx - (IZR cols - 1) * 150 / 2
                               + IZR (Z.rem (Z.of_nat index) cols) * 150)
                 (fun index => cy - (IZR rows - 1) * 100 / 2
                               + IZR (Math_floor (INR index / IZR cols)) * 100)
                 nodes h k r Hnd Hk) _).
    rewrite Z.rem_mod_nonneg by lia. rewrite Zfloor_div by lia. reflexivity. }
  split; [exact Hpos|].
  intros k k' r r' Hk Hk' E.
  destruct (Hpos k r Hk) as [[Hm Hd] Ep]. destruct (Hpos k' r' Hk') as [[Hm' Hd'] Ep'].
  rewrite Ep, Ep' in E. injection E as Ex Ey.
  assert (Em : (Z.of_nat k mod cols = Z.of_nat k' mod cols)%Z) by (apply eq_IZR; lra).
  assert (Ed : (Z.of_nat k / cols = Z.of_nat k' / cols)%Z) by (apply eq_IZR; lra).
  pose proof (Z.div_mod (Z.of_nat k) cols ltac:(lia)) as Hdm.
  pose proof (Z.div_mod (Z.of_nat k') cols ltac:(lia)) as Hdm'.
  assert (k = k') by lia. subst k'. congruence.
Qed.

(** Witness for X18: two distinct nodes: two columns, one row. *)
Lemma gridLayout_witness :
  position (snd (gridLayout (mkEngine [0%nat; 1%nat] [] (sample_required Grid)) sample_heap)
                1%nat)
  = mkPosition
      (400 - (IZR (Math_ceil (sqrt (INR 2))) - 1) * 150 / 2
       + IZR (Z.of_nat 1 mod Math_ceil (sqrt (INR 2))) * 150)
      (300 - (IZR (Math_ceil (INR 2 / IZR (Math_ceil (sqrt (INR 2))))) - 1) * 100 / 2
       + IZR (Z.of_nat 1 / Math_ceil (sqrt (INR 2))) * 100).
Proof.
  assert (Hn : (1 <= length [0%nat; 1%nat])%nat) by (cbn; lia).
  assert (Hnd : NoDup [0%nat; 1%nat]).
  { apply NoDup_cons. split; [|apply NoDup_singleton].
    intros H. apply list_elem_of_singleton in H. discriminate. }
  destruct (gridLayout_fills_rows (mkEngine [0%nat; 1%nat] [] (sample_required Grid))
              sample_heap Hn) as (_ & H).
  destruct (H Hnd) as (Hpos & _).
  exact (proj2 (Hpos 1%nat 1%nat eq_refl)).
Defined.

(** ** The shape of the tree layout *)

Lemma combine_seq_lookup {A} (l : list A) i a : forall k,
  (i, a) ∈ combine (seq k (length l)) l -> exists j, i = (k + j)%nat /\ l !! j = Some a.
Proof.
  induction l as [|b l IH]; intros k H; cbn in H; [inversion H|].
  apply elem_of_cons in H. destruct H as [[= -> ->]|H].
  - exists 0%nat. split; [lia | reflexivity].
  - destruct (IH (S k) H) as (j & -> & Hj). exists (S j). split; [lia | exact Hj].
Qed.

Lemma combine_seq_index {A} (l : list A) j a : forall k,
  l !! j = Some a -> ((k + j)%nat, a) ∈ combine (seq k (length l)) l.
Proof.
  revert j. induction l as [|b l IH]; intros j k H; [discriminate|].
  destruct j as [|j]; cbn in *.
  - injection H as ->. rewrite Nat.add_0_r. now left.
  - right. replace (k + S j)%nat with (S k + j)%nat by lia. now apply IH.
Qed.

(** Where the entries pushed for the children of a node come from. *)
Lemma push_pairs_slots nm vis sx y lvl (children : list string) ps :
  (forall i c, (i, c) ∈ ps -> children !! i = Some c) ->
  forall rest e,
    e ∈ fold_left (fun q (ic : nat * string) =>
                     push_child nm vis sx y lvl (snd ic) (fst ic) q) ps rest ->
    e ∈ rest \/
    exists index c,
      children !! index = Some c /\ nm !! c = Some (q_node e) /\
      q_x e = sx + INR index * 150 /\ q_y e = y + 100.
Proof.
  induction ps as [|[i c] ps IH]; intros Hps rest e He; cbn [fold_left] in He;
    [now left|].
  destruct (IH (fun i' c' H => Hps i' c' (list_elem_of_further _ _ _ H)) _ _ He)
    as [Hq | Hnew]; [|now right].
  cbn [fst snd] in Hq. unfold push_child in Hq.
  destruct (nm !! c) as [child|] eqn:Ec; [|now left].
  destruct (decide (c ∈ vis)); [now left|].
  apply elem_of_app in Hq. destruct Hq as [Hq|Hq]; [now left|].
  apply list_elem_of_singleton in Hq. subst e. right.
  exists i, c. cbn. split; [apply Hps; now left | auto].
Qed.

Lemma push_children_slots nm vis sx y lvl children rest e :
  e ∈ forEach children (push_child nm vis sx y lvl) rest ->
  e ∈ rest \/
  exists index c,
    children !! index = Some c /\ nm !! c = Some (q_node e) /\
    q_x e = sx + INR index * 150 /\ q_y e = y + 100.
Proof.
  apply push_pairs_slots. intros i c Hic.
  destruct (combine_seq_lookup children i c 0 Hic) as (j & -> & Hj). exact Hj.
Qed.

Lemma push_roots_slots this roots :
  forEach roots (push_root this roots) []
  = map (fun ia => mkEntry (snd ia)
                     (px (root_slot this (length roots) (fst ia)))
                     (py (root_slot this (length roots) (fst ia))) 0)
        (combine (seq 0 (length roots)) roots).
Proof.
  unfold forEach.
  assert (H : forall ps q,
             fold_left (fun s (ia : nat * loc) =>
                          push_root this roots (snd ia) (fst ia) s) ps q
             = (q ++ map (fun ia => mkEntry (snd ia)
                                      (px (root_slot this (length roots) (fst ia)))
                                      (py (root_slot this (length roots) (fst ia))) 0)
                         ps)%list).
  { intros ps. induction ps as [|ia ps IH]; intros q; cbn [fold_left map].
    - now rewrite app_nil_r.
    - rewrite IH. unfold push_root. now rewrite <- app_assoc. }
  now rewrite H.
Qed.

Section TreeShape.
Variables (this : CustomLayoutEngine) (h : heap).

Let nodes := this_nodes this.
Let edges := this_edges this.
Let roots := find_roots h nodes edges.

Lemma tree_start_queue e :
  e ∈ queue (tree_start this h) ->
  exists index, roots !! index = Some (q_node e) /\
                mkPosition (q_x e) (q_y e) = root_slot this (length roots) index.
Proof.
  unfold tree_start. cbn [queue]. fold nodes edges roots.
  rewrite push_roots_slots. change (map ?f ?l) with (f <$> l).
  intros He. apply list_elem_of_fmap in He. destruct He as ([i r] & -> & Hir).
  destruct (combine_seq_lookup roots i r 0 Hir) as (j & -> & Hj).
  exists j. cbn. split; [exact Hj | reflexivity].
Qed.

Lemma tree_origin_more placed placed' node p :
  (forall x, x ∈ placed -> x ∈ placed') ->
  tree_origin this h placed node p -> tree_origin this h placed' node p.
Proof.
  intros Hsub [H | (parent & pp & index & edge & Hp & H)]; [now left|].
  right. exists parent, pp, index, edge. split; [now apply Hsub | exact H].
Qed.

Lemma tree_shape_start : tree_shape this h (tree_start this h).
Proof.
  constructor.
  - intros e He. left. now apply tree_start_queue.
  - intros r p Hp. inversion Hp.
  - intros r. now left.
  - left. split; reflexivity.
Qed.

Lemma tree_shape_step e rest st :
  bfs_invariant h nodes edges st -> queue st = e :: rest -> tree_shape this h st ->
  tree_shape this h
    (bfs_step (build_nodeMap h nodes) (build_adjacency h nodes edges) e rest st).
Proof.
  intros I Hq [S1 S2 S3 S4].
  pose proof (mem_id h nodes edges st (q_node e) I) as Hid.
  assert (He : e ∈ queue st) by (rewrite Hq; now left).
  assert (Hrest : forall e', e' ∈ rest -> e' ∈ queue st)
    by (intros e' H; rewrite Hq; now right).
  unfold bfs_step. rewrite Hid.
  destruct (decide (id (h (q_node e)) ∈ visited st)) as [Hv|Hv].
  - constructor; cbn [queue visited mem placed]; auto.
    destruct S4 as [[Hnil _] | S4]; [|now right].
    exfalso. destruct (inv_visited_placed _ _ _ _ I _ Hv) as (r & p & Hp & _).
    rewrite Hnil in Hp. inversion Hp.
  - set (new := (q_node e, mkPosition (q_x e) (q_y e))).
    assert (Hsub : forall x, x ∈ placed st -> x ∈ (placed st ++ [new])%list)
      by (intros x Hx; apply elem_of_app; now left).
    assert (Hnew : new ∈ (placed st ++ [new])%list)
      by (apply elem_of_app; right; now left).
    constructor; cbn [queue visited mem placed].
    + intros e' He'. apply push_children_slots in He'.
      destruct He' as [He' | (index & c & Hc & Hnm & Ex & Ey)].
      * eapply tree_origin_more; [exact Hsub | auto].
      * right. apply build_nodeMap_Some in Hnm. destruct Hnm as [_ Hidc].
        rewrite build_adjacency_lookup in Hc.
        change (map target ?l) with (target <$> l) in Hc.
        rewrite list_lookup_fmap in Hc.
        destruct (filter _ edges !! index) as [edge|] eqn:Eedge; [|discriminate].
        injection Hc as <-.
        exists (q_node e), (mkPosition (q_x e) (q_y e)), index, edge.
        split; [exact Hnew|]. split; [exact Eedge|]. split; [now symmetry|].
        unfold child_slot. cbn [px py]. rewrite Ex, Ey. f_equal.
        rewrite build_adjacency_lookup, length_map. reflexivity.
    + intros r p Hp. apply elem_of_app in Hp. destruct Hp as [Hp|Hp].
      * eapply tree_origin_more; [exact Hsub | auto].
      * apply list_elem_of_singleton in Hp. injection Hp as -> ->.
        eapply tree_origin_more; [exact Hsub | auto].
    + intros r. destruct (decide (r = q_node e)) as [->|Hr].
      * right. eauto.
      * rewrite set_y_other, set_x_other by exact Hr.
        destruct (S3 r) as [H | (p & Hp)]; [now left | right; eauto].
    + right. destruct S4 as [[Hnil Hq0] | (e0 & rest0 & tl & Hq0 & Hpl)].
      * rewrite Hq in Hq0. exists e, rest, []. split; [now symmetry|].
        now rewrite Hnil.
      * exists e0, rest0, (tl ++ [new])%list. split; [exact Hq0|]. now rewrite Hpl.
Qed.

(** The loop ends with the invariant and the shape. *)
Lemma treeLayout_run_shape :
  exists st, treeLayout_run this h = Some st /\ queue st = [] /\
             bfs_invariant h nodes edges st /\ tree_shape this h st.
Proof.
  destruct (treeLayout_run_returns this h) as (st & Hrun & Hq & I).
  exists st. split; [exact Hrun|]. split; [exact Hq|]. split; [exact I|].
  unfold treeLayout_run in Hrun.
  apply (bfs_loop_preserves (tree_shape this h) h nodes edges) with (4 := Hrun).
  - intros e rest st0. apply tree_shape_step.
  - apply tree_start_invariant.
  - apply tree_shape_start.
Qed.

End TreeShape.

Lemma placed_in_slot this h st r p :
  bfs_invariant h (this_nodes this) (this_edges this) st -> tree_shape this h st ->
  (r, p) ∈ placed st -> in_tree_slot this h (mem st) r.
Proof.
  intros I S Hp.
  destruct (inv_placed _ _ _ _ I r p Hp) as (_ & _ & Hpos).
  destruct (shape_placed _ _ _ S r p Hp)
    as [(index & Hi & E) | (parent & pp & index & edge & Hpp & Hi & Ht & E)].
  - left. exists index. split; [exact Hi | congruence].
  - right. destruct (inv_placed _ _ _ _ I parent pp Hpp) as (Hin & _ & Hpos').
    exists parent, index, edge. split; [exact Hin|]. split; [exact Hi|].
    split; [exact Ht | congruence].
Qed.

Lemma placed_of_reachable this h st r :
  bfs_invariant h (this_nodes this) (this_edges this) st -> queue st = [] ->
  NoDup (map (fun n => id (h n)) (this_nodes this)) ->
  r ∈ this_nodes this ->
  tree_reachable h (this_nodes this) (this_edges this) (id (h r)) ->
  exists p, (r, p) ∈ placed st.
Proof.
  intros I Hq Hnd Hr Hreach.
  pose proof (reachable_visited this h st _ I Hq Hreach) as Hv.
  destruct (inv_visited_placed _ _ _ _ I _ Hv) as (r' & p & Hp & E).
  destruct (inv_placed _ _ _ _ I _ _ Hp) as (Hr' & _).
  assert (r' = r) as ->.
  { pose proof (build_nodeMap_unique h _ r Hnd Hr) as H1.
    pose proof (build_nodeMap_unique h _ r' Hnd Hr') as H2.
    rewrite E in H2. congruence. }
  eauto.
Qed.

(** X19: the tree layout puts nodes into slots only.  Every object of the
    heap is either returned as it was given, or sits in the slot of a root
    (200 apart on the row 200 above the center) or in a child slot: 100
    below a node of the list that has an edge to it, the slots of the edges
    leaving that node being 150 apart and centered under it.  With unique
    node ids every node reachable from a root sits in such a slot. *)
Theorem treeLayout_places_in_slots :
  forall (this : CustomLayoutEngine) (h : heap),
    exists h',
      treeLayout this h = Some (this_nodes this, h') /\
      (forall r, h' r = h r \/ in_tree_slot this h h' r) /\
      (NoDup (map (fun n => id (h n)) (this_nodes this)) ->
       forall r, r ∈ this_nodes this ->
         tree_reachable h (this_nodes this) (this_edges this) (id (h r)) ->
         in_tree_slot this h h' r).
Proof.
  intros this h.
  destruct (treeLayout_run_shape this h) as (st & Hrun & Hq & I & S).
  exists (mem st). split; [unfold treeLayout; now rewrite Hrun|]. split.
  - intros r. destruct (shape_untouched _ _ _ S r) as [H | (p & Hp)]; [now left|].
    right. eapply placed_in_slot; eauto.
  - intros Hnd r Hr Hreach.
    destruct (placed_of_reachable this h st r I Hq Hnd Hr Hreach) as (p & Hp).
    eapply placed_in_slot; eauto.
Qed.

(** Witness for X19: with the edge A -> B, node B is reachable and sits in a
    slot. *)
Lemma treeLayout_slots_witness :
  exists h',
    treeLayout (tree_engine [mkEdge "e1" "A" "B"]) sample_heap = Some ([0%nat; 1%nat], h') /\
    in_tree_slot (tree_engine [mkEdge "e1" "A" "B"]) sample_heap h' 1%nat.
Proof.
  destruct (treeLayout_places_in_slots (tree_engine [mkEdge "e1" "A" "B"]) sample_heap)
    as (h' & E & _ & H).
  exists h'. split; [exact E|].
  apply (H sample_ids_nodup 1%nat).
  - right. left.
  - apply (reach_child sample_heap _ _ (mkEdge "e1" "A" "B") 1%nat).
    + apply (reach_root sample_heap _ _ 0%nat).
      assert (Er : find_roots sample_heap [0%nat; 1%nat] [mkEdge "e1" "A" "B"]
                   = [0%nat]) by (vm_compute; reflexivity).
      cbn [this_nodes this_edges tree_engine]. rewrite Er. left.
    + left.
    + right. left.
    + reflexivity.
Defined.

Lemma find_roots_nodup h nodes edges :
  NoDup nodes -> NoDup (find_roots h nodes edges).
Proof.
  intros Hnd. unfold find_roots.
  destruct (zero_indegree h nodes edges) as [|z zs] eqn:Ez.
  - destruct nodes; [constructor | apply NoDup_singleton].
  - rewrite <- Ez. now apply NoDup_filter.
Qed.

Lemma find_roots_cases h nodes edges :
  (zero_indegree h nodes edges <> [] /\
   find_roots h nodes edges = zero_indegree h nodes edges) \/
  (zero_indegree h nodes edges = [] /\
   find_roots h nodes edges = match nodes with first :: _ => [first] | [] => [] end).
Proof.
  unfold find_roots. destruct (zero_indegree h nodes edges) as [|z zs].
  - right. split; [reflexivity|]. now destruct nodes.
  - left. split; [discriminate | reflexivity].
Qed.

(** X20: with unique node ids, the tree layout lays the roots out side by
    side: the root with index i among the m roots ends at
    (centerX + (i - m/2) * 200, centerY - 200). *)
Theorem treeLayout_roots_side_by_side :
  forall (this : CustomLayoutEngine) (h : heap),
    NoDup (map (fun n => id (h n)) (this_nodes this)) ->
    exists h',
      treeLayout this h = Some (this_nodes this, h') /\
      let roots := find_roots h (this_nodes this) (this_edges this) in
      forall index root,
        roots !! index = Some root ->
        position (h' root) =
        mkPosition
          (r_centerX (this_options this) + (INR index - INR (length roots) / 2) * 200)
          (r_centerY (this_options this) - 200).
Proof.
  intros this h Hnd.
  destruct (treeLayout_run_shape this h) as (st & Hrun & Hq & I & S).
  exists (mem st). split; [unfold treeLayout; now rewrite Hrun|].
  intros roots index root Hroot.
  pose proof (tree_start_queue this h) as Hstart. cbv zeta in Hstart.
  fold roots in Hstart.
  assert (Hndn : NoDup (this_nodes this)).
  { change (map ?f ?l) with (f <$> l) in Hnd. now apply NoDup_fmap_1 in Hnd. }
  pose proof (find_roots_nodup h _ (this_edges this) Hndn) as Hndr. fold roots in Hndr.
  assert (Hin : root ∈ roots) by (apply list_elem_of_lookup; eauto).
  assert (Hnode : root ∈ this_nodes this) by (eapply find_roots_nodes; eauto).
  destruct (placed_of_reachable this h st root I Hq Hnd Hnode) as (p & Hp).
  { now apply reach_root. }
  destruct (inv_placed _ _ _ _ I _ _ Hp) as (_ & _ & Hpos).
  pose proof (shape_placed _ _ _ S root p Hp) as Horigin.
  unfold tree_origin in Horigin. cbv zeta in Horigin. fold roots in Horigin.
  destruct Horigin as [(index' & Hi & E) | (parent & pp & i & edge & Hpp & Hi & Ht & E)].
  - assert (index' = index) as -> by (eapply NoDup_lookup; eauto).
    rewrite Hpos, E. reflexivity.
  - (* a root placed as somebody's child: only the forced root of a cycle *)
    assert (Hedge : edge ∈ this_edges this).
    { apply list_elem_of_lookup_2 in Hi. unfold out_edges in Hi.
      now apply list_elem_of_filter in Hi. }
    destruct (find_roots_cases h (this_nodes this) (this_edges this))
      as [[_ Er] | [_ Er]]; fold roots in Er.
    + exfalso. rewrite Er in Hin.
      apply zero_indegree_spec in Hin. destruct Hin as [_ Hno].
      now apply (Hno edge Hedge).
    + assert (Hone : roots = [root] /\ index = 0%nat).
      { rewrite Er in Hroot |- *. destruct (this_nodes this) as [|first rest];
          [discriminate|].
        destruct index as [|index]; [|discriminate]. injection Hroot as ->. auto. }
      destruct Hone as [Hr1 ->].
      destruct (shape_first _ _ _ S) as [[Hnil _] | (e0 & rest0 & tl & Hq0 & Hpl)].
      { rewrite Hnil in Hp. inversion Hp. }
      destruct (Hstart e0) as (i0 & Hi0 & E0).
      { rewrite Hq0. now left. }
      rewrite Hr1 in Hi0.
      destruct i0 as [|i0]; [|discriminate]. injection Hi0 as Hn0.
      assert (Hp0 : (root, mkPosition (q_x e0) (q_y e0)) ∈ placed st).
      { rewrite Hpl, Hn0. now left. }
      destruct (inv_placed _ _ _ _ I _ _ Hp0) as (_ & _ & Hpos0).
      rewrite Hpos0, E0. reflexivity.
Qed.

(** Witness for X20: A and B without edges are two roots; B, the second,
    ends at x = 400 + (1 - 2/2) * 200. *)
Lemma treeLayout_roots_witness :
  exists h',
    treeLayout (tree_engine []) sample_heap = Some ([0%nat; 1%nat], h') /\
    position (h' 1%nat)
    = mkPosition (400 + (INR 1 - INR 2 / 2) * 200) (300 - 200).
Proof.
  destruct (treeLayout_roots_side_by_side (tree_engine []) sample_heap sample_ids_nodup)
    as (h' & E & H).
  exists h'. split; [exact E|].
  assert (Er : find_roots sample_heap [0%nat; 1%nat] [] = [0%nat; 1%nat])
    by (vm_compute; reflexivity).
  cbn [this_nodes this_edges tree_engine] in H. rewrite Er in H.
  exact (H 1%nat 1%nat eq_refl).
Defined.

Lemma bounded_product c f F : -1 <= c <= 1 -> 0 <= f <= F -> - F <= c * f <= F.
Proof. intros Hc Hf. split; nra. Qed.

Lemma sample_distance_bounds :
  0 <= GeometryUtils.distance (mkPosition 0 0) (mkPosition 10 20) <= 30.
Proof.
  unfold GeometryUtils.distance. cbn [px py]. split; [apply sqrt_pos|].
  rewrite <- (sqrt_square 30) by lra. apply sqrt_le_1_alt. lra.
Qed.

(** In the first round on the two sample nodes joined by an edge, each
    component of each force is at most 1003 in absolute value: no coordinate
    comes near the safety bound. *)
Lemma sample_round_no_clamping :
  no_clamping (mkEngine [0%nat; 1%nat] [mkEdge "e1" "A" "B"] (sample_required Force))
    sample_heap [0%nat; 1%nat].
Proof.
  intros k node force Hk Hf.
  unfold accumulated_forces in Hf.
  cbn -[GeometryUtils.distance GeometryUtils.angle cos sin Rmult Rplus Rdiv Ropp Rinv]
    in Hf.
  pose proof sample_distance_bounds as Hd.
  set (d := GeometryUtils.distance (mkPosition 0 0) (mkPosition 10 20)) in *.
  set (a := GeometryUtils.angle (mkPosition 0 0) (mkPosition 10 20)) in *.
  pose proof (COS_bound a) as Hc. pose proof (SIN_bound a) as Hs.
  assert (Hrep : 0 <= 1000 / (d * d + 1) <= 1000).
  { assert (1 <= d * d + 1) by nra.
    assert (0 < / (d * d + 1) <= 1).
    { split; [apply Rinv_0_lt_compat; lra|].
      rewrite <- Rinv_1. apply Rinv_le_contravar; lra. }
    unfold Rdiv. nra. }
  assert (Hatt : 0 <= 1 / 10 * d <= 3) by lra.
  pose proof (bounded_product _ _ _ Hc Hrep) as Hcr.
  pose proof (bounded_product _ _ _ Hs Hrep) as Hsr.
  pose proof (bounded_product _ _ _ Hc Hatt) as Hca.
  pose proof (bounded_product _ _ _ Hs Hatt) as Hsa.
  cbn [this_options sample_required r_damping].
  destruct k as [|[|k]]; cbn in Hk; [| |discriminate];
    injection Hk as <-; cbn in Hf; injection Hf as <-;
    cbn [px py position sample_heap node_A node_B]; lra.
Qed.

(** In that round node A, at x = 0, is pulled towards B by more than it is
    pushed away: it moves to the right. *)
Lemma sample_round_moves :
  0 < px (position
            (force_iteration
               (mkEngine [0%nat; 1%nat] [mkEdge "e1" "A" "B"] (sample_required Force))
               [0%nat; 1%nat] sample_heap 0%nat)).
Proof.
  set (this := mkEngine [0%nat; 1%nat] [mkEdge "e1" "A" "B"] (sample_required Force)).
  assert (Hnd : NoDup [0%nat; 1%nat]).
  { apply NoDup_cons. split; [|apply NoDup_singleton].
    intros H. apply list_elem_of_singleton in H. discriminate. }
  destruct (accumulated_forces this sample_heap [0%nat; 1%nat] !! 0%nat)
    as [force|] eqn:Ef.
  2:{ exfalso. revert Ef. unfold accumulated_forces.
      cbn -[GeometryUtils.distance GeometryUtils.angle cos sin Rmult Rplus Rdiv Ropp Rinv].
      discriminate. }
  change (force_iteration this [0%nat; 1%nat] sample_heap)
    with (forEach [0%nat; 1%nat]
            (apply_force this (accumulated_forces this sample_heap [0%nat; 1%nat]))
            sample_heap).
  refine (eq_ind_r (fun p => 0 < px p) _
            (forEach_apply_force_nodup this [0%nat; 1%nat] _ sample_heap 0%nat 0%nat
               force Hnd eq_refl Ef)).
  destruct (sample_round_no_clamping 0%nat 0%nat force eq_refl Ef) as [Hbx _].
  cbn [px]. rewrite clamp_in_range by exact Hbx.
  revert Ef. unfold accumulated_forces.
  cbn -[GeometryUtils.distance GeometryUtils.angle cos sin Rmult Rplus Rdiv Ropp Rinv].
  intros [= <-]. cbn [px position sample_heap node_A this_options this sample_required
                      r_damping].
  assert (Hdd : GeometryUtils.distance (mkPosition 0 0) (mkPosition 10 20)
                * GeometryUtils.distance (mkPosition 0 0) (mkPosition 10 20) = 500).
  { unfold GeometryUtils.distance. cbn [px py]. rewrite sqrt_sqrt; [ring | nra]. }
  assert (Hd : 22 <= GeometryUtils.distance (mkPosition 0 0) (mkPosition 10 20)).
  { unfold GeometryUtils.distance. cbn [px py].
    rewrite <- (sqrt_square 22) at 1 by lra. apply sqrt_le_1_alt. lra. }
  assert (Hc : 0 < cos (GeometryUtils.angle (mkPosition 0 0) (mkPosition 10 20))).
  { unfold GeometryUtils.angle, Math_atan2. cbn [px py].
    destruct (Rlt_dec 0 (10 - 0)); [|lra].
    pose proof (atan_bound ((20 - 0) / (10 - 0))) as [? ?]. apply cos_gt_0; lra. }
  rewrite Hdd.
  set (d := GeometryUtils.distance (mkPosition 0 0) (mkPosition 10 20)) in *.
  set (c := cos (GeometryUtils.angle (mkPosition 0 0) (mkPosition 10 20))) in *.
  replace (0 + (0 + - (c * (1000 / (500 + 1))) + c * (1 / 10 * d)) * (9 / 10))
    with (c * ((1 / 10 * d - 1000 / 501) * (9 / 10))) by field.
  apply Rmult_lt_0_compat; [exact Hc|]. lra.
Qed.

(** Witness for X17: one round on the two sample nodes, A at (0,0) and B at
    (10,20), joined by an edge: they repel and attract each other, A moves,
    and the sums of their coordinates are what they were. *)
Lemma force_round_centroid_witness :
  sum_x (force_iteration
           (mkEngine [0%nat; 1%nat] [mkEdge "e1" "A" "B"] (sample_required Force))
           [0%nat; 1%nat] sample_heap)
        [0%nat; 1%nat]
  = sum_x sample_heap [0%nat; 1%nat] /\
  sum_y (force_iteration
           (mkEngine [0%nat; 1%nat] [mkEdge "e1" "A" "B"] (sample_required Force))
           [0%nat; 1%nat] sample_heap)
        [0%nat; 1%nat]
  = sum_y sample_heap [0%nat; 1%nat] /\
  px (position
        (force_iteration
           (mkEngine [0%nat; 1%nat] [mkEdge "e1" "A" "B"] (sample_required Force))
           [0%nat; 1%nat] sample_heap 0%nat))
  <> px (position (sample_heap 0%nat)).
Proof.
  assert (Hnd : NoDup [0%nat; 1%nat]).
  { apply NoDup_cons. split; [|apply NoDup_singleton].
    intros H. apply list_elem_of_singleton in H. discriminate. }
  destruct (proj2 (proj2 (proj2 (force_round_keeps_centroid
              (mkEngine [0%nat; 1%nat] [mkEdge "e1" "A" "B"] (sample_required Force))
              sample_heap [0%nat; 1%nat])))
              Hnd sample_round_no_clamping) as [Hx Hy].
  split; [exact Hx|]. split; [exact Hy|].
  pose proof sample_round_moves as Hm. cbn [sample_heap node_A position px].
  intros E. rewrite E in Hm. lra.
Defined.

End MoreCustomFacts.

(** * Properties of the auto-layout manager *)

Section AutoLayoutFacts.
Import AutoLayout.

Lemma indexOf_spec l cb :
  match indexOf l cb with
  | Some index =>
      l !! index = Some cb /\ cb ∉ take index l
  | None => cb ∉ l
  end.
Proof.
  induction l as [|x l IH]; cbn.
  - intros H. inversion H.
  - destruct (Nat.eqb_spec x cb) as [->|Hne].
    + split; [reflexivity|]. cbn. intros H. inversion H.
    + destruct (indexOf l cb) as [i|].
      * destruct IH as [H1 H2]. split; [exact H1|]. cbn.
        intros H. apply elem_of_cons in H. destruct H as [H|H]; [congruence | auto].
      * intros H. apply elem_of_cons in H. destruct H as [H|H]; [congruence | auto].
Qed.

Lemma subscriptions_app cb l l' :
  subscriptions cb (l ++ l') = (subscriptions cb l + subscriptions cb l')%nat.
Proof. unfold subscriptions. now rewrite filter_app, length_app. Qed.

Lemma subscriptions_delete cb x l index :
  l !! index = Some x ->
  subscriptions cb (delete index l)
  = (subscriptions cb l - (if decide (x = cb) then 1 else 0))%nat.
Proof.
  revert index. induction l as [|y l IH]; intros index H; [discriminate|].
  destruct index as [|index]; cbn in H.
  - injection H as ->. cbn [delete list_delete]. unfold subscriptions.
    rewrite filter_cons. destruct (decide (x = cb)); cbn; lia.
  - change (delete (S index) (y :: l)) with (y :: delete index l).
    unfold subscriptions in *. rewrite !filter_cons.
    specialize (IH index H).
    destruct (decide (y = cb)); cbn [length]; [|exact IH].
    rewrite IH. destruct (decide (x = cb)); [|lia].
    assert (1 <= length (filter (fun x0 => x0 = cb) l))%nat; [|lia].
    subst x. clear -H. revert index H. induction l as [|z l IH]; intros index H;
      [discriminate|].
    rewrite filter_cons. destruct index as [|index]; cbn in H.
    + injection H as ->. destruct (decide (cb = cb)); [cbn; lia | contradiction].
    + specialize (IH index H). destruct (decide (z = cb)); cbn; lia.
Qed.

Lemma subscriptions_absent cb l : cb ∉ l -> subscriptions cb l = 0%nat.
Proof.
  unfold subscriptions. intros Hn.
  destruct (filter (fun x => x = cb) l) as [|x xs] eqn:E; [reflexivity|].
  exfalso. assert (Hx : x ∈ filter (fun x => x = cb) l) by (rewrite E; now left).
  apply list_elem_of_filter in Hx. destruct Hx as [-> Hx]. contradiction.
Qed.

(** X21: [subscribe] appends the callback; the unsubscribe function removes
    the first occurrence of the callback and nothing else: the listeners
    before it and after it stay, in their order, so that the callback is
    subscribed once less and every other callback as often as before; when
    the callback is not subscribed (any more) it does nothing.
    Unsubscribing a callback that was not subscribed before its [subscribe]
    restores the manager exactly. *)
Theorem unsubscribe_removes_one_subscription :
  forall (this : AutoLayoutManager) (cb : callback),
    listeners (subscribe this cb) = (listeners this ++ [cb])%list /\
    (cb ∈ listeners this ->
     exists before after,
       listeners this = (before ++ cb :: after)%list /\ (cb ∉ before) /\
       listeners (unsubscribe this cb) = (before ++ after)%list) /\
    (forall other,
       subscriptions other (listeners (unsubscribe this cb))
       = (subscriptions other (listeners this)
          - (if decide (other = cb) then 1 else 0))%nat) /\
    (cb ∉ listeners this -> unsubscribe this cb = this) /\
    (cb ∉ listeners this -> unsubscribe (subscribe this cb) cb = this) /\
    options (unsubscribe this cb) = options this /\
    debounceTimer (unsubscribe this cb) = debounceTimer this.
Proof.
  intros this cb. split; [reflexivity|].
  pose proof (indexOf_spec (listeners this) cb) as Hspec.
  split; [|split; [|split; [|split]]].
  - intros Hin. unfold unsubscribe.
    destruct (indexOf (listeners this) cb) as [index|] eqn:E; [|contradiction].
    destruct Hspec as [Hl Hnot]. cbn [listeners].
    exists (take index (listeners this)), (drop (S index) (listeners this)).
    split; [symmetry; now apply take_drop_middle|].
    split; [exact Hnot | apply delete_take_drop].
  - intros other. unfold unsubscribe.
    destruct (indexOf (listeners this) cb) as [index|] eqn:E.
    + destruct Hspec as [Hl _]. cbn [listeners].
      rewrite (subscriptions_delete other cb _ index Hl).
      destruct (decide (cb = other)), (decide (other = cb)); congruence.
    + destruct (decide (other = cb)) as [->|]; [|lia].
      rewrite (subscriptions_absent cb _ Hspec). reflexivity.
  - intros Hn. unfold unsubscribe.
    destruct (indexOf (listeners this) cb) as [index|]; [|reflexivity].
    destruct Hspec as [Hl _]. exfalso. apply Hn. apply list_elem_of_lookup. eauto.
  - intros Hn. unfold unsubscribe, subscribe. cbn [listeners options debounceTimer].
    pose proof (indexOf_spec (listeners this ++ [cb]) cb) as Hspec'.
    destruct (indexOf (listeners this ++ [cb]) cb) as [index|].
    + destruct Hspec' as [Hl Ht].
      assert (index = length (listeners this)) as ->.
      { destruct (Nat.lt_trichotomy index (length (listeners this))) as [Hlt|[->|Hgt]];
          [|reflexivity|].
        - exfalso. rewrite lookup_app_l in Hl by exact Hlt.
          apply Hn. apply list_elem_of_lookup. eauto.
        - exfalso. apply lookup_lt_Some in Hl. rewrite length_app in Hl. cbn in Hl. lia. }
      destruct this as [o t l]. cbn [listeners options debounceTimer] in *. f_equal.
      clear. induction l as [|x l IH]; cbn; [reflexivity|]. f_equal. exact IH.
    + exfalso. apply Hspec'. apply elem_of_app. right. now left.
  - unfold unsubscribe. split; destruct (indexOf (listeners this) cb); reflexivity.
Qed.

(** Witness for X21: callback 7 subscribed twice around callback 3; its
    unsubscribe function removes the first of the two. *)
Lemma unsubscribe_witness :
  listeners
    (unsubscribe
       (subscribe (subscribe (subscribe
          (new_AutoLayoutManager (mkAutoOptions None None None None None None None))
          7%nat) 3%nat) 7%nat)
       7%nat)
  = [3%nat; 7%nat].
Proof.
  assert (Hin : 7%nat ∈ listeners
            (subscribe (subscribe (subscribe
               (new_AutoLayoutManager (mkAutoOptions None None None None None None None))
               7%nat) 3%nat) 7%nat)) by (cbn; left).
  destruct (proj1 (proj2 (unsubscribe_removes_one_subscription _ 7%nat)) Hin)
    as (before & after & E & Hnot & ->).
  cbn in E. destruct before as [|x before]; cbn in E.
  - injection E as <-. reflexivity.
  - injection E as <- _. exfalso. apply Hnot. left.
Defined.

Lemma triggerAutoLayout_keeps this data changeType :
  options (triggerAutoLayout this data changeType) = options this /\
  listeners (triggerAutoLayout this data changeType) = listeners this.
Proof. unfold triggerAutoLayout. destruct (negb _); auto. Qed.

Lemma shouldTrigger_options this this' changeType :
  options this' = options this ->
  shouldTrigger this' changeType = shouldTrigger this changeType.
Proof. unfold shouldTrigger. now intros ->. Qed.

Lemma run_triggers_snoc this events c :
  run_triggers this (events ++ [c])
  = triggerAutoLayout (run_triggers this events) (fst c) (snd c).
Proof. unfold run_triggers. now rewrite fold_left_app. Qed.

Lemma triggers_pending (this : AutoLayoutManager) (events : list (Diagram * ChangeType)) :
  options (run_triggers this events) = options this /\
  listeners (run_triggers this events) = listeners this /\
  debounceTimer (run_triggers this events)
  = match last (triggering this events) with
    | Some c => Some (mkTimer (fst c) (o_debounceMs (options this)))
    | None => debounceTimer this
    end.
Proof.
  induction events as [|c events (IHo & IHl & IHt)] using rev_ind.
  - cbn. auto.
  - rewrite run_triggers_snoc.
    destruct (triggerAutoLayout_keeps (run_triggers this events) (fst c) (snd c))
      as [Ho El].
    split; [congruence|]. split; [congruence|].
    unfold triggering in *. rewrite filter_app, filter_cons, filter_nil.
    unfold triggerAutoLayout.
    rewrite (shouldTrigger_options this _ (snd c) IHo).
    destruct (decide (shouldTrigger this (snd c) = true)) as [Hs|Hs].
    + rewrite Hs. cbn [negb debounceTimer]. rewrite last_snoc, IHo. reflexivity.
    + apply not_true_is_false in Hs. rewrite Hs. cbn [negb].
      now rewrite app_nil_r.
Qed.

Lemma disabled_ignores_triggers (this : AutoLayoutManager)
    (events : list (Diagram * ChangeType)) :
  o_enabled (options this) = false -> run_triggers this events = this.
Proof.
  intros Hd. induction events as [|c events IH] using rev_ind; [reflexivity|].
  rewrite run_triggers_snoc, IH. unfold triggerAutoLayout, shouldTrigger.
  now rewrite Hd.
Qed.

(** X22: debouncing.  A run of [triggerAutoLayout] calls without a timer
    firing in between leaves at most one timer pending: the one of the last
    call of the run that passes [shouldTrigger], holding the data of that
    call; when no call passes, the timer pending before the run is still the
    one pending.  Options and listeners are untouched, and a disabled manager
    is not changed at all. *)
Theorem triggers_are_debounced :
  forall (this : AutoLayoutManager) (events : list (Diagram * ChangeType)),
    options (run_triggers this events) = options this /\
    listeners (run_triggers this events) = listeners this /\
    debounceTimer (run_triggers this events)
    = match last (triggering this events) with
      | Some c => Some (mkTimer (fst c) (o_debounceMs (options this)))
      | None => debounceTimer this
      end /\
    (o_enabled (options this) = false -> run_triggers this events = this).
Proof.
  intros this events.
  destruct (triggers_pending this events) as (Ho & Hl & Ht).
  split; [exact Ho|]. split; [exact Hl|]. split; [exact Ht|].
  apply disabled_ignores_triggers.
Qed.

(** Witness for X22: a disabled manager. *)
Lemma triggers_debounced_witness :
  run_triggers
    (setEnabled (new_AutoLayoutManager
                   (mkAutoOptions None None None None None None None)) false)
    [(sample_diagram, NodeAdd); (sample_diagram, EdgeRemove)]
  = setEnabled (new_AutoLayoutManager
                  (mkAutoOptions None None None None None None None)) false.
Proof.
  apply (proj2 (proj2 (proj2 (triggers_are_debounced
           (setEnabled (new_AutoLayoutManager
                          (mkAutoOptions None None None None None None None)) false)
           [(sample_diagram, NodeAdd); (sample_diagram, EdgeRemove)])))).
  reflexivity.
Defined.

(** ** What a layout pass of the manager does *)

Lemma config_for_algorithm (layout : LayoutConfig) :
  (if String.eqb (ltype (config_for layout)) "flowchart" then Force
   else if String.eqb (ltype (config_for layout)) "org-chart" then Tree
   else if String.eqb (ltype (config_for layout)) "mind-map" then Organic
   else Force)
  = algorithm_for (ltype layout).
Proof.
  unfold config_for, algorithm_for.
  destruct (String.eqb_spec (ltype layout) "flowchart") as [E|_].
  { rewrite E. reflexivity. }
  destruct (String.eqb_spec (ltype layout) "org-chart") as [E|_].
  { rewrite E. reflexivity. }
  destruct (String.eqb_spec (ltype layout) "mind-map") as [E|_].
  { rewrite E. reflexivity. }
  reflexivity.
Qed.

(** X23: a layout pass of the manager runs the custom engine with its default
    options and with the tree algorithm exactly for the type 'org-chart', the
    organic one exactly for 'mind-map' and the force-directed one for every
    other type.  It always returns; the diagram it returns holds the very
    node objects it was given, moved in place in the heap (ids, types, sizes
    and labels kept; objects outside the list untouched), the same edges and
    configuration, and the current date. *)
Theorem manager_applyLayout_by_type :
  forall random now (data : Diagram) (h : heap),
    exists h',
      CustomLayout.layout random
        (mkEngine (d_nodes data) (d_edges data)
           (mkRequired (algorithm_for (ltype (d_layout data)))
                       100 1000 (1 / 10) (9 / 10) 400 300)) h
      = Some (d_nodes data, h') /\
      applyLayout random now data h
      = Some (mkDiagram (d_nodes data) (d_edges data) (d_layout data)
                        (d_metadata data) now, h') /\
      heap_same_but_positions h h' /\
      (forall r, r ∉ d_nodes data -> h' r = h r).
Proof.
  intros random now data h.
  set (this := mkEngine (d_nodes data) (d_edges data)
                 (mkRequired (algorithm_for (ltype (d_layout data)))
                             100 1000 (1 / 10) (9 / 10) 400 300)).
  destruct (layout_frame random this h) as (h' & E & Hsame & Hframe).
  exists h'. split; [exact E|]. split; [|split; [exact Hsame | exact Hframe]].
  - unfold applyLayout, CustomLayout.applyCustomLayout.
    cbn [algorithm no_options iterations repulsion attraction damping centerX centerY].
    rewrite config_for_algorithm.
    change (new_CustomLayoutEngine (d_nodes data) (d_edges data)
              (mkOptions (Some (algorithm_for (ltype (d_layout data))))
                         None None None None None None)) with this.
    now rewrite E.
Qed.

(** Witness for X23: the sample diagram (a flowchart) with object 2 outside
    its node list. *)
Lemma manager_applyLayout_witness :
  exists h',
    applyLayout no_jitter 0 sample_diagram sample_heap
    = Some (mkDiagram [0%nat; 1%nat] [mkEdge "e1" "A" "B"] sample_config "sample" 0, h') /\
    h' 2%nat = sample_heap 2%nat.
Proof.
  destruct (manager_applyLayout_by_type no_jitter 0 sample_diagram sample_heap)
    as (h' & _ & E & _ & Hframe).
  exists h'. split; [exact E|]. apply Hframe.
  cbn. intros Hin.
  apply elem_of_cons in Hin as [Hin|Hin]; [discriminate|].
  apply list_elem_of_singleton in Hin. discriminate.
Defined.

(** The diagram a layout pass of the manager returns. *)
Lemma manager_applyLayout_returns random now data h :
  exists h',
    applyLayout random now data h
    = Some (mkDiagram (d_nodes data) (d_edges data) (d_layout data)
                      (d_metadata data) now, h') /\
    heap_same_but_positions h h'.
Proof.
  set (this := mkEngine (d_nodes data) (d_edges data)
                 (mkRequired (algorithm_for (ltype (d_layout data)))
                             100 1000 (1 / 10) (9 / 10) 400 300)).
  destruct (layout_frame random this h) as (h' & E & Hsame & _).
  exists h'. split; [|exact Hsame].
  unfold applyLayout, CustomLayout.applyCustomLayout.
  cbn [algorithm no_options iterations repulsion attraction damping centerX centerY].
  rewrite config_for_algorithm.
  change (new_CustomLayoutEngine (d_nodes data) (d_edges data)
            (mkOptions (Some (algorithm_for (ltype (d_layout data))))
                       None None None None None None)) with this.
  now rewrite E.
Qed.

(** X24: the debounced layout runs once, on the data of the last change.
    After a run of [triggerAutoLayout] calls of which at least one passes
    [shouldTrigger], the timer that fires lays out the diagram of the last
    such call (and of no other), calls every listener once, in subscription
    order, with the resulting diagram, and leaves no timer pending: a second
    firing changes nothing.  When no call passes and no timer was pending,
    firing changes nothing either. *)
Theorem debounced_layout_runs_once_on_last_data :
  forall random now (this : AutoLayoutManager)
         (events : list (Diagram * ChangeType)) (h : heap)
         (log : list (callback * Diagram)),
    (forall c, last (triggering this events) = Some c ->
       exists h',
         let newData :=
           mkDiagram (d_nodes (fst c)) (d_edges (fst c)) (d_layout (fst c))
                     (d_metadata (fst c)) now in
         let after :=
           mkWorld (mkManager (options this) None (listeners this)) h'
                   (log ++ map (fun cb => (cb, newData)) (listeners this))%list in
         applyLayout random now (fst c) h = Some (newData, h') /\
         timer_fires random now (mkWorld (run_triggers this events) h log)
         = Some after /\
         timer_fires random now after = Some after) /\
    (triggering this events = [] -> debounceTimer this = None ->
     timer_fires random now (mkWorld (run_triggers this events) h log)
     = Some (mkWorld this h log)).
Proof.
  intros random now this events h log.
  destruct (triggers_pending this events) as (Ho & Hl & Ht).
  split.
  - intros c Hc. rewrite Hc in Ht.
    destruct (manager_applyLayout_returns random now (fst c) h) as (h' & E & _).
    exists h'. cbv zeta. split; [exact E|]. split; [|reflexivity].
    unfold timer_fires. cbn [manager objects calls]. rewrite Ht.
    cbn [t_data]. rewrite E. unfold notifyListeners. now rewrite Ho, Hl.
  - intros Hnone Hidle. rewrite Hnone in Ht. cbn [last] in Ht.
    unfold timer_fires. cbn [manager]. rewrite Ht, Hidle.
    f_equal. f_equal.
    destruct (run_triggers this events) as [o t l], this as [o' t' l'].
    cbn in *. congruence.
Qed.

(** Witness for X24: two changes to a fresh manager with one listener. *)
Lemma debounced_layout_witness :
  exists h',
    timer_fires no_jitter 0
      (mkWorld
         (run_triggers
            (subscribe (new_AutoLayoutManager
                          (mkAutoOptions None None None None None None None)) 7%nat)
            [(sample_diagram, NodeResize); (sample_diagram, NodeAdd);
             (sample_diagram, NodeResize)])
         sample_heap [])
    = Some (mkWorld
              (subscribe (new_AutoLayoutManager
                            (mkAutoOptions None None None None None None None)) 7%nat)
              h' [(7%nat, sample_diagram)]).
Proof.
  destruct (proj1 (debounced_layout_runs_once_on_last_data no_jitter 0
              (subscribe (new_AutoLayoutManager
                            (mkAutoOptions None None None None None None None)) 7%nat)
              [(sample_diagram, NodeResize); (sample_diagram, NodeAdd);
               (sample_diagram, NodeResize)]
              sample_heap [])
              (sample_diagram, NodeAdd) eq_refl) as (h' & _ & E & _).
  exists h'. exact E.
Defined.

(** X25: [forceLayout] lays the diagram out at once, whatever the options:
    it returns the diagram with the same node objects, edges and
    configuration and the current date, calls every listener once with it,
    in subscription order, and cancels the pending timer, so that the diagram
    of an earlier change is never laid out afterwards. *)
Theorem forceLayout_runs_now_and_cancels_pending :
  forall random now (data : Diagram) (w : World),
    exists h',
      let newData :=
        mkDiagram (d_nodes data) (d_edges data) (d_layout data)
                  (d_metadata data) now in
      let after :=
        mkWorld (mkManager (options (manager w)) None (listeners (manager w))) h'
                (calls w ++ map (fun cb => (cb, newData)) (listeners (manager w)))%list in
      forceLayout random now data w = Some (newData, after) /\
      heap_same_but_positions (objects w) h' /\
      timer_fires random now after = Some after.
Proof.
  intros random now data w.
  destruct (manager_applyLayout_returns random now data (objects w)) as (h' & E & Hsame).
  exists h'. cbv zeta. split; [|split; [exact Hsame | reflexivity]].
  unfold forceLayout. now rewrite E.
Qed.

(** X26: [destroy] silences the manager but does not disable it.  After it
    no timer is pending and no callback is subscribed, so a firing does
    nothing and a forced layout notifies nobody; yet a change that triggered
    before still schedules a layout. *)
Theorem destroy_silences_but_does_not_disable :
  forall random now (this : AutoLayoutManager) (h : heap)
         (log : list (callback * Diagram)),
    timer_fires random now (mkWorld (destroy this) h log)
    = Some (mkWorld (destroy this) h log) /\
    (forall cb, subscriptions cb (listeners (destroy this)) = 0%nat) /\
    (forall data, exists newData h',
       forceLayout random now data (mkWorld (destroy this) h log)
       = Some (newData, mkWorld (destroy this) h' log)) /\
    (forall data changeType,
       shouldTrigger this changeType = true ->
       debounceTimer (triggerAutoLayout (destroy this) data changeType)
       = Some (mkTimer data (o_debounceMs (options this)))).
Proof.
  intros random now this h log.
  split; [reflexivity|]. split; [reflexivity|]. split.
  - intros data.
    destruct (manager_applyLayout_returns random now data h) as (h' & E & _).
    eexists. exists h'. unfold forceLayout. cbn [manager objects calls].
    rewrite E. unfold notifyListeners, destroy. cbn [listeners options map].
    now rewrite app_nil_r.
  - intros data changeType Hs. unfold triggerAutoLayout.
    rewrite (shouldTrigger_options this (destroy this) changeType eq_refl), Hs.
    reflexivity.
Qed.

(** Witness for X26: a fresh manager and the addition of a node. *)
Lemma destroy_witness :
  debounceTimer
    (triggerAutoLayout
       (destroy (new_AutoLayoutManager
                   (mkAutoOptions None None None None None None None)))
       sample_diagram NodeAdd)
  = Some (mkTimer sample_diagram 300).
Proof.
  apply (proj2 (proj2 (proj2 (destroy_silences_but_does_not_disable
           no_jitter 0
           (new_AutoLayoutManager (mkAutoOptions None None None None None None None))
           sample_heap [])))).
  reflexivity.
Defined.

End AutoLayoutFacts.

(** * The viewport filter and the virtual list *)

Section PerformanceFacts.
Import PerformanceUtils.

Lemma in_viewport_on_screen viewport node :
  0 < v_zoom viewport ->
  in_viewport viewport node = true <-> on_screen viewport node.
Proof.
  intros Hz. unfold in_viewport, on_screen, node_left, node_right, node_top, node_bottom.
  cbv zeta. rewrite !andb_true_iff, !leb_true.
  set (z := v_zoom viewport) in *.
  set (ox := px (v_offset viewport)). set (oy := py (v_offset viewport)).
  set (x := px (position node)). set (y := py (position node)).
  set (w := width (size node)). set (ht := height (size node)).
  set (W := v_width viewport). set (H := v_height viewport).
  assert (Hdiv : forall a b, a / z <= b <-> a <= b * z).
  { intros a b. split; intros Hab.
    - apply (Rmult_le_compat_r z) in Hab; [|lra].
      unfold Rdiv in Hab. rewrite Rmult_assoc, Rinv_l in Hab by lra. lra.
    - apply (Rmult_le_reg_r z); [lra|].
      unfold Rdiv. rewrite Rmult_assoc, Rinv_l by lra. lra. }
  assert (Hdiv' : forall a b, b <= a / z <-> b * z <= a).
  { intros a b. split; intros Hab.
    - apply (Rmult_le_compat_r z) in Hab; [|lra].
      unfold Rdiv in Hab. rewrite Rmult_assoc, Rinv_l in Hab by lra. lra.
    - apply (Rmult_le_reg_r z); [lra|].
      unfold Rdiv. rewrite Rmult_assoc, Rinv_l by lra. lra. }
  rewrite !Hdiv, !Hdiv'.
  split; [intros (((H1 & H2) & H3) & H4) | intros (H1 & H2 & H3 & H4)];
    repeat split; lra.
Qed.

Lemma filter_sublist_of {A} (f : A -> bool) (l : list A) : sublist (List.filter f l) l.
Proof.
  induction l as [|a l IH]; cbn.
  - constructor.
  - destruct (f a); now constructor.
Qed.

(** X27: what [optimizeDiagramRendering] keeps, for a positive zoom.  A node
    is visible exactly when it is in the list and its extent, drawn at the
    zoom and offset of the viewport, meets the window; an edge is visible
    exactly when it is in the list and both its ends are ids of visible
    nodes; both results keep the order of the lists they come from. *)
Theorem optimizeDiagramRendering_keeps_what_is_on_screen :
  forall (nodes : list DiagramNode) (edges : list DiagramEdge) (viewport : Viewport),
    0 < v_zoom viewport ->
    let visibleNodes := fst (optimizeDiagramRendering nodes edges viewport) in
    let visibleEdges := snd (optimizeDiagramRendering nodes edges viewport) in
    (forall node, node ∈ visibleNodes <-> node ∈ nodes /\ on_screen viewport node) /\
    (forall edge,
       edge ∈ visibleEdges <->
       edge ∈ edges /\
       (exists node, node ∈ visibleNodes /\ id node = source edge) /\
       (exists node, node ∈ visibleNodes /\ id node = target edge)) /\
    sublist visibleNodes nodes /\ sublist visibleEdges edges.
Proof.
  intros nodes edges viewport Hz. cbv zeta. unfold optimizeDiagramRendering.
  cbn [fst snd].
  assert (Hids : forall i,
            i ∈ (list_to_set (map id (List.filter (in_viewport viewport) nodes))
                 : gset string) <->
            exists node, node ∈ List.filter (in_viewport viewport) nodes /\ id node = i).
  { intros i. rewrite elem_of_list_to_set, list_elem_of_fmap.
    split; intros (node & H1 & H2); exists node; auto. }
  split; [|split; [|split]].
  - intros node. rewrite !list_elem_of_In, filter_In, <- list_elem_of_In.
    now rewrite (in_viewport_on_screen viewport node Hz).
  - intros edge. rewrite list_elem_of_In, filter_In, <- list_elem_of_In.
    rewrite andb_true_iff, !bool_decide_eq_true, !Hids. tauto.
  - apply filter_sublist_of.
  - apply filter_sublist_of.
Qed.

(** Witness for X27: the two sample nodes in a window of 800 by 600 at zoom
    1. *)
Lemma optimizeDiagramRendering_witness :
  sublist
    (fst (optimizeDiagramRendering [node_A; node_B] [mkEdge "e1" "A" "B"]
            (mkViewport 800 600 1 (mkPosition 0 0))))
    [node_A; node_B].
Proof.
  apply (proj1 (proj2 (proj2
           (optimizeDiagramRendering_keeps_what_is_on_screen
              [node_A; node_B] [mkEdge "e1" "A" "B"]
              (mkViewport 800 600 1 (mkPosition 0 0)) ltac:(cbn; lra))))).
Defined.

Lemma take_min_length {T} (items : list T) (K : Z) :
  (0 <= K)%Z ->
  take (Z.to_nat (Z.min (Z.of_nat (length items)) K)) items = take (Z.to_nat K) items.
Proof.
  intros HK. destruct (Z.le_ge_cases (Z.of_nat (length items)) K) as [Hle|Hge].
  - rewrite Z.min_l by lia. rewrite !take_ge by lia. reflexivity.
  - now rewrite Z.min_r by lia.
Qed.

(** X28: the window of [createVirtualList] for a positive item height, a
    container height that is not negative and an overscan that is not
    negative.  The window always starts at the first item (the function takes
    no scroll position), holds the first [ceil(containerHeight / itemHeight)
    + 2 * overscan + 1] items, or all of them when there are fewer, ends at
    the index of the last item it holds, and is tall enough to cover the
    container unless it holds every item. *)
Theorem createVirtualList_window_starts_at_top :
  forall (T : Type) (items : list T) (containerHeight itemHeight : number)
         (overscan : Z),
    0 < itemHeight -> 0 <= containerHeight -> (0 <= overscan)%Z ->
    let window := createVirtualList items containerHeight itemHeight overscan in
    startIndex window = 0%Z /\ offsetY window = 0 /\
    visibleItems window
    = take (Z.to_nat (Math_ceil (containerHeight / itemHeight) + 2 * overscan + 1)) items /\
    endIndex window = (Z.of_nat (length (visibleItems window)) - 1)%Z /\
    (visibleItems window = items \/
     containerHeight < INR (length (visibleItems window)) * itemHeight).
Proof.
  intros T items containerHeight itemHeight overscan Hi Hc Ho. cbv zeta.
  unfold createVirtualList. cbn [startIndex offsetY visibleItems endIndex].
  assert (Hfloor : Math_floor ((- 0) / itemHeight) = 0%Z).
  { unfold Math_floor. apply Zfloor_eq. unfold Rdiv. rewrite Ropp_0, Rmult_0_l. lra. }
  rewrite Hfloor.
  replace (Z.max 0 (0 - overscan)) with 0%Z by lia.
  set (c := Math_ceil (containerHeight / itemHeight)).
  assert (Hceil : containerHeight <= IZR c * itemHeight).
  { pose proof (Zceil_bound (containerHeight / itemHeight)) as [_ Hhi].
    fold (Math_ceil (containerHeight / itemHeight)) in Hhi. fold c in Hhi.
    apply (Rmult_le_compat_r itemHeight) in Hhi; [|lra].
    unfold Rdiv in Hhi. rewrite Rmult_assoc, Rinv_l in Hhi by lra. lra. }
  assert (Hc0 : (0 <= c)%Z).
  { apply le_IZR. apply (Rmult_le_reg_r itemHeight); [exact Hi|]. lra. }
  set (len := Z.of_nat (length items)).
  set (K := (c + 2 * overscan + 1)%Z).
  assert (Hslice : slice items 0
                     (Z.min (len - 1) (0 + c + overscan * 2) + 1)
                   = take (Z.to_nat K) items).
  { unfold slice, relative_index. fold len.
    replace (Z.min (len - 1) (0 + c + overscan * 2) + 1)%Z with (Z.min len K) by lia.
    assert (0 <= len)%Z by lia.
    destruct (Z.ltb_spec (Z.min len K) 0); [lia|].
    destruct (Z.ltb_spec 0 0); [lia|].
    replace (Z.min 0 len) with 0%Z by lia.
    replace (Z.min (Z.min len K) len - 0)%Z with (Z.min len K) by lia.
    cbn [Z.to_nat]. rewrite drop_0. apply take_min_length. lia. }
  rewrite Hslice.
  split; [reflexivity|]. split; [lra|]. split; [reflexivity|].
  rewrite length_take.
  destruct (Z.le_ge_cases len K) as [Hle|Hge].
  - split; [lia|]. left. apply take_ge. lia.
  - split; [lia|]. right.
    rewrite Nat.min_l by lia. rewrite INR_IZR_INZ, Z2Nat.id by lia.
    unfold K. rewrite !plus_IZR, mult_IZR.
    assert (0 <= IZR overscan) by now apply IZR_le.
    nra.
Qed.

(** Witness for X28: ten items of height 20 in a container of height 50 with
    an overscan of one item. *)
Lemma createVirtualList_witness :
  startIndex (createVirtualList (seq 0 10) 50 20 1) = 0%Z.
Proof.
  apply (createVirtualList_window_starts_at_top nat (seq 0 10) 50 20 1);
    [lra | lra | lia].
Defined.

End PerformanceFacts.
